(** * Gravity: a fixed-capacity byte arena with a free-space treap

    A sequential model of the Go packages [treap] and [gravity]
    (treap/action.go, the FreeSpace and Node files, the free-space manager,
    vmap.go and gravity.go) together with the properties of the
    specification that are checked against it.

    Conventions of the model.
    - [uint64] values are integers in [Z]; every arithmetic operation of the
      source that can wrap is written with [wrap64].
    - A [*Node] is a value of the inductive type [Node]; the [left] and
      [right] fields are the two subtrees.  The fields [prev], [next] and
      [parent] are not stored: they are read off the tree (in-order
      neighbours and the enclosing node), which is the value the source
      keeps in them (this is what the repository's VerifyInOrder and
      VerifyHeapAndParentOrder test helpers assert).
    - A Go function that can panic, block on the condition variable, or
      recurse without bound returns an [option]; [None] stands for: no
      result in a sequential run.  Go [error] values are ordinary results.
    - [runtime.fastrandn] and the [float64] gravity arithmetic are not part
      of the repository; they are fields of the [Runtime] class. *)

From Stdlib Require Import ZArith List Lia Bool.
From Stdlib Require Import Strings.Byte.
From stdpp Require Import base option list gmap.

Open Scope Z_scope.

(** ** Machine integers *)

Definition wrap64 (x : Z) : Z := x mod 2 ^ 64.

Definition wrap_int32 (x : Z) : Z := (x + 2 ^ 31) mod 2 ^ 32 - 2 ^ 31.

(** The parts of the Go runtime the packages rely on. *)
Class Runtime := {
  (** state of the runtime's random source *)
  RS : Type;
  (** [fastrandn n]: next value and next state *)
  fastrandn : Z -> RS -> Z * RS;
  (** [float64] *)
  F : Type;
  (** [float64(size) * float64(nextSize) / (d * d)] with [d = float64(dist)] *)
  fgravity : Z -> Z -> Z -> F;
  (** the constant [-1.0] ([initG]) *)
  fminus1 : F;
  (** [>] on [float64] *)
  fgt : F -> F -> bool
}.

(** ** Package treap *)

Module treap.

(** type FreeSpace struct { Start, End uint64 } *)
Record FreeSpace := mkFS { Start : Z; End : Z }.

#[global] Instance FreeSpace_eq_dec : EqDecision FreeSpace.
Proof. solve_decision. Defined.

(** func (fs *FreeSpace) Size() uint64 *)
Definition Size (fs : FreeSpace) : Z :=
  if Start fs >? End fs then 0 else wrap64 (End fs - Start fs + 1).

(** type Node struct { Fs *FreeSpace; left, right, prev, next, parent *Node } *)
Inductive Node :=
| Nil
| mkNode (left : Node) (Fs : FreeSpace) (right : Node).

(** The methods of [*Node] only read the node's [Fs] (and [next] for
    [gravity]); they are stated on the [FreeSpace] values. *)

(** func (n *Node) greater(other *Node) bool *)
Definition greater (n other : FreeSpace) : bool :=
  if Start n =? Start other then End n >? End other
  else Start n >? Start other.

(** func (n *Node) distance(nextNode *Node) uint64 *)
Definition distance (n nextNode : FreeSpace) : Z :=
  wrap64 (Start nextNode - End n).

(** func (n *Node) isOverlapping(other *Node) bool, for a non-nil [other] *)
Definition isOverlapping (n other : FreeSpace) : bool :=
  (Start n =? wrap64 (End other + 1)) || (Start other =? wrap64 (End n + 1)).

(** func (n *Node) merge(overlapNode *Node): the new value of [n.Fs] *)
Definition merge (n overlapNode : FreeSpace) : FreeSpace :=
  let s := if Start overlapNode <? Start n then Start overlapNode else Start n in
  let e := if End overlapNode >? End n then End overlapNode else End n in
  mkFS s e.

(** func CountNodes(node *Node) int *)
Fixpoint CountNodes (node : Node) : nat :=
  match node with
  | Nil => 0%nat
  | mkNode l _ r => (1 + CountNodes l + CountNodes r)%nat
  end.

(** The in-order sequence of the tree (scanInorder): the list threaded by the
    [prev]/[next] fields. *)
Fixpoint inorder (root : Node) : list FreeSpace :=
  match root with
  | Nil => []
  | mkNode l fs r => inorder l ++ fs :: inorder r
  end.

(** func minValueNode(node *Node): the leftmost node's interval *)
Fixpoint minValueNode (node : Node) : option FreeSpace :=
  match node with
  | Nil => None
  | mkNode Nil fs _ => Some fs
  | mkNode l _ _ => minValueNode l
  end.

(** its mirror image (the commented-out maxValueNode of the source) *)
Fixpoint maxValueNode (node : Node) : option FreeSpace :=
  match node with
  | Nil => None
  | mkNode _ fs Nil => Some fs
  | mkNode _ _ r => maxValueNode r
  end.

(** func rotateLeft(y *Node) *Node; callers guarantee [y.right != nil] *)
Definition rotateLeft (y : Node) : Node :=
  match y with
  | mkNode yl yfs (mkNode xl xfs xr) => mkNode (mkNode yl yfs xl) xfs xr
  | _ => y
  end.

(** func rotateRight(x *Node) *Node; callers guarantee [x.left != nil] *)
Definition rotateRight (x : Node) : Node :=
  match x with
  | mkNode (mkNode yl yfs yr) xfs xr => mkNode yl yfs (mkNode yr xfs xr)
  | _ => x
  end.

Definition sizeOf (n : Node) : option Z :=
  match n with
  | Nil => None
  | mkNode _ fs _ => Some (Size fs)
  end.

(** func Remove(root, node *Node): the new root and the deleted node.
    The recursion of the source is not structural (after a rotation it
    restarts from the rotated root), so the model takes fuel; [node] is
    given by its interval, the only part of it the source reads. The second
    component is the interval of the deleted node. *)
Fixpoint Remove_aux (fuel : nat) (root : Node) (node : FreeSpace)
  : option (Node * option FreeSpace) :=
  match fuel with
  | O => None
  | S fuel =>
    match root with
    | Nil => Some (Nil, None)
    | mkNode l fs r =>
      if greater fs node then
        '(l', dn) ← Remove_aux fuel l node; Some (mkNode l' fs r, dn)
      else if greater node fs then
        '(r', dn) ← Remove_aux fuel r node; Some (mkNode l fs r', dn)
      else
        match l, r with
        | Nil, Nil => Some (Nil, Some fs)
        | Nil, _ => Some (r, Some fs)
        | _, Nil => Some (l, Some fs)
        | mkNode _ lfs _, mkNode _ rfs _ =>
          if Size lfs >? Size rfs
          then Remove_aux fuel (rotateRight root) fs
          else Remove_aux fuel (rotateLeft root) fs
        end
    end
  end.

Definition Remove (root : Node) (node : FreeSpace)
  : option (Node * option FreeSpace) :=
  Remove_aux (2 * CountNodes root + 1) root node.

(** [Remove(n.parent, n)] as [mergeAndExpand] calls it for the in-order
    successor [n] of a node: [n] is the leftmost node below [P]. The source
    discards the returned root, so the call acts through the child link of
    [n.parent] only; that is the case when the search at [n.parent] descends
    towards [n]. *)
Fixpoint removeLeftmost (P : Node) : option Node :=
  match P with
  | Nil => None
  | mkNode l fs r =>
    match l with
    | Nil => None
    | mkNode Nil nfs _ =>
      if greater fs nfs then fst <$> Remove P nfs else None
    | mkNode (mkNode _ _ _) _ _ =>
      l' ← removeLeftmost l; Some (mkNode l' fs r)
    end
  end.

Fixpoint removeRightmost (P : Node) : option Node :=
  match P with
  | Nil => None
  | mkNode l fs r =>
    match r with
    | Nil => None
    | mkNode _ nfs Nil =>
      if negb (greater fs nfs) && greater nfs fs
      then fst <$> Remove P nfs else None
    | mkNode _ _ (mkNode _ _ _) =>
      r' ← removeRightmost r; Some (mkNode l fs r')
    end
  end.

(** The node [root] with its interval replaced. *)
Definition setFs (root : Node) (fs : FreeSpace) : Node :=
  match root with
  | Nil => Nil
  | mkNode l _ r => mkNode l fs r
  end.

(** The branch of [mergeAndExpand] taken when neither [root.next] nor
    [root.prev] abuts [nn]. *)
Definition expandOnly (root : Node) (nn : FreeSpace) : option Node :=
  match root with
  | Nil => None
  | mkNode l fs r => Some (mkNode l (merge fs nn) r)
  end.

(** The branch for [root.prev]: [Remove(p.parent, p)], then [root.merge(p)]. *)
Definition absorbPrev (root : Node) (nn : FreeSpace) : option Node :=
  match root with
  | Nil => None
  | mkNode l fs r =>
    match maxValueNode l with
    | Some p =>
      if isOverlapping p nn then
        root' ← match l with
                | mkNode _ _ Nil =>
                  if greater fs p then fst <$> Remove root p else None
                | _ => l' ← removeRightmost l; Some (mkNode l' fs r)
                end;
        Some (setFs root' (merge fs p))
      else expandOnly root nn
    | None => expandOnly root nn
    end
  end.

(** func mergeAndExpand(root *Node, nn *Node).
    [root.next] is the leftmost node of the right subtree when there is one;
    otherwise it is an ancestor, which [Insert] has already tested against
    [nn] with the same (symmetric) predicate on its way down, so the first
    branch is not taken. The same holds for [root.prev]. *)
Definition mergeAndExpand (root : Node) (nn : FreeSpace) : option Node :=
  match root with
  | Nil => None
  | mkNode l fs r =>
    match minValueNode r with
    | Some n =>
      if isOverlapping n nn then
        root' ← match r with
                | mkNode Nil _ _ =>
                  if negb (greater fs n) && greater n fs
                  then fst <$> Remove root n else None
                | _ => r' ← removeLeftmost r; Some (mkNode l fs r')
                end;
        Some (setFs root' (merge fs n))
      else absorbPrev root nn
    | None => absorbPrev root nn
    end
  end.

Section WithRuntime.
Context {rt : Runtime}.

(** The swim step of [Insert]: one rotation when a child is larger. *)
Definition heapify (root : Node) : Node :=
  match root with
  | Nil => Nil
  | mkNode l fs r =>
    match sizeOf l with
    | Some ls =>
      if ls >? Size fs then rotateRight root
      else match sizeOf r with
           | Some rs => if rs >? Size fs then rotateLeft root else root
           | None => root
           end
    | None =>
      match sizeOf r with
      | Some rs => if rs >? Size fs then rotateLeft root else root
      | None => root
      end
    end
  end.

(** The randomised step of [Insert] for children of equal size; [fastrandn]
    is called only when the preceding conjuncts hold. *)
Definition randomize (root : Node) (s : RS) : Node * RS :=
  match root with
  | Nil => (Nil, s)
  | mkNode l fs r =>
    let tryRight (s : RS) :=
      match sizeOf r with
      | Some rs =>
        if rs =? Size fs then
          let '(v, s') := fastrandn 10 s in
          if v <? 5 then (rotateLeft root, s') else (root, s')
        else (root, s)
      | None => (root, s)
      end in
    match sizeOf l with
    | Some ls =>
      if ls =? Size fs then
        let '(v, s') := fastrandn 10 s in
        if v <? 5 then (rotateRight root, s') else tryRight s'
      else tryRight s
    | None => tryRight s
    end
  end.

(** func Insert(root *Node, nn *Node) *Node *)
Fixpoint Insert (root : Node) (nn : FreeSpace) (s : RS) : option (Node * RS) :=
  match root with
  | Nil => Some (mkNode Nil nn Nil, s)
  | mkNode l fs r =>
    '(root1, s1) ←
      (if isOverlapping fs nn then
         root' ← mergeAndExpand root nn; Some (root', s)
       else if greater fs nn then
         '(l', s') ← Insert l nn s; Some (mkNode l' fs r, s')
       else
         '(r', s') ← Insert r nn s; Some (mkNode l fs r', s'));
    Some (randomize (heapify root1) s1)
  end.

(** func (n *Node) gravity() float64, given [n.Fs] and [n.next] *)
Definition gravity (n : FreeSpace) (next : option FreeSpace) : F :=
  match next with
  | None => fminus1
  | Some m => fgravity (Size n) (Size m) (distance n m)
  end.

(** The in-order successor of the root of [n], where [hi] is the successor
    of the whole subtree [n]. *)
Definition nextOf (n : Node) (hi : option FreeSpace) : option FreeSpace :=
  match n with
  | Nil => None
  | mkNode _ _ r =>
    match minValueNode r with
    | Some m => Some m
    | None => hi
    end
  end.

(** The closure [g] of [GreatestGravityNode]. *)
Definition gOf (a : Node) (hi : option FreeSpace) : F :=
  match a with
  | Nil => fminus1
  | mkNode _ fs _ => gravity fs (nextOf a hi)
  end.

Inductive pick := PickA | PickB | PickC.

(** The closure [max] of [GreatestGravityNode], on the three gravities. *)
Definition max3 (ga gb gc : F) : pick :=
  if fgt ga gb then (if fgt ga gc then PickA else PickC)
  else if fgt gb gc then PickB
  else PickC.

(** The loop of [GreatestGravityNode]. A node is returned as its position in
    the in-order sequence; [base] is the number of nodes before the subtree
    [crawl] and [hi] the successor of the subtree. [None]: the loop ended
    with [crawl == nil]. *)
Fixpoint crawlDown (crawl : Node) (hi : option FreeSpace) (size : Z)
    (base : nat) : option nat :=
  match crawl with
  | Nil => None
  | mkNode cl fs cr =>
    let l := match sizeOf cl with
             | Some ls => if ls >=? size then cl else Nil
             | None => Nil
             end in
    let r := match sizeOf cr with
             | Some rs => if rs >=? size then cr else Nil
             | None => Nil
             end in
    let here := (base + CountNodes cl)%nat in
    match l, r with
    | Nil, Nil => Some here
    | _, _ =>
      match max3 (gOf crawl hi) (gOf l (Some fs)) (gOf r hi) with
      | PickA => Some here
      | PickB =>
        match l with
        | Nil => None
        | mkNode _ _ _ => crawlDown cl (Some fs) size base
        end
      | PickC =>
        match r with
        | Nil => None
        | mkNode _ _ _ => crawlDown cr hi size (S here)
        end
      end
    end
  end.

(** func GreatestGravityNode(root *Node, size uint64) *Node.
    [None] is the nil pointer (empty tree). *)
Definition GreatestGravityNode (root : Node) (size : Z) : option nat :=
  match root with
  | Nil => None
  | mkNode l _ _ =>
    match crawlDown root None size 0 with
    | Some i => Some i
    | None => Some (CountNodes l)
    end
  end.

End WithRuntime.

(** The loop of [GetFittingNeighbours]: [nc] is the chain of [next] pointers
    from the node, [pc] the chain of [prev] pointers. [None] is the panic
    (size not satisfied). *)
Fixpoint takePrev (size : Z) (pc : list FreeSpace) (ts : Z)
    (fss : list FreeSpace) : option (list FreeSpace * Z) :=
  if ts <? size then
    match pc with
    | [] => None
    | p :: pc' => takePrev size pc' (wrap64 (ts + Size p)) (p :: fss)
    end
  else Some (fss, ts).

Fixpoint takeNext (size : Z) (nc pc : list FreeSpace) (ts : Z)
    (fss : list FreeSpace) : option (list FreeSpace * Z) :=
  if ts <? size then
    match nc with
    | [] => takePrev size pc ts fss
    | n :: nc' => takeNext size nc' pc (wrap64 (ts + Size n)) (fss ++ [n])
    end
  else Some (fss, ts).

(** The removal loop of [GetFittingNeighbours]. *)
Fixpoint removeAll (nr : Node) (fss : list FreeSpace) : option Node :=
  match fss with
  | [] => Some nr
  | fs :: rest => '(nr', _) ← Remove nr fs; removeAll nr' rest
  end.

(** func GetFittingNeighbours(root, node *Node, size uint64)
      (fss []*FreeSpace, nr *Node, ts uint64);
    [node] is the in-order position of the node. *)
Definition GetFittingNeighbours (root : Node) (node : nat) (size : Z)
  : option (list FreeSpace * Node * Z) :=
  let seq := inorder root in
  nfs ← seq !! node;
  '(fss, ts) ← takeNext size (drop (S node) seq) (rev (take node seq))
                        (Size nfs) [nfs];
  nr ← removeAll root fss;
  Some (fss, nr, ts).

End treap.

(** ** Package gravity *)

Module gravity.
Import treap.

Inductive error :=
| NotEnoughSpace        (* errors.New: not enough space *)
| WrongReadPosition     (* errors.New: wrong read position index *)
| illegalPoolPut        (* errors.New: pool put called without pool get *)
| errEmptyFreespace     (* errors.New: empty freespace *)
| errOutOfBound         (* errors.New: out of bound *)
| errInputTooSmall      (* errors.New: input byte too small *)
| errCopyCount.         (* errors.New: expected to write .. but wrote .. *)

#[global] Instance error_eq_dec : EqDecision error.
Proof. solve_decision. Defined.

(** *** Bytes and slices *)

Definition byte_of_Z (z : Z) : byte :=
  match Byte.of_N (Z.to_N (z mod 256)) with
  | Some b => b
  | None => x00
  end.

Definition Z_of_byte (b : byte) : Z := Z.of_N (Byte.to_N b).

Fixpoint le_encode (n : nat) (v : Z) : list byte :=
  match n with
  | O => []
  | S n => byte_of_Z v :: le_encode n (Z.shiftr v 8)
  end.

Fixpoint le_decode (b : list byte) : Z :=
  match b with
  | [] => 0
  | x :: b => Z.lor (Z_of_byte x) (Z.shiftl (le_decode b) 8)
  end.

(** binary.LittleEndian.PutUint64: the eight bytes written *)
Definition PutUint64 (v : Z) : list byte := le_encode 8 v.

(** binary.LittleEndian.Uint64 *)
Definition Uint64 (b : list byte) : Z := le_decode (take 8 b).

Definition len (b : list byte) : Z := Z.of_nat (length b).

(** The slice expression [m[lo:hi]]; [None] is the run-time panic. The
    buffer's capacity is its length. *)
Definition slice (m : list byte) (lo hi : Z) : option (list byte) :=
  if (0 <=? lo) && (lo <=? hi) && (hi <=? len m)
  then Some (take (Z.to_nat (hi - lo)) (drop (Z.to_nat lo) m))
  else None.

(** The buffer after [src] has been written at offset [pos]. *)
Definition writeBytes (m : list byte) (pos : Z) (src : list byte) : list byte :=
  take (Z.to_nat pos) m ++ src ++ drop (Z.to_nat pos + length src) m.

(** [copy(dst, src)] where [dst] is the slice of [m] at [pos]: the new
    buffer and the number of bytes copied. *)
Definition copy (m : list byte) (pos : Z) (dst src : list byte)
  : list byte * Z :=
  let n := Z.min (len dst) (len src) in
  (writeBytes m pos (take (Z.to_nat n) src), n).

(** *** vmap.go *)

Definition maxBucket : Z := 32.

(** type vmap struct { bucket map[int]*shard }, a shard being a
    map[uint64]uint64 *)
Abbreviation vmap := (gmap Z (gmap Z Z)).

Definition newShardedStore : vmap :=
  foldr (fun i (ss : vmap) => <[Z.of_nat i := (∅ : gmap Z Z)]> ss) ∅
        (seq 0 (Z.to_nat maxBucket)).

Definition bucketIdx (key : Z) : Z := Z.land key (maxBucket - 1).

Definition store (v : vmap) (key value : Z) : vmap :=
  let index := bucketIdx key in
  match v !! index with
  | Some silo => <[index := <[key := value]> silo]> v
  | None => v
  end.

Definition load (v : vmap) (key : Z) : Z * bool :=
  match v !! bucketIdx key with
  | Some silo =>
    match silo !! key with
    | Some val => (val, true)
    | None => (0, false)
    end
  | None => (0, false)
  end.

Definition loadAndDelete (v : vmap) (key : Z) : Z * bool * vmap :=
  let index := bucketIdx key in
  match v !! index with
  | Some silo =>
    match silo !! key with
    | Some val => (val, true, <[index := delete key silo]> v)
    | None => (0, false, v)
    end
  | None => (0, false, v)
  end.

(** *** The free-space manager *)

Record freeSpaceManager := mkFSM {
  root : Node;
  totalFreeSpace : Z;
  extractedFreeSpaces : Z
}.

Definition newFSM : freeSpaceManager := mkFSM Nil 0 0.

Section WithRuntime.
Context {rt : Runtime}.

(** func (t *freeSpaceManager) add(fs *treap.FreeSpace) error *)
Definition add (t : freeSpaceManager) (fs : FreeSpace) (s : RS)
  : option (freeSpaceManager * option error * RS) :=
  if Size fs <=? 0 then Some (t, Some errEmptyFreespace, s)
  else
    '(r, s') ← Insert (root t) fs s;
    Some (mkFSM r (wrap64 (totalFreeSpace t + Size fs))
                (extractedFreeSpaces t), None, s').

(** func (t *freeSpaceManager) poolExtract(size uint64)
    ([]*treap.FreeSpace, error).
    With no other goroutine to return a bundle, a call that has to wait on
    the condition variable never returns ([None]). The deferred
    [NodePool.Put(node)] clears a node that has left the tree. *)
Definition poolExtract (t : freeSpaceManager) (size : Z)
  : option (freeSpaceManager * (list FreeSpace + error)) :=
  let short := match sizeOf (root t) with
               | Some rs => rs <? size
               | None => true
               end in
  if short && (extractedFreeSpaces t >? 0) then None
  else
    match sizeOf (root t) with
    | None => Some (t, inr NotEnoughSpace)
    | Some rs =>
      if totalFreeSpace t <? size then Some (t, inr NotEnoughSpace)
      else
        let expectedNodeSize := if rs <? size then 0 else size in
        node ← GreatestGravityNode (root t) expectedNodeSize;
        '(fss, nr, extractedSize) ← GetFittingNeighbours (root t) node size;
        Some (mkFSM nr (wrap64 (totalFreeSpace t - extractedSize))
                    (wrap_int32 (extractedFreeSpaces t + 1)), inl fss)
    end.

(** func (t *freeSpaceManager) poolPut(fs *treap.FreeSpace) error *)
Definition poolPut (t : freeSpaceManager) (fs : FreeSpace) (s : RS)
  : option (freeSpaceManager * option error * RS) :=
  let e := wrap_int32 (extractedFreeSpaces t - 1) in
  let t1 := mkFSM (root t) (totalFreeSpace t) e in
  if e <? 0 then Some (t1, Some illegalPoolPut, s)
  else if Size fs <=? 0 then Some (t1, None, s)
  else
    '(r, s') ← Insert (root t1) fs s;
    Some (mkFSM r (wrap64 (totalFreeSpace t1 + Size fs)) e, None, s').

(** func (t *freeSpaceManager) totalFreeSpaceSize() uint64; it waits until
    no bundle is checked out. *)
Definition totalFreeSpaceSize (t : freeSpaceManager) : option Z :=
  if extractedFreeSpaces t >? 0 then None else Some (totalFreeSpace t).

(** *** gravity.go *)

Definition HeaderLen : Z := 8.
Definition KeyLen : Z := 8.

Record Gravity := mkGravity {
  mem : list byte;
  fsm : freeSpaceManager;
  size : Z;
  key : Z;
  vmap_ : vmap
}.

Definition setMem (g : Gravity) (m : list byte) : Gravity :=
  mkGravity m (fsm g) (size g) (key g) (vmap_ g).
Definition setFsm (g : Gravity) (t : freeSpaceManager) : Gravity :=
  mkGravity (mem g) t (size g) (key g) (vmap_ g).
Definition setKey (g : Gravity) (k : Z) : Gravity :=
  mkGravity (mem g) (fsm g) (size g) k (vmap_ g).
Definition setVmap (g : Gravity) (v : vmap) : Gravity :=
  mkGravity (mem g) (fsm g) (size g) (key g) v.

(** func NewGravity(mem []byte): the arena (nil when the buffer is too
    small) and the error *)
Definition NewGravity (m : list byte) (s : RS)
  : option (option Gravity * option error * RS) :=
  let sz := len m in
  if sz <=? HeaderLen + KeyLen then Some (None, Some errInputTooSmall, s)
  else
    let g := mkGravity m newFSM sz 1 newShardedStore in
    '(t, err, s') ← add (fsm g) (mkFS 0 (wrap64 (sz - 1))) s;
    Some (Some (setFsm g t), err, s').

(** func (g *Gravity) getKey() uint64 *)
Definition getKey (g : Gravity) : Gravity * Z :=
  let k := wrap64 (key g + 1) in (setKey g k, k).

(** func (g *Gravity) loadFromVPos(key uint64) (uint64, error) *)
Definition loadFromVPos (g : Gravity) (k : Z) : Z * option error :=
  let '(pos, ok) := load (vmap_ g) k in
  if ok then (pos, None) else (0, Some WrongReadPosition).

(** func (g *Gravity) loadAndDeleteFromVPos(key uint64) (uint64, error) *)
Definition loadAndDeleteFromVPos (g : Gravity) (k : Z)
  : Gravity * Z * option error :=
  let '(pos, ok, v) := loadAndDelete (vmap_ g) k in
  if ok then (setVmap g v, pos, None)
  else (setVmap g v, 0, Some WrongReadPosition).

(** func (g *Gravity) writeAt(pos uint64, data []byte, k uint64) error *)
Definition writeAt (g : Gravity) (pos : Z) (data : list byte) (k : Z)
  : option (Gravity * option error) :=
  let dl := len data in
  _ ← slice (mem g) pos (wrap64 (pos + HeaderLen));
  let m1 := writeBytes (mem g) pos (PutUint64 dl) in
  let pos1 := wrap64 (pos + HeaderLen) in
  _ ← slice m1 pos1 (wrap64 (pos1 + KeyLen));
  let m2 := writeBytes m1 pos1 (PutUint64 k) in
  let pos2 := wrap64 (pos1 + KeyLen) in
  dst ← slice m2 pos2 (wrap64 (pos2 + dl));
  let '(m3, n) := copy m2 pos2 dst data in
  if n =? len data then Some (setMem g m3, None)
  else Some (setMem g m3, Some errCopyCount).

(** The loop of [readAndShift]. It has no bound in the source (a record
    length read from the buffer can make [start] wrap), hence the fuel.
    [None]: the panic (moving beyond the size), a slice out of range, or no
    fuel left. *)
Fixpoint shiftKeys (fuel : nat) (g : Gravity) (start srcEnd dstStart : Z)
    (runningDataLength : Z) : option Gravity :=
  if start <? srcEnd then
    match fuel with
    | O => None
    | S fuel =>
      if wrap64 (start + HeaderLen + KeyLen) >? size g then None
      else
        hdr ← slice (mem g) start (wrap64 (start + HeaderLen));
        let dl := Uint64 hdr in
        kb ← slice (mem g) (wrap64 (start + HeaderLen))
                   (wrap64 (start + HeaderLen + KeyLen));
        let k := Uint64 kb in
        let g' := setVmap g (store (vmap_ g) k
                                   (wrap64 (dstStart + runningDataLength))) in
        shiftKeys fuel g' (wrap64 (start + (dl + HeaderLen + KeyLen))) srcEnd
                  dstStart (wrap64 (runningDataLength + (dl + HeaderLen + KeyLen)))
    end
  else Some g.

(** func (g *Gravity) readAndShift(srcStart, srcEnd, dstStart, dstEnd uint64).
    The loop visits distinct offsets below the buffer size, or loops for
    ever, so one more unit of fuel than the buffer has bytes is enough. *)
Definition readAndShift (g : Gravity) (srcStart srcEnd dstStart dstEnd : Z)
  : option Gravity :=
  g1 ← shiftKeys (S (length (mem g))) g srcStart srcEnd dstStart 0;
  dst ← slice (mem g1) dstStart dstEnd;
  src ← slice (mem g1) srcStart srcEnd;
  Some (setMem g1 (fst (copy (mem g1) dstStart dst src))).

(** The loop of [merge]: [fs] is [fss[i]] (with the start the previous
    round gave it) and [rest] is [fss[i+1:]]. *)
Fixpoint mergeLoop (g : Gravity) (fs : FreeSpace) (rest : list FreeSpace)
  : option (Gravity * FreeSpace) :=
  match rest with
  | [] => Some (g, fs)
  | nfs :: rest' =>
    let destEnd := wrap64 (Start fs + wrap64 (Start nfs - End fs - 1)) in
    g' ← readAndShift g (wrap64 (End fs + 1)) (Start nfs) (Start fs) destEnd;
    mergeLoop g' (mkFS destEnd (End nfs)) rest'
  end.

(** func (g *Gravity) merge(fss []*treap.FreeSpace) *treap.FreeSpace;
    indexing an empty bundle panics. *)
Definition merge (g : Gravity) (fss : list FreeSpace)
  : option (Gravity * FreeSpace) :=
  match fss with
  | [] => None
  | fs :: rest => mergeLoop g fs rest
  end.

(** func (g *Gravity) write(data []byte, k uint64) error.
    The deferred [poolPut] runs on both return paths; its error is only
    logged. *)
Definition write (g : Gravity) (data : list byte) (k : Z) (s : RS)
  : option (Gravity * option error * RS) :=
  let dl := len data in
  let totalLen := wrap64 (HeaderLen + KeyLen + dl) in
  '(t, r) ← poolExtract (fsm g) totalLen;
  match r with
  | inr err => Some (setFsm g t, Some err, s)
  | inl fss =>
    '(g1, fs) ← merge (setFsm g t) fss;
    let npos := Start fs in
    '(g2, err) ← writeAt g1 npos data k;
    match err with
    | Some e =>
      '(t', _, s') ← poolPut (fsm g2) fs s;
      Some (setFsm g2 t', Some e, s')
    | None =>
      let g3 := setVmap g2 (store (vmap_ g2) k npos) in
      let fs' := mkFS (wrap64 (Start fs + totalLen)) (End fs) in
      '(t', _, s') ← poolPut (fsm g3) fs' s;
      Some (setFsm g3 t', None, s')
    end
  end.

(** func (g *Gravity) Write(data []byte) (key uint64, err error) *)
Definition Write (g : Gravity) (data : list byte) (s : RS)
  : option (Gravity * Z * option error * RS) :=
  let '(g1, k) := getKey g in
  '(g2, err, s') ← write g1 data k s;
  Some (g2, k, err, s').

(** func (g *Gravity) Read(key uint64) ([]byte, error) *)
Definition Read (g : Gravity) (k : Z) : option (list byte * option error) :=
  let '(pos, err) := loadFromVPos g k in
  match err with
  | Some e => Some ([], Some e)
  | None =>
    if pos >=? size g then Some ([], Some errOutOfBound)
    else
      hdr ← slice (mem g) pos (wrap64 (pos + HeaderLen));
      let dl := Uint64 hdr in
      let pos := wrap64 (pos + (HeaderLen + KeyLen)) in
      src ← slice (mem g) pos (wrap64 (pos + dl));
      let b := take (Z.to_nat (Z.min dl (len src))) src in
      if len b =? dl then Some (b, None) else Some ([], Some errCopyCount)
  end.

(** func (g *Gravity) Free(key uint64) error *)
Definition Free (g : Gravity) (k : Z) (s : RS)
  : option (Gravity * option error * RS) :=
  let '(g1, pos, err) := loadAndDeleteFromVPos g k in
  match err with
  | Some e => Some (g1, Some e, s)
  | None =>
    hdr ← slice (mem g1) pos (wrap64 (pos + HeaderLen));
    let dl := Uint64 hdr in
    let totalDataSize := wrap64 (HeaderLen + KeyLen + dl) in
    '(t, e, s') ← add (fsm g1) (mkFS pos (wrap64 (pos + totalDataSize - 1))) s;
    Some (setFsm g1 t, e, s')
  end.

(** func (g *Gravity) TotalFreeSpace() uint64 *)
Definition TotalFreeSpace (g : Gravity) : option Z :=
  totalFreeSpaceSize (fsm g).

End WithRuntime.

End gravity.

(** ** The second copy of gravity.go

    The repository holds a second version of gravity.go, whose [Read]
    reports an out-of-bounds position with [WrongReadPosition]; its other
    functions differ from the first version only in the locks they take. *)

Module gravity_v2.
Import treap gravity.

(** func (g *Gravity) Read(key uint64) ([]byte, error) *)
Definition Read (g : Gravity) (k : Z) : option (list byte * option error) :=
  let '(pos, err) := loadFromVPos g k in
  match err with
  | Some e => Some ([], Some e)
  | None =>
    if pos >=? size g then Some ([], Some WrongReadPosition)
    else
      hdr ← slice (mem g) pos (wrap64 (pos + HeaderLen));
      let dl := Uint64 hdr in
      let pos := wrap64 (pos + (HeaderLen + KeyLen)) in
      src ← slice (mem g) pos (wrap64 (pos + dl));
      let b := take (Z.to_nat (Z.min dl (len src))) src in
      if len b =? dl then Some (b, None) else Some ([], Some errCopyCount)
  end.

End gravity_v2.

(** ** Specification-level notions *)

Import treap.

(** [sep lo hi l]: the intervals of [l] are non-empty, lie strictly between
    [lo] and [hi], come in ascending order, and two consecutive ones leave
    at least one byte between them (neither overlapping nor adjacent). *)
Fixpoint sep (lo hi : Z) (l : list FreeSpace) : Prop :=
  match l with
  | [] => lo <= hi
  | f :: l' => lo < Start f /\ Start f <= End f /\ sep (End f + 1) hi l'
  end.

(** The largest offset plus one that an interval may end at without its
    [End + 1] wrapping. *)
Definition top : Z := 2 ^ 64 - 1.

(** The data-model invariant of the free-space treap. *)
Definition treap_ok (t : Node) : Prop := sep (-1) top (inorder t).

(** An interval as the specification understands it. *)
Definition interval (fs : FreeSpace) : Prop :=
  0 <= Start fs /\ Start fs <= End fs /\ End fs < top.

(** [fs] has no byte in common with [g]. *)
Definition apart (fs g : FreeSpace) : Prop :=
  End fs < Start g \/ End g < Start fs.

(** Adjacency of the specification: one's end plus one is the other's start. *)
Definition adjacent (a b : FreeSpace) : Prop :=
  End a + 1 = Start b \/ End b + 1 = Start a.

(** Insertion with coalescing into an ascending list of intervals. *)
Fixpoint ins (nn : FreeSpace) (l : list FreeSpace) : list FreeSpace :=
  match l with
  | [] => [nn]
  | f :: l' =>
    if End nn + 1 <? Start f then nn :: f :: l'
    else if End nn + 1 =? Start f then mkFS (Start nn) (End f) :: l'
    else if End f + 1 =? Start nn then
      match l' with
      | g :: l'' =>
        if End nn + 1 =? Start g then mkFS (Start f) (End g) :: l''
        else mkFS (Start f) (End nn) :: l'
      | [] => [mkFS (Start f) (End nn)]
      end
    else f :: ins nn l'
  end.

Definition sumSizes (l : list FreeSpace) : Z :=
  foldr (fun f a => Size f + a) 0 l.

(** The bytes covered by a list of intervals. *)
Definition covers (l : list FreeSpace) (x : Z) : Prop :=
  exists f, f ∈ l /\ Start f <= x <= End f.

(** A sequence of insertions into a tree. *)
Fixpoint InsertAll `{Runtime} (root : Node) (nns : list FreeSpace) (s : RS)
  : option (Node * RS) :=
  match nns with
  | [] => Some (root, s)
  | nn :: rest => '(r, s') ← Insert root nn s; InsertAll r rest s'
  end.

(** The invariant of the free-space manager: a well-formed treap whose
    sizes add up to [totalFreeSpace]. *)
Definition fsm_ok (t : gravity.freeSpaceManager) : Prop :=
  treap_ok (gravity.root t) /\
  gravity.totalFreeSpace t = sumSizes (inorder (gravity.root t)).

(** A runtime to evaluate the model with: [fastrandn] walks through a fixed
    cycle of values, gravities are exact fractions. *)
Definition demoGt (x y : Z * Z) : bool := fst x * snd y >? fst y * snd x.

Definition demoRuntime : Runtime := {|
  RS := nat;
  fastrandn := fun n s => (Z.of_nat (s * 7 + 3) mod n, S s);
  F := Z * Z;
  fgravity := fun a b d => (a * b, d * d);
  fminus1 := (-1, 1);
  fgt := demoGt
|}.

(** The key map read as a partial function. *)
Definition vget (v : gravity.vmap) (k : Z) : option Z :=
  let '(p, ok) := gravity.load v k in if ok then Some p else None.

(** The reading of the specification's sentence on a failed write that the
    code does not meet: every later write returns the key it would have
    returned had the failed call not been made. *)
Definition failed_write_leaves_no_trace `{Runtime} : Prop :=
  forall g data s g1 k s1,
    gravity.Write g data s = Some (g1, k, Some gravity.NotEnoughSpace, s1) ->
    forall data2,
      (fun r => snd (fst (fst r))) <$> gravity.Write g1 data2 s1 =
      (fun r => snd (fst (fst r))) <$> gravity.Write g data2 s.

(** An arena whose key map holds a position beyond the buffer. *)
Definition strayArena : gravity.Gravity :=
  gravity.mkGravity (replicate 20 "000"%byte) gravity.newFSM 20 1
                    (gravity.store gravity.newShardedStore 7 100).

Definition helloBytes : list byte :=
  ["h"; "e"; "l"; "l"; "o"]%byte.


Definition demoPool : list FreeSpace :=
  [mkFS 40 60; mkFS 20 25; mkFS 80 85; mkFS 10 13; mkFS 33 37; mkFS 29 31;
   mkFS 65 69; mkFS 95 99; mkFS 120 122; mkFS 75 77].

Definition demoTree : Node :=
  Eval vm_compute in
    match @InsertAll demoRuntime Nil demoPool 0%nat with
    | Some (t, _) => t
    | None => Nil
    end.

Definition demoFsm : gravity.freeSpaceManager :=
  gravity.mkFSM demoTree 61 0.


(** *** The layout of the buffer *)

(** The buffer is a sequence of segments: live records and gaps (runs of
    bytes that belong to no record; a gap carries its bytes). *)
Inductive seg :=
| Rec (k : Z) (d : list byte)
| Gap (bs : list byte).

(** The bytes of a segment: a record is its length, its key and its
    payload. *)
Definition enc (s : seg) : list byte :=
  match s with
  | Rec k d => gravity.PutUint64 (gravity.len d) ++ gravity.PutUint64 k ++ d
  | Gap bs => bs
  end.

Definition flat (segs : list seg) : list byte := flat_map enc segs.

Definition flen (segs : list seg) : Z := gravity.len (flat segs).

(** The gaps of a layout that starts at offset [off], as intervals. *)
Fixpoint frees (off : Z) (segs : list seg) : list FreeSpace :=
  match segs with
  | [] => []
  | Rec k d :: r => frees (off + gravity.len (enc (Rec k d))) r
  | Gap bs :: r =>
    mkFS off (off + gravity.len bs - 1) :: frees (off + gravity.len bs) r
  end.

(** The records of a layout with their offsets: (key, position). *)
Fixpoint recs (off : Z) (segs : list seg) : list (Z * Z) :=
  match segs with
  | [] => []
  | Rec k d :: r => (k, off) :: recs (off + gravity.len (enc (Rec k d))) r
  | Gap bs :: r => recs (off + gravity.len bs) r
  end.

(** The records of a layout with their payloads: (key, payload). *)
Fixpoint payloads (segs : list seg) : list (Z * list byte) :=
  match segs with
  | [] => []
  | Rec k d :: r => (k, d) :: payloads r
  | Gap _ :: r => payloads r
  end.

(** No gap is empty and no two gaps are neighbours; [prevGap] tells
    whether the layout is preceded by a gap. *)
Fixpoint gaps_ok (prevGap : bool) (segs : list seg) : Prop :=
  match segs with
  | [] => True
  | Rec _ _ :: r => gaps_ok false r
  | Gap bs :: r => prevGap = false /\ bs <> [] /\ gaps_ok true r
  end.

Definition endsWithGap (b : bool) (segs : list seg) : bool :=
  match last segs with
  | Some (Gap _) => true
  | Some (Rec _ _) => false
  | None => b
  end.

(** The largest buffer a Go slice can be. *)
Definition maxLen : Z := 2 ^ 63.

(** [rep g segs]: the arena [g], at rest, holds the layout [segs]. *)
Record rep (g : gravity.Gravity) (segs : list seg) : Prop := mkRep {
  rep_mem : gravity.mem g = flat segs;
  rep_size : gravity.size g = gravity.len (gravity.mem g);
  rep_max : gravity.size g < maxLen;
  rep_gaps : gaps_ok false segs;
  rep_tree : inorder (gravity.root (gravity.fsm g)) = frees 0 segs;
  rep_total : gravity.totalFreeSpace (gravity.fsm g) = sumSizes (frees 0 segs);
  rep_ext : gravity.extractedFreeSpaces (gravity.fsm g) = 0;
  rep_vmap : forall k p, vget (gravity.vmap_ g) k = Some p <-> (k, p) ∈ recs 0 segs;
  rep_nodup : NoDup (map fst (recs 0 segs));
  rep_keys : forall k p, (k, p) ∈ recs 0 segs -> 2 <= k <= gravity.key g;
  rep_key : 1 <= gravity.key g < 2 ^ 64;
  rep_buckets : forall i, 0 <= i < gravity.maxBucket ->
                          is_Some (gravity.vmap_ g !! i)
}.

(** The operations of the library interface and sequences of them. The
    model of what the arena holds is the list of (key, payload) pairs
    written successfully and not freed since. *)
Inductive op :=
| OpWrite (data : list byte)
| OpRead (k : Z)
| OpFree (k : Z).

Definition dropKey (k : Z) (live : list (Z * list byte)) : list (Z * list byte) :=
  filter (fun e => fst e <> k) live.

Definition step `{Runtime} (st : gravity.Gravity * RS * list (Z * list byte))
    (o : op) : option (gravity.Gravity * RS * list (Z * list byte)) :=
  let '(g, s, live) := st in
  match o with
  | OpWrite data =>
    '(g', k, err, s') ← gravity.Write g data s;
    match err with
    | None => Some (g', s', (k, data) :: live)
    | Some _ => Some (g', s', live)
    end
  | OpRead k =>
    _ ← gravity.Read g k; Some (g, s, live)
  | OpFree k =>
    '(g', err, s') ← gravity.Free g k s;
    match err with
    | None => Some (g', s', dropKey k live)
    | Some _ => Some (g', s', live)
    end
  end.

Fixpoint run `{Runtime} (st : gravity.Gravity * RS * list (Z * list byte))
    (ops : list op) : option (gravity.Gravity * RS * list (Z * list byte)) :=
  match ops with
  | [] => Some st
  | o :: rest => st' ← step st o; run st' rest
  end.

(** Every payload written is a Go slice, hence shorter than [maxLen]. *)
Definition op_ok (o : op) : Prop :=
  match o with
  | OpWrite data => gravity.len data < maxLen
  | _ => True
  end.

(** The span of a record in the buffer: header, key and payload. *)
Definition spanOf (e : Z * list byte) : Z := 16 + gravity.len (snd e).

Definition sumSpans (live : list (Z * list byte)) : Z :=
  foldr (fun e a => spanOf e + a) 0 live.

(** Freeing the record between [pre] and [post]: its bytes become a gap,
    joined with the gap that ends [pre] and the gap that starts [post]. *)
Definition splitLastGap (pre : list seg) : list seg * list byte :=
  match last pre with
  | Some (Gap bs) => (removelast pre, bs)
  | _ => (pre, [])
  end.

Definition splitHeadGap (post : list seg) : list byte * list seg :=
  match post with
  | Gap bs :: r => (bs, r)
  | _ => ([], post)
  end.

Definition freeAt (pre : list seg) (k : Z) (d : list byte) (post : list seg)
  : list seg :=
  fst (splitLastGap pre) ++
  Gap (snd (splitLastGap pre) ++ enc (Rec k d) ++ fst (splitHeadGap post)) ::
  snd (splitHeadGap post).

(** A run of records, as segments. *)
Definition recRun (kds : list (Z * list byte)) : list seg :=
  map (fun e => Rec (fst e) (snd e)) kds.

(** The key map after the records of a run have been registered again at
    the offsets they take once the run starts at [dst]. *)
Fixpoint shiftStore (v : gravity.vmap) (dst : Z) (kds : list (Z * list byte))
  : gravity.vmap :=
  match kds with
  | [] => v
  | e :: r =>
    shiftStore (gravity.store v (fst e) dst) (dst + (16 + gravity.len (snd e))) r
  end.

(** What a write leaves of the gap it went into. *)
Definition tailGap (bs : list byte) : list seg :=
  match bs with
  | [] => []
  | _ => [Gap bs]
  end.

(** [lay g segs]: the buffer and the key map of [g] hold the layout
    [segs]; nothing is said of the free-space manager, which has a bundle
    checked out while a write is under way. Every key in use is below the
    key the write has drawn. *)
Record lay (g : gravity.Gravity) (segs : list seg) : Prop := mkLay {
  lay_mem : gravity.mem g = flat segs;
  lay_size : gravity.size g = gravity.len (gravity.mem g);
  lay_max : gravity.size g < maxLen;
  lay_vmap : forall k p, vget (gravity.vmap_ g) k = Some p <-> (k, p) ∈ recs 0 segs;
  lay_nodup : NoDup (map fst (payloads segs));
  lay_keys : forall k d, (k, d) ∈ payloads segs -> 2 <= k < gravity.key g;
  lay_key : gravity.key g < 2 ^ 64;
  lay_buckets : forall i, 0 <= i < gravity.maxBucket ->
                          is_Some (gravity.vmap_ g !! i)
}.

(** A session: an arena is made over the buffer [m], then the operations
    [ops] are applied one after the other. *)
Definition session `{Runtime} (m : list byte) (ops : list op) (s : RS)
  : option (gravity.Gravity * RS * list (Z * list byte)) :=
  match gravity.NewGravity m s with
  | Some (Some g, None, s1) => run (g, s1, []) ops
  | _ => None
  end.

(** A buffer and a sequence of operations for worked instances. *)
Definition demoBuf : list byte := replicate 100 "000"%byte.

Definition demoOps : list op :=
  [OpWrite helloBytes; OpWrite helloBytes; OpFree 2; OpWrite helloBytes;
   OpRead 3].
Import treap.

(** ** Facts about intervals and ascending lists *)

Lemma wrap64_small x : 0 <= x < 2 ^ 64 -> wrap64 x = x.
Proof. intros H. unfold wrap64. apply Z.mod_small. exact H. Qed.

Lemma wrap64_range x : 0 <= wrap64 x < 2 ^ 64.
Proof. unfold wrap64. apply Z.mod_pos_bound. lia. Qed.

Lemma top_eq : top = 18446744073709551615.
Proof. reflexivity. Qed.

Lemma two64_eq : 2 ^ 64 = 18446744073709551616.
Proof. reflexivity. Qed.

Ltac unwrap :=
  repeat match goal with
  | |- context [wrap64 ?x] => rewrite (wrap64_small x) by (rewrite ?two64_eq, ?top_eq in *; lia)
  | H : context [wrap64 ?x] |- _ => rewrite (wrap64_small x) in H by (rewrite ?two64_eq, ?top_eq in *; lia)
  end.

Lemma Size_interval fs :
  0 <= Start fs -> Start fs <= End fs -> End fs < top ->
  Size fs = End fs - Start fs + 1.
Proof.
  intros H0 H1 H2. unfold Size.
  destruct (Z.gtb_spec (Start fs) (End fs)); [lia|].
  rewrite top_eq in H2. apply wrap64_small. rewrite two64_eq. lia.
Qed.

Lemma sep_weaken lo hi lo' hi' l :
  sep lo hi l -> lo' <= lo -> hi <= hi' -> sep lo' hi' l.
Proof.
  revert lo lo'. induction l as [|f l IH]; simpl; intros lo lo' H Hlo Hhi.
  - lia.
  - destruct H as (H1 & H2 & H3). repeat split; try lia.
    eapply IH; eauto. lia.
Qed.

Lemma sep_le lo hi l : sep lo hi l -> lo <= hi.
Proof.
  revert lo. induction l as [|f l IH]; simpl; intros lo H; [lia|].
  destruct H as (H1 & H2 & H3). apply IH in H3. lia.
Qed.

Lemma sep_app lo hi l1 f l2 :
  sep lo hi (l1 ++ f :: l2) <->
  sep lo (Start f - 1) l1 /\ Start f <= End f /\ sep (End f + 1) hi l2.
Proof.
  revert lo. induction l1 as [|e l1 IH]; simpl; intros lo.
  - split; intros H; repeat split; try tauto; lia.
  - rewrite IH. tauto.
Qed.

Lemma sep_Forall lo hi l :
  sep lo hi l -> Forall (fun f => lo < Start f /\ Start f <= End f /\ End f < hi) l.
Proof.
  revert lo. induction l as [|f l IH]; simpl; intros lo H; constructor.
  - destruct H as (H1 & H2 & H3). apply sep_le in H3. lia.
  - destruct H as (H1 & H2 & H3). apply IH in H3.
    eapply Forall_impl; [exact H3|]. simpl. intros; lia.
Qed.

Lemma sep_app2 lo hi l1 l2 :
  sep lo hi (l1 ++ l2) ->
  exists mid, sep lo mid l1 /\ sep mid hi l2 /\ lo <= mid <= hi.
Proof.
  revert lo. induction l1 as [|e l1 IH]; simpl; intros lo H.
  - exists lo. split; [lia|]. split; [exact H|]. apply sep_le in H. lia.
  - destruct H as (H1 & H2 & H3). apply IH in H3 as (mid & Ha & Hb & Hc).
    exists mid. repeat split; auto; lia.
Qed.

Lemma sep_drop_mid lo hi l1 f l2 :
  sep lo hi (l1 ++ f :: l2) -> sep lo hi (l1 ++ l2).
Proof.
  revert lo. induction l1 as [|e l1 IH]; simpl; intros lo H.
  - destruct H as (H1 & H2 & H3). eapply sep_weaken; eauto; lia.
  - destruct H as (H1 & H2 & H3). repeat split; auto.
Qed.

Lemma sep_interval lo hi l f :
  sep lo hi l -> -1 <= lo -> hi <= top -> f ∈ l -> interval f.
Proof.
  intros H Hlo Hhi Hin. apply sep_Forall in H.
  rewrite Forall_forall in H. apply H in Hin. unfold interval. lia.
Qed.

Lemma sep_not_elem lo hi l x :
  sep lo hi l -> Start x <= lo -> x ∉ l.
Proof.
  intros H Hx Hin. apply sep_Forall in H. rewrite Forall_forall in H.
  apply H in Hin. lia.
Qed.

Lemma sep_not_elem_hi lo hi l x :
  sep lo hi l -> hi <= End x -> x ∉ l.
Proof.
  intros H Hx Hin. apply sep_Forall in H. rewrite Forall_forall in H.
  apply H in Hin. lia.
Qed.

Lemma sep_NoDup lo hi l : sep lo hi l -> NoDup l.
Proof.
  revert lo. induction l as [|f l IH]; simpl; intros lo H; constructor.
  - destruct H as (H1 & H2 & H3). eapply sep_not_elem; eauto. lia.
  - destruct H as (H1 & H2 & H3). eauto.
Qed.

(** Elements of a separated list are pairwise apart and not adjacent. *)
Lemma sep_pairwise lo hi l i j a b :
  sep lo hi l -> l !! i = Some a -> l !! j = Some b -> (i < j)%nat ->
  End a + 1 < Start b.
Proof.
  revert lo i j. induction l as [|f l IH]; intros lo i j H Hi Hj Hlt.
  - rewrite lookup_nil in Hi. discriminate.
  - destruct H as (H1 & H2 & H3). destruct j as [|j]; [lia|].
    simpl in Hj. destruct i as [|i].
    + simpl in Hi. injection Hi as <-.
      apply sep_Forall in H3. rewrite Forall_forall in H3.
      apply list_elem_of_lookup_2 in Hj. apply H3 in Hj. lia.
    + simpl in Hi. eapply IH; eauto. lia.
Qed.

Lemma filter_ne_id (x : FreeSpace) (l : list FreeSpace) : x ∉ l -> filter (fun y => y <> x) l = l.
Proof.
  induction l as [|f l IH]; intros H; [reflexivity|].
  rewrite not_elem_of_cons in H. destruct H as [H1 H2].
  rewrite filter_cons_True by congruence. f_equal. auto.
Qed.

Lemma filter_ne_mid (x : FreeSpace) (l1 l2 : list FreeSpace) :
  x ∉ l1 -> x ∉ l2 -> filter (fun y => y <> x) (l1 ++ x :: l2) = l1 ++ l2.
Proof.
  intros H1 H2. rewrite filter_app, filter_cons_False by auto.
  rewrite !filter_ne_id; auto.
Qed.

(** ** The treap operations on the in-order sequence *)

Lemma length_inorder t : length (inorder t) = CountNodes t.
Proof.
  induction t as [|l IHl fs r IHr]; simpl; [reflexivity|].
  rewrite length_app. simpl. lia.
Qed.

Lemma inorder_rotateLeft t : inorder (rotateLeft t) = inorder t.
Proof.
  destruct t as [|l fs [|rl rfs rr]]; simpl; try reflexivity.
  rewrite <- !app_assoc. reflexivity.
Qed.

Lemma inorder_rotateRight t : inorder (rotateRight t) = inorder t.
Proof.
  destruct t as [|[|ll lfs lr] fs r]; simpl; try reflexivity.
  rewrite <- !app_assoc. reflexivity.
Qed.

Lemma CountNodes_rotateLeft t : CountNodes (rotateLeft t) = CountNodes t.
Proof. rewrite <- !length_inorder, inorder_rotateLeft. reflexivity. Qed.

Lemma CountNodes_rotateRight t : CountNodes (rotateRight t) = CountNodes t.
Proof. rewrite <- !length_inorder, inorder_rotateRight. reflexivity. Qed.

Lemma minValueNode_head t : minValueNode t = head (inorder t).
Proof.
  induction t as [|l IHl fs r IHr]; simpl; [reflexivity|].
  destruct l as [|ll lfs lr]; [reflexivity|].
  rewrite IHl. simpl. destruct (inorder ll); reflexivity.
Qed.

Lemma maxValueNode_last t : maxValueNode t = last (inorder t).
Proof.
  induction t as [|l IHl fs r IHr]; simpl; [reflexivity|].
  destruct r as [|rl rfs rr].
  - simpl. rewrite last_snoc. reflexivity.
  - rewrite IHr. simpl. rewrite !last_app_cons.
    change (fs :: inorder rl ++ rfs :: inorder rr)
      with ((fs :: inorder rl) ++ rfs :: inorder rr).
    rewrite last_app_cons. reflexivity.
Qed.

Lemma greater_irrefl x : greater x x = false.
Proof. unfold greater. rewrite Z.eqb_refl, Z.gtb_ltb. apply Z.ltb_irrefl. Qed.

Lemma greater_lt a b : Start b < Start a -> greater a b = true /\ greater b a = false.
Proof.
  intros H. unfold greater.
  destruct (Z.eqb_spec (Start a) (Start b)); [lia|].
  destruct (Z.eqb_spec (Start b) (Start a)); [lia|].
  split; [apply Z.gtb_lt; lia|]. rewrite Z.gtb_ltb. apply Z.ltb_ge. lia.
Qed.

Lemma greater_false_eq a b : greater a b = false -> greater b a = false -> a = b.
Proof.
  unfold greater. destruct a as [sa ea], b as [sb eb]; simpl.
  destruct (Z.eqb_spec sa sb), (Z.eqb_spec sb sa); try lia.
  rewrite !Z.gtb_ltb. intros H1%Z.ltb_ge H2%Z.ltb_ge. f_equal; lia.
Qed.

Lemma greater_true_cases a b :
  greater a b = true ->
  Start b < Start a \/ (Start a = Start b /\ End b < End a).
Proof.
  unfold greater. destruct (Z.eqb_spec (Start a) (Start b)); intros H%Z.gtb_lt; lia.
Qed.

Lemma sep_all_below lo hi l x :
  sep lo hi l -> hi <= Start x -> x ∉ l.
Proof.
  intros H Hx Hin. apply sep_Forall in H. rewrite Forall_forall in H.
  apply H in Hin. lia.
Qed.

(** [Remove] on a well-formed tree: with the fuel [Remove] gives it, the
    call returns, and the in-order sequence loses exactly the interval. *)
Lemma Remove_aux_spec n : forall t fuel lo hi x,
  (CountNodes t <= n)%nat -> (2 * n + 1 <= fuel)%nat ->
  sep lo hi (inorder t) ->
  exists t' dn, Remove_aux fuel t x = Some (t', dn) /\
    inorder t' = filter (fun y => y <> x) (inorder t).
Proof.
  induction n as [|n IH]; intros t fuel lo hi x Hc Hf Hs.
  - destruct t; [|simpl in Hc; lia].
    destruct fuel; [lia|]. simpl. eauto.
  - destruct fuel as [|fuel]; [lia|].
    destruct t as [|l fs r]; [simpl; eauto|].
    simpl in Hc. simpl in Hs. apply sep_app in Hs as (Hl & Hfs & Hr).
    cbn [Remove_aux].
    destruct (greater fs x) eqn:G1.
    { destruct (IH l fuel lo (Start fs - 1) x) as (l' & dn & E & I); [lia|lia|auto|].
      rewrite E. simpl. exists (mkNode l' fs r), dn. split; [reflexivity|].
      simpl. rewrite I, filter_app. f_equal.
      apply greater_true_cases in G1.
      rewrite filter_cons_True.
      2:{ intros ->. lia. }
      f_equal. symmetry. apply filter_ne_id.
      eapply sep_not_elem; eauto. lia. }
    destruct (greater x fs) eqn:G2.
    { destruct (IH r fuel (End fs + 1) hi x) as (r' & dn & E & I); [lia|lia|auto|].
      rewrite E. simpl. exists (mkNode l fs r'), dn. split; [reflexivity|].
      simpl. rewrite I, filter_app. 
      apply greater_true_cases in G2.
      rewrite filter_cons_True.
      2:{ intros ->. lia. }
      f_equal. symmetry. apply filter_ne_id.
      eapply sep_all_below; eauto. lia. }
    assert (fs = x) as <- by (apply greater_false_eq; auto).
    assert (Hnl : fs ∉ inorder l) by (eapply sep_all_below; eauto; lia).
    assert (Hnr : fs ∉ inorder r) by (eapply sep_not_elem; eauto; lia).
    assert (Hfil : filter (fun y => y <> fs) (inorder (mkNode l fs r)) =
                   inorder l ++ inorder r).
    { simpl. apply filter_ne_mid; auto. }
    rewrite Hfil.
    destruct l as [|ll lfs lr].
    { destruct r as [|rl rfs rr]; simpl; eauto. }
    destruct r as [|rl rfs rr].
    { simpl. exists (mkNode ll lfs lr), (Some fs). rewrite app_nil_r. auto. }
    destruct fuel as [|fuel]; [simpl in Hc; lia|].
    simpl in Hl. apply sep_app in Hl as (Hll & Hlfs & Hlr).
    simpl in Hr. apply sep_app in Hr as (Hrl & Hrfs & Hrr).
    pose proof (sep_le _ _ _ Hlr) as Hlr'.
    pose proof (sep_le _ _ _ Hrl) as Hrl'.
    destruct (Size lfs >? Size rfs).
    + cbn [rotateRight Remove_aux].
      destruct (greater_lt fs lfs) as [Ga Gb]; [lia|].
      rewrite Gb, Ga.
      destruct (IH (mkNode lr fs (mkNode rl rfs rr)) fuel (End lfs + 1) hi fs)
        as (t' & dn & E & I).
      * simpl in *. lia.
      * lia.
      * simpl. apply sep_app. repeat split; auto.
        apply sep_app. repeat split; auto.
      * rewrite E. simpl. exists (mkNode ll lfs t'), dn. split; [reflexivity|].
        simpl. rewrite I. simpl.
        rewrite filter_ne_mid.
        -- rewrite <- !app_assoc. reflexivity.
        -- eapply sep_all_below; eauto; lia.
        -- exact Hnr.
    + cbn [rotateLeft Remove_aux].
      destruct (greater_lt rfs fs) as [Ga Gb]; [lia|].
      rewrite Ga.
      destruct (IH (mkNode (mkNode ll lfs lr) fs rl) fuel lo (Start rfs - 1) fs)
        as (t' & dn & E & I).
      * simpl in *. lia.
      * lia.
      * simpl. apply sep_app. repeat split; auto.
        apply sep_app. repeat split; auto.
      * rewrite E. simpl. exists (mkNode t' rfs rr), dn. split; [reflexivity|].
        simpl. rewrite I. simpl.
        rewrite filter_ne_mid.
        -- rewrite <- !app_assoc. reflexivity.
        -- exact Hnl.
        -- eapply sep_not_elem; eauto; lia.
Qed.

Lemma Remove_spec t lo hi x :
  sep lo hi (inorder t) ->
  exists t' dn, Remove t x = Some (t', dn) /\
    inorder t' = filter (fun y => y <> x) (inorder t).
Proof.
  intros H. unfold Remove.
  eapply (Remove_aux_spec (CountNodes t)); eauto; lia.
Qed.

Lemma Remove_mid t lo hi l1 x l2 :
  sep lo hi (inorder t) -> inorder t = l1 ++ x :: l2 ->
  exists t' dn, Remove t x = Some (t', dn) /\ inorder t' = l1 ++ l2.
Proof.
  intros H E. destruct (Remove_spec t lo hi x H) as (t' & dn & R & I).
  exists t', dn. split; [exact R|]. rewrite I, E.
  rewrite E in H. apply sep_NoDup in H.
  apply NoDup_app in H as (_ & H1 & H2). apply NoDup_cons in H2 as [H2 _].
  apply filter_ne_mid; auto. intros Hin. apply (H1 x Hin). left.
Qed.

Lemma Remove_left l fs r lo hi x :
  greater fs x = true -> sep lo hi (inorder l) ->
  exists l' dn, Remove (mkNode l fs r) x = Some (mkNode l' fs r, dn) /\
    inorder l' = filter (fun y => y <> x) (inorder l).
Proof.
  intros G H. unfold Remove.
  replace (2 * CountNodes (mkNode l fs r) + 1)%nat
    with (S (2 * CountNodes (mkNode l fs r)))%nat by lia.
  cbn [Remove_aux]. rewrite G.
  destruct (Remove_aux_spec (CountNodes l) l (2 * CountNodes (mkNode l fs r)) lo hi x)
    as (l' & dn & E & I); [lia|simpl; lia|auto|].
  rewrite E. simpl. eauto.
Qed.

Lemma Remove_right l fs r lo hi x :
  greater fs x = false -> greater x fs = true -> sep lo hi (inorder r) ->
  exists r' dn, Remove (mkNode l fs r) x = Some (mkNode l fs r', dn) /\
    inorder r' = filter (fun y => y <> x) (inorder r).
Proof.
  intros G1 G2 H. unfold Remove.
  replace (2 * CountNodes (mkNode l fs r) + 1)%nat
    with (S (2 * CountNodes (mkNode l fs r)))%nat by lia.
  cbn [Remove_aux]. rewrite G1, G2.
  destruct (Remove_aux_spec (CountNodes r) r (2 * CountNodes (mkNode l fs r)) lo hi x)
    as (r' & dn & E & I); [lia|simpl; lia|auto|].
  rewrite E. simpl. eauto.
Qed.

Lemma filter_ne_head (x : FreeSpace) (l : list FreeSpace) lo hi :
  sep lo hi (x :: l) -> filter (fun y => y <> x) (x :: l) = l.
Proof.
  intros H. apply sep_NoDup in H. apply NoDup_cons in H as [H _].
  apply (filter_ne_mid x [] l); auto. apply not_elem_of_nil.
Qed.

Lemma filter_ne_last (x : FreeSpace) (l : list FreeSpace) lo hi :
  sep lo hi (l ++ [x]) -> filter (fun y => y <> x) (l ++ [x]) = l.
Proof.
  intros H. apply sep_NoDup in H. apply NoDup_app in H as (_ & H & _).
  rewrite (filter_ne_mid x l []), app_nil_r; auto.
  - intros Hin. apply (H x Hin). left.
  - apply not_elem_of_nil.
Qed.

(** [Remove(n.parent, n)] for the leftmost node [n]. *)
Lemma removeLeftmost_spec r : forall lo hi ll lfs lr fs rr,
  r = mkNode (mkNode ll lfs lr) fs rr ->
  sep lo hi (inorder r) ->
  exists r', removeLeftmost r = Some r' /\ inorder r' = tail (inorder r).
Proof.
  induction r as [|l IHl fs0 rr0 _]; intros lo hi ll lfs lr fs rr E H; [discriminate|].
  injection E as -> -> ->.
  simpl in H. rewrite <- app_assoc in H. simpl in H.
  destruct ll as [|lll llfs llr].
  - simpl in H. destruct H as (H1 & H2 & H3).
    apply sep_app in H3 as (H3 & H4 & H5).
    cbn [removeLeftmost].
    destruct (greater_lt fs lfs) as [G _].
    { apply sep_le in H3. lia. }
    rewrite G.
    destruct (Remove_left (mkNode Nil lfs lr) fs rr lo (Start fs - 1) lfs G)
      as (l' & dn & R & I).
    { simpl. repeat split; auto. }
    rewrite R. simpl. eexists; split; [reflexivity|].
    simpl. rewrite I. f_equal.
    apply (filter_ne_head lfs (inorder lr) lo (Start fs - 1)).
    simpl. repeat split; auto.
  - change (inorder (mkNode lll llfs llr) ++ lfs :: inorder lr ++ fs :: inorder rr)
      with (inorder (mkNode lll llfs llr) ++ lfs :: (inorder lr ++ fs :: inorder rr)) in H.
    assert (Hl : sep lo (Start fs - 1) (inorder (mkNode (mkNode lll llfs llr) lfs lr))).
    { change (inorder (mkNode (mkNode lll llfs llr) lfs lr))
        with (inorder (mkNode lll llfs llr) ++ lfs :: inorder lr).
      apply sep_app in H as (Ha & Hb & Hc).
      apply sep_app in Hc as (Hc & Hd & He).
      apply sep_app. repeat split; auto. }
    destruct (IHl lo (Start fs - 1) _ _ _ _ _ eq_refl Hl) as (l' & R & I).
    cbn [removeLeftmost]. cbn [removeLeftmost] in R. rewrite R. simpl.
    eexists; split; [reflexivity|]. simpl. rewrite I.
    simpl. destruct (inorder lll); simpl; rewrite <- ?app_assoc; reflexivity.
Qed.

Lemma removelast_snoc {A} (l : list A) x : removelast (l ++ [x]) = l.
Proof. apply removelast_last. Qed.

Lemma removelast_app_cons {A} (l1 : list A) x l2 :
  l2 <> [] -> removelast (l1 ++ x :: l2) = l1 ++ x :: removelast l2.
Proof.
  intros H. rewrite removelast_app by discriminate.
  destruct l2; [congruence|reflexivity].
Qed.

Lemma inorder_node l fs r : inorder (mkNode l fs r) = inorder l ++ fs :: inorder r.
Proof. reflexivity. Qed.

Lemma removeRightmost_spec l : forall lo hi ll fs rl rfs rr,
  l = mkNode ll fs (mkNode rl rfs rr) ->
  sep lo hi (inorder l) ->
  exists l', removeRightmost l = Some l' /\ inorder l' = removelast (inorder l).
Proof.
  induction l as [|ll0 _ fs0 r IHr]; intros lo hi ll fs rl rfs rr E H; [discriminate|].
  injection E as -> -> ->.
  simpl in H. apply sep_app in H as (H1 & H2 & H3).
  destruct rr as [|rrl rrfs rrr].
  - simpl in H3. rewrite app_nil_r in H3 || idtac.
    cbn [removeRightmost].
    assert (H3' := H3). apply sep_app in H3' as (H4 & H5 & H6).
    destruct (greater_lt rfs fs) as [Ga Gb].
    { apply sep_le in H4. lia. }
    rewrite Gb, Ga. simpl.
    destruct (Remove_right ll fs (mkNode rl rfs Nil) (End fs + 1) hi rfs Gb Ga H3)
      as (r' & dn & R & I).
    rewrite R. simpl. eexists; split; [reflexivity|].
    simpl in I. simpl. rewrite I.
    rewrite (filter_ne_last rfs (inorder rl) (End fs + 1) hi) by exact H3.
    change (fs :: inorder rl ++ [rfs]) with ((fs :: inorder rl) ++ [rfs]).
    rewrite app_assoc, removelast_snoc. reflexivity.
  - destruct (IHr (End fs + 1) hi _ _ _ _ _ eq_refl H3) as (r' & R & I).
    cbn [removeRightmost]. cbn [removeRightmost] in R. rewrite R. simpl.
    eexists; split; [reflexivity|].
    rewrite (inorder_node ll fs r'), I.
    change (inorder rl ++ rfs :: inorder rrl ++ rrfs :: inorder rrr)
      with (inorder (mkNode rl rfs (mkNode rrl rrfs rrr))).
    rewrite removelast_app_cons; [reflexivity|].
    simpl. destruct (inorder rl); discriminate.
Qed.

(** ** Coalescing insertion on lists *)

Lemma ins_skip nn (l1 l2 : list FreeSpace) :
  Start nn <= End nn ->
  Forall (fun e => Start e <= End e /\ End e + 1 < Start nn) l1 ->
  ins nn (l1 ++ l2) = l1 ++ ins nn l2.
Proof.
  intros Hnn H. induction H as [|e l1 [He1 He2] _ IH]; [reflexivity|].
  simpl.
  destruct (Z.ltb_spec (End nn + 1) (Start e)); [lia|].
  destruct (Z.eqb_spec (End nn + 1) (Start e)); [lia|].
  destruct (Z.eqb_spec (End e + 1) (Start nn)); [lia|].
  rewrite IH. reflexivity.
Qed.

Lemma ins_before nn (l1 : list FreeSpace) f l2 :
  End nn + 1 < Start f ->
  ins nn (l1 ++ f :: l2) = ins nn l1 ++ f :: l2.
Proof.
  intros Hf. induction l1 as [|e l1 IH].
  - simpl. destruct (Z.ltb_spec (End nn + 1) (Start f)); [reflexivity|lia].
  - simpl.
    destruct (Z.ltb_spec (End nn + 1) (Start e)); [reflexivity|].
    destruct (Z.eqb_spec (End nn + 1) (Start e)); [reflexivity|].
    destruct (Z.eqb_spec (End e + 1) (Start nn)).
    + destruct l1 as [|g l1]; simpl.
      * destruct (Z.eqb_spec (End nn + 1) (Start f)); [lia|reflexivity].
      * destruct (End nn + 1 =? Start g); reflexivity.
    + rewrite IH. reflexivity.
Qed.

Lemma isOverlapping_true a b :
  interval a -> interval b ->
  isOverlapping a b = true <-> (Start a = End b + 1 \/ Start b = End a + 1).
Proof.
  unfold interval, isOverlapping. rewrite top_eq. intros Ha Hb.
  rewrite !wrap64_small by (rewrite two64_eq; lia).
  rewrite orb_true_iff, !Z.eqb_eq. tauto.
Qed.

Lemma isOverlapping_false a b :
  interval a -> interval b ->
  isOverlapping a b = false <-> (Start a <> End b + 1 /\ Start b <> End a + 1).
Proof.
  intros Ha Hb. rewrite <- not_true_iff_false, isOverlapping_true by auto. tauto.
Qed.

Lemma merge_after fs nn :
  Start fs <= Start nn -> End fs <= End nn ->
  treap.merge fs nn = mkFS (Start fs) (End nn).
Proof.
  intros H1 H2. unfold treap.merge.
  destruct (Z.ltb_spec (Start nn) (Start fs)); [lia|].
  destruct (Z.gtb_spec (End nn) (End fs)); [reflexivity|].
  f_equal. lia.
Qed.

Lemma merge_before fs nn :
  Start nn <= Start fs -> End nn <= End fs ->
  treap.merge fs nn = mkFS (Start nn) (End fs).
Proof.
  intros H1 H2. unfold treap.merge.
  destruct (Z.ltb_spec (Start nn) (Start fs)); destruct (Z.gtb_spec (End nn) (End fs));
    try lia; try reflexivity.
  f_equal. lia.
Qed.

Lemma inorder_heapify `{Runtime} t : inorder (heapify t) = inorder t.
Proof.
  destruct t as [|l fs r]; [reflexivity|]. unfold heapify.
  destruct (sizeOf l); [destruct (_ >? _)|];
    try (destruct (sizeOf r); [destruct (_ >? _)|]);
    auto using inorder_rotateLeft, inorder_rotateRight.
Qed.

Lemma inorder_randomize `{Runtime} t s : inorder (fst (randomize t s)) = inorder t.
Proof.
  destruct t as [|l fs r]; [reflexivity|]. unfold randomize.
  assert (Hr : forall s', inorder (fst (match sizeOf r with
      | Some rs =>
        if rs =? Size fs then
          let '(v, s'') := fastrandn 10 s' in
          if v <? 5 then (rotateLeft (mkNode l fs r), s'') else (mkNode l fs r, s'')
        else (mkNode l fs r, s')
      | None => (mkNode l fs r, s')
      end)) = inorder (mkNode l fs r)).
  { intros s'. destruct (sizeOf r); [|reflexivity].
    destruct (_ =? _); [|reflexivity].
    destruct (fastrandn 10 s') as [v s'']. destruct (v <? 5); [|reflexivity].
    apply inorder_rotateLeft. }
  destruct (sizeOf l); [|apply Hr].
  destruct (_ =? _); [|apply Hr].
  destruct (fastrandn 10 s) as [v s']. destruct (v <? 5); [|apply Hr].
  apply inorder_rotateRight.
Qed.

(** ** [mergeAndExpand] and [Insert] on the in-order sequence *)

Section InsertSpec.
Context `{rt : Runtime}.
Variables (l r : Node) (fs nn : FreeSpace) (lo hi : Z).
Hypothesis Hsep : sep lo hi (inorder l ++ fs :: inorder r).
Hypothesis Hlo : -1 <= lo.
Hypothesis Hhi : hi <= top.
Hypothesis Hnn : interval nn.
Hypothesis Hapart : Forall (apart nn) (inorder l ++ fs :: inorder r).

Local Lemma Hsplit :
  sep lo (Start fs - 1) (inorder l) /\ Start fs <= End fs /\
  sep (End fs + 1) hi (inorder r).
Proof. apply sep_app. exact Hsep. Qed.

Local Lemma Hfs_int : interval fs.
Proof.
  apply (sep_interval lo hi _ fs Hsep Hlo Hhi). apply elem_of_app. right. left.
Qed.

Local Lemma Hleft e : e ∈ inorder l ->
  interval e /\ End e + 1 < Start fs /\ End e < Start nn \/
  interval e /\ End e + 1 < Start fs /\ End nn < Start e.
Proof.
  intros He. destruct Hsplit as (Hl & _ & _).
  assert (Hi : interval e).
  { apply (sep_interval lo hi _ e Hsep Hlo Hhi). apply elem_of_app. left. exact He. }
  apply sep_Forall in Hl. rewrite Forall_forall in Hl. specialize (Hl e He).
  rewrite Forall_forall in Hapart.
  destruct (Hapart e) as [Ha|Ha].
  { apply elem_of_app. left. exact He. }
  - right. split; [exact Hi|]. lia.
  - left. split; [exact Hi|]. lia.
Qed.

Local Lemma Hright e : e ∈ inorder r ->
  interval e /\ End fs + 1 < Start e.
Proof.
  intros He. destruct Hsplit as (_ & _ & Hr).
  split.
  { apply (sep_interval lo hi _ e Hsep Hlo Hhi). apply elem_of_app. right. right. exact He. }
  apply sep_Forall in Hr. rewrite Forall_forall in Hr. specialize (Hr e He). lia.
Qed.

Lemma absorbPrev_after :
  Start nn = End fs + 1 ->
  absorbPrev (mkNode l fs r) nn = Some (mkNode l (mkFS (Start fs) (End nn)) r).
Proof.
  intros Hab. pose proof Hfs_int as Hf. unfold interval in Hf, Hnn.
  assert (Hm : treap.merge fs nn = mkFS (Start fs) (End nn))
    by (apply merge_after; lia).
  unfold absorbPrev, expandOnly. rewrite maxValueNode_last, Hm.
  destruct (last (inorder l)) as [p|] eqn:E; [|reflexivity].
  apply last_Some_elem_of in E.
  assert (isOverlapping p nn = false) as ->; [|reflexivity].
  destruct (Hleft p E) as [(Hi & H1 & H2)|(Hi & H1 & H2)];
    apply isOverlapping_false; auto; unfold interval in Hi; lia.
Qed.

Lemma absorbPrev_before :
  Start fs = End nn + 1 ->
  exists t', absorbPrev (mkNode l fs r) nn = Some t' /\
    inorder t' = ins nn (inorder l ++ fs :: inorder r).
Proof.
  intros Hab. pose proof Hfs_int as Hf. pose proof Hnn as Hn.
  unfold interval in Hf, Hn.
  destruct Hsplit as (Hl & _ & Hr).
  assert (Hm : treap.merge fs nn = mkFS (Start nn) (End fs))
    by (apply merge_before; lia).
  assert (Hins : ins nn (fs :: inorder r) = mkFS (Start nn) (End fs) :: inorder r).
  { simpl. destruct (Z.ltb_spec (End nn + 1) (Start fs)); [lia|].
    destruct (Z.eqb_spec (End nn + 1) (Start fs)); [reflexivity|lia]. }
  unfold absorbPrev, expandOnly. rewrite maxValueNode_last, Hm.
  destruct (last (inorder l)) as [p|] eqn:E.
  2:{ apply last_None in E. rewrite E. eexists; split; [reflexivity|].
      simpl inorder. rewrite E. simpl app. rewrite Hins. reflexivity. }
  pose proof E as Ein. apply last_Some_elem_of in Ein.
  apply last_Some in E as [Ll' E].
  assert (Hbefore : forall e, e ∈ inorder l -> interval e /\ End e < Start nn).
  { intros e He. destruct (Hleft e He) as [(Hi & H1 & H2)|(Hi & H1 & H2)]; [auto|].
    unfold interval in Hi. lia. }
  assert (HLl' : Forall (fun e => Start e <= End e /\ End e + 1 < Start nn) Ll').
  { rewrite E in Hl. apply sep_app in Hl as (Hl1 & Hl2 & Hl3).
    apply sep_Forall in Hl1. eapply Forall_impl; [exact Hl1|].
    simpl. intros e He. destruct (Hbefore p Ein) as [Hp1 Hp2]. lia. }
  destruct (Hbefore p Ein) as [Hpi Hp].
  destruct (isOverlapping p nn) eqn:O.
  - apply isOverlapping_true in O; auto.
    assert (Hpn : Start nn = End p + 1) by (unfold interval in Hpi; lia).
    assert (Hmp : treap.merge fs p = mkFS (Start p) (End fs)).
    { apply merge_before; unfold interval in Hpi; lia. }
    assert (Hres : ins nn (inorder l ++ fs :: inorder r) =
                   Ll' ++ mkFS (Start p) (End fs) :: inorder r).
    { rewrite E, <- app_assoc. rewrite ins_skip by (auto; lia).
      f_equal. simpl. unfold interval in Hpi.
      destruct (Z.ltb_spec (End nn + 1) (Start p)); [lia|].
      destruct (Z.eqb_spec (End nn + 1) (Start p)); [lia|].
      destruct (Z.eqb_spec (End p + 1) (Start nn)); [|lia].
      destruct (Z.eqb_spec (End nn + 1) (Start fs)); [reflexivity|lia]. }
    rewrite Hres, Hmp.
    destruct l as [|ll lfs lr]; [simpl in E; destruct Ll'; discriminate|].
    destruct lr as [|lrl lrfs lrr].
    + assert (p = lfs) as ->.
      { simpl in E. apply app_inj_tail in E. symmetry. tauto. }
      destruct (greater_lt fs lfs) as [G _].
      { unfold interval in Hpi. lia. }
      rewrite G.
      destruct (Remove_left (mkNode ll lfs Nil) fs r lo (Start fs - 1) lfs G Hl)
        as (l' & dn & R & I).
      rewrite R. simpl. eexists; split; [reflexivity|].
      simpl. rewrite I. f_equal.
      rewrite E. apply (filter_ne_last _ _ lo (Start fs - 1)).
      rewrite <- E. exact Hl.
    + destruct (removeRightmost_spec _ lo (Start fs - 1) _ _ _ _ _ eq_refl Hl)
        as (l' & R & I).
      rewrite R. simpl. eexists; split; [reflexivity|].
      simpl. rewrite I, E, removelast_snoc. reflexivity.
  - apply isOverlapping_false in O; auto.
    eexists; split; [reflexivity|].
    simpl inorder. rewrite ins_skip, Hins; [reflexivity|lia|].
    rewrite E. apply Forall_app. split; [exact HLl'|].
    constructor; [|constructor]. unfold interval in Hpi. lia.
Qed.

Lemma mergeAndExpand_spec :
  isOverlapping fs nn = true ->
  exists t', mergeAndExpand (mkNode l fs r) nn = Some t' /\
    inorder t' = ins nn (inorder l ++ fs :: inorder r).
Proof.
  intros O. pose proof Hfs_int as Hf. pose proof Hnn as Hn.
  apply isOverlapping_true in O; auto.
  unfold interval in Hf, Hn.
  destruct Hsplit as (Hl & _ & Hr).
  unfold mergeAndExpand. rewrite minValueNode_head.
  destruct O as [O|O].
  { (* nn lies just before fs *)
    assert (Hno : forall n, head (inorder r) = Some n -> isOverlapping n nn = false).
    { intros n Hh. apply head_Some_elem_of in Hh.
      destruct (Hright n Hh) as [Hi Hlt].
      apply isOverlapping_false; auto. unfold interval in Hi. lia. }
    destruct (head (inorder r)) as [n|] eqn:Hh.
    - rewrite (Hno n eq_refl). apply absorbPrev_before. exact O.
    - apply absorbPrev_before. exact O. }
  (* nn lies just after fs *)
  assert (Hskip : ins nn (inorder l ++ fs :: inorder r) =
                  inorder l ++ ins nn (fs :: inorder r)).
  { apply ins_skip; [lia|]. apply sep_Forall in Hl.
    eapply Forall_impl; [exact Hl|]. simpl. intros; lia. }
  rewrite Hskip.
  assert (Hcond : forall rest, ins nn (fs :: rest) =
     match rest with
     | g :: l'' => if End nn + 1 =? Start g then mkFS (Start fs) (End g) :: l''
                   else mkFS (Start fs) (End nn) :: rest
     | [] => [mkFS (Start fs) (End nn)]
     end).
  { intros rest. simpl.
    destruct (Z.ltb_spec (End nn + 1) (Start fs)); [lia|].
    destruct (Z.eqb_spec (End nn + 1) (Start fs)); [lia|].
    destruct (Z.eqb_spec (End fs + 1) (Start nn)); [reflexivity|lia]. }
  rewrite Hcond.
  pose proof (absorbPrev_after O) as HA.
  pose proof Hright as HR.
  clear Hcond Hskip.
  destruct (inorder r) as [|n Lr'] eqn:ELr; cbn [hd_error].
  { rewrite HA. eexists; split; [reflexivity|].
    simpl. rewrite ELr. reflexivity. }
  assert (Hn_in : n ∈ n :: Lr') by left.
  destruct (HR n Hn_in) as [Hni Hnlt]. unfold interval in Hni.
  destruct (isOverlapping n nn) eqn:On.
  - apply isOverlapping_true in On; auto.
    assert (On' : Start n = End nn + 1) by lia.
    destruct (Z.eqb_spec (End nn + 1) (Start n)); [|lia].
    assert (Hmn : treap.merge fs n = mkFS (Start fs) (End n))
      by (apply merge_after; lia).
    rewrite Hmn. rewrite <- ELr in Hr.
    destruct r as [|rl rfs rr]; [discriminate|].
    destruct rl as [|rll rlfs rlr].
    + assert (n = rfs) as -> by (simpl in ELr; congruence).
      destruct (greater_lt rfs fs) as [Ga Gb]; [lia|].
      rewrite Gb, Ga. simpl negb. simpl andb.
      destruct (Remove_right l fs (mkNode Nil rfs rr) (End fs + 1) hi rfs Gb Ga Hr)
        as (r' & dn & R & I).
      rewrite R. simpl. eexists; split; [reflexivity|].
      simpl. rewrite I. f_equal. f_equal.
      rewrite ELr. apply (filter_ne_head _ _ (End fs + 1) hi).
      rewrite <- ELr. exact Hr.
    + destruct (removeLeftmost_spec _ (End fs + 1) hi _ _ _ _ _ eq_refl Hr)
        as (r' & R & I).
      rewrite R. simpl. eexists; split; [reflexivity|].
      simpl. rewrite I, ELr. reflexivity.
  - apply isOverlapping_false in On; auto.
    destruct (Z.eqb_spec (End nn + 1) (Start n)); [lia|].
    rewrite HA. eexists; split; [reflexivity|].
    simpl. rewrite ELr. reflexivity.
Qed.

End InsertSpec.

Lemma greater_false_cases a b :
  greater a b = false ->
  Start a < Start b \/ (Start a = Start b /\ End a <= End b).
Proof.
  unfold greater. destruct (Z.eqb_spec (Start a) (Start b));
    rewrite Z.gtb_ltb; intros H%Z.ltb_ge; lia.
Qed.

Lemma Insert_finish `{Runtime} root1 s1 (L : list FreeSpace) :
  inorder root1 = L ->
  exists t' s', Some (randomize (heapify root1) s1) = Some (t', s') /\ inorder t' = L.
Proof.
  intros E. destruct (randomize (heapify root1) s1) as [t' s'] eqn:R.
  exists t', s'. split; [reflexivity|].
  change t' with (fst (t', s')). rewrite <- R.
  rewrite inorder_randomize, inorder_heapify. exact E.
Qed.

(** [Insert] on a well-formed tree returns, and its effect on the in-order
    sequence is the coalescing insertion [ins]. *)
Lemma Insert_spec `{Runtime} t : forall lo hi nn s,
  sep lo hi (inorder t) -> -1 <= lo -> hi <= top ->
  interval nn -> lo < Start nn -> End nn < hi ->
  Forall (apart nn) (inorder t) ->
  exists t' s', Insert t nn s = Some (t', s') /\ inorder t' = ins nn (inorder t).
Proof.
  induction t as [|l IHl fs r IHr]; intros lo hi nn s Hsep Hlo Hhi Hnn Hlo' Hhi' Hap.
  - simpl. eauto.
  - cbn [Insert].
    assert (Hfs : interval fs).
    { apply (sep_interval lo hi _ fs Hsep Hlo Hhi). apply elem_of_app. right. left. }
    pose proof Hsep as Hsep'. simpl in Hsep'. apply sep_app in Hsep' as (Hl & Hfs' & Hr).
    assert (Hapfs : apart nn fs).
    { rewrite Forall_forall in Hap. apply Hap. simpl. apply elem_of_app. right. left. }
    simpl in Hap. apply Forall_app in Hap as Hap'. destruct Hap' as [Hapl Hapr].
    apply Forall_cons in Hapr as [_ Hapr].
    unfold interval in Hfs, Hnn. unfold apart in Hapfs.
    destruct (isOverlapping fs nn) eqn:O.
    + destruct (mergeAndExpand_spec l r fs nn lo hi Hsep Hlo Hhi Hnn Hap O)
        as (t1 & E & I).
      rewrite E. cbn [mbind option_bind]. apply Insert_finish. exact I.
    + apply isOverlapping_false in O; auto.
      destruct (greater fs nn) eqn:G.
      * apply greater_true_cases in G.
        assert (End nn + 1 < Start fs) by lia.
        destruct (IHl lo (Start fs - 1) nn s) as (l' & s' & E & I); auto; try lia.
        rewrite E. cbn [mbind option_bind]. apply Insert_finish.
        simpl. rewrite I. symmetry. apply ins_before. assumption.
      * apply greater_false_cases in G.
        assert (End fs + 1 < Start nn) by lia.
        destruct (IHr (End fs + 1) hi nn s) as (r' & s' & E & I); auto; try lia.
        rewrite E. cbn [mbind option_bind]. apply Insert_finish.
        simpl. rewrite I.
        change (inorder l ++ fs :: inorder r) with (inorder l ++ [fs] ++ inorder r).
        rewrite app_assoc, ins_skip; [rewrite <- app_assoc; reflexivity|lia|].
        apply Forall_app. split.
        -- apply sep_Forall in Hl. eapply Forall_impl; [exact Hl|]. simpl. intros; lia.
        -- constructor; [lia|constructor].
Qed.

(** Properties of the coalescing insertion. *)
Lemma ins_sep nn : forall l lo hi,
  sep lo hi l -> Start nn <= End nn -> lo < Start nn -> End nn < hi ->
  Forall (apart nn) l ->
  sep lo hi (ins nn l).
Proof.
  induction l as [|f l IH]; intros lo hi Hs Hnn Hlo Hhi Hap.
  - simpl. repeat split; lia.
  - apply Forall_cons in Hap as [Hf Hap]. unfold apart in Hf.
    destruct Hs as (H1 & H2 & H3). simpl.
    destruct (Z.ltb_spec (End nn + 1) (Start f)).
    { simpl. repeat split; try lia. exact H3. }
    destruct (Z.eqb_spec (End nn + 1) (Start f)).
    { simpl. repeat split; try lia. exact H3. }
    destruct (Z.eqb_spec (End f + 1) (Start nn)).
    { destruct l as [|g l].
      - simpl. simpl in H3. repeat split; lia.
      - apply Forall_cons in Hap as [Hg Hap]. unfold apart in Hg.
        destruct H3 as (H4 & H5 & H6).
        destruct (Z.eqb_spec (End nn + 1) (Start g)).
        + simpl. repeat split; try lia. exact H6.
        + simpl. repeat split; try lia. exact H6. }
    simpl. repeat split; try lia.
    apply IH; auto; lia.
Qed.

Lemma sumSizes_app l1 l2 : sumSizes (l1 ++ l2) = sumSizes l1 + sumSizes l2.
Proof.
  induction l1 as [|f l1 IH]; simpl; [reflexivity|].
  unfold sumSizes in *. simpl. rewrite IH. lia.
Qed.

Lemma Size_mk a b : 0 <= a -> a <= b -> b < top -> Size (mkFS a b) = b - a + 1.
Proof. intros. apply Size_interval; simpl; lia. Qed.

Lemma ins_sumSizes nn : forall l lo hi,
  sep lo hi l -> -1 <= lo -> hi <= top -> interval nn ->
  Forall (apart nn) l ->
  sumSizes (ins nn l) = sumSizes l + Size nn.
Proof.
  induction l as [|f l IH]; intros lo hi Hs Hlo Hhi Hnn Hap.
  - unfold sumSizes. simpl. lia.
  - apply Forall_cons in Hap as [Hf Hap]. unfold apart in Hf.
    assert (Hfi : interval f) by (eapply sep_interval; eauto; left).
    destruct Hs as (H1 & H2 & H3). pose proof (sep_le _ _ _ H3) as Hle.
    unfold interval in Hnn, Hfi.
    rewrite (Size_interval nn) by lia.
    simpl ins.
    destruct (Z.ltb_spec (End nn + 1) (Start f)).
    { unfold sumSizes. simpl. rewrite (Size_interval nn) by lia. lia. }
    destruct (Z.eqb_spec (End nn + 1) (Start f)).
    { unfold sumSizes. simpl. rewrite Size_mk, (Size_interval f) by lia. lia. }
    destruct (Z.eqb_spec (End f + 1) (Start nn)).
    { destruct l as [|g l].
      - unfold sumSizes. simpl. rewrite Size_mk, (Size_interval f) by lia. lia.
      - apply Forall_cons in Hap as [Hg Hap]. unfold apart in Hg.
        destruct H3 as (H4 & H5 & H6). pose proof (sep_le _ _ _ H6) as Hle6.
        destruct (Z.eqb_spec (End nn + 1) (Start g)).
        + unfold sumSizes. simpl.
          rewrite Size_mk, (Size_interval f), (Size_interval g) by lia. lia.
        + unfold sumSizes. simpl.
          rewrite Size_mk, (Size_interval f) by lia. lia. }
    unfold sumSizes in *. simpl.
    erewrite IH; eauto; try lia.
    rewrite (Size_interval nn) by lia. lia.
Qed.


(** ** Selection and extraction *)

Lemma lookup_inorder_root l fs r :
  inorder (mkNode l fs r) !! CountNodes l = Some fs.
Proof.
  simpl. rewrite lookup_app_r by (rewrite length_inorder; lia).
  rewrite length_inorder, Nat.sub_diag. reflexivity.
Qed.

Lemma crawlDown_spec `{Runtime} crawl : forall hi size base i,
  crawlDown crawl hi size base = Some i ->
  exists f, (base <= i)%nat /\ inorder crawl !! (i - base)%nat = Some f /\
    (forall rs, sizeOf crawl = Some rs -> size <= rs -> size <= Size f).
Proof.
  induction crawl as [|cl IHl fs cr IHr]; intros hi size base i Hc; [discriminate|].
  assert (Hhere : forall j, Some (base + CountNodes cl)%nat = Some j ->
    exists f, (base <= j)%nat /\ inorder (mkNode cl fs cr) !! (j - base)%nat = Some f /\
      (forall rs, sizeOf (mkNode cl fs cr) = Some rs -> size <= rs -> size <= Size f)).
  { intros j [= <-]. exists fs. split; [lia|]. split.
    - replace (base + CountNodes cl - base)%nat with (CountNodes cl) by lia.
      apply lookup_inorder_root.
    - simpl. intros rs [= <-]. auto. }
  assert (Hleft : forall j, crawlDown cl (Some fs) size base = Some j ->
    (forall ls, sizeOf cl = Some ls -> size <= ls) ->
    exists f, (base <= j)%nat /\ inorder (mkNode cl fs cr) !! (j - base)%nat = Some f /\
      (forall rs, sizeOf (mkNode cl fs cr) = Some rs -> size <= rs -> size <= Size f)).
  { intros j Hj Hel. destruct (IHl _ _ _ _ Hj) as (f & H1 & H2 & H3).
    exists f. split; [exact H1|]. split.
    - simpl. apply lookup_app_l_Some. exact H2.
    - intros rs _ _. destruct (sizeOf cl) as [ls|] eqn:E.
      + apply (H3 ls eq_refl). apply Hel. reflexivity.
      + destruct cl; [simpl in Hj; discriminate|simpl in E; discriminate]. }
  assert (Hright : forall j, crawlDown cr hi size (S (base + CountNodes cl)) = Some j ->
    (forall rs, sizeOf cr = Some rs -> size <= rs) ->
    exists f, (base <= j)%nat /\ inorder (mkNode cl fs cr) !! (j - base)%nat = Some f /\
      (forall rs, sizeOf (mkNode cl fs cr) = Some rs -> size <= rs -> size <= Size f)).
  { intros j Hj Hel. destruct (IHr _ _ _ _ Hj) as (f & H1 & H2 & H3).
    exists f. split; [lia|]. split.
    - simpl. rewrite lookup_app_r by (rewrite length_inorder; lia).
      rewrite length_inorder.
      replace (j - base - CountNodes cl)%nat with (S (j - S (base + CountNodes cl))) by lia.
      simpl. exact H2.
    - intros rs _ _. destruct (sizeOf cr) as [rs'|] eqn:E.
      + apply (H3 rs' eq_refl). apply Hel. reflexivity.
      + destruct cr; [simpl in Hj; discriminate|simpl in E; discriminate]. }
  cbn [crawlDown] in Hc.
  destruct cl as [|cll clfs clr]; destruct cr as [|crl crfs crr]; cbn [sizeOf] in Hc.
  - apply Hhere. exact Hc.
  - destruct (Z.geb_spec (Size crfs) size).
    + destruct (max3 _ _ _); [apply Hhere; exact Hc|discriminate|].
      apply Hright; [exact Hc|]. simpl. intros rs [= <-]. lia.
    + apply Hhere. exact Hc.
  - destruct (Z.geb_spec (Size clfs) size).
    + destruct (max3 _ _ _); [apply Hhere; exact Hc| |discriminate].
      apply Hleft; [exact Hc|]. simpl. intros rs [= <-]. lia.
    + apply Hhere. exact Hc.
  - destruct (Z.geb_spec (Size clfs) size); destruct (Z.geb_spec (Size crfs) size).
    + destruct (max3 _ _ _); [apply Hhere; exact Hc| |].
      * apply Hleft; [exact Hc|]. simpl. intros rs [= <-]. lia.
      * apply Hright; [exact Hc|]. simpl. intros rs [= <-]. lia.
    + destruct (max3 _ _ _); [apply Hhere; exact Hc| |discriminate].
      apply Hleft; [exact Hc|]. simpl. intros rs [= <-]. lia.
    + destruct (max3 _ _ _); [apply Hhere; exact Hc|discriminate|].
      apply Hright; [exact Hc|]. simpl. intros rs [= <-]. lia.
    + apply Hhere. exact Hc.
Qed.

(** [GreatestGravityNode] returns a node of the tree; when the root
    satisfies [size], so does the node returned. *)
Lemma GreatestGravityNode_spec `{Runtime} root size :
  root <> Nil ->
  exists i f, GreatestGravityNode root size = Some i /\
    inorder root !! i = Some f /\
    (forall rs, sizeOf root = Some rs -> size <= rs -> size <= Size f).
Proof.
  intros Hn. destruct root as [|l fs r]; [congruence|].
  unfold GreatestGravityNode.
  destruct (crawlDown (mkNode l fs r) None size 0) as [i|] eqn:E.
  - destruct (crawlDown_spec _ _ _ _ _ E) as (f & H1 & H2 & H3).
    rewrite Nat.sub_0_r in H2. eauto.
  - exists (CountNodes l), fs. split; [reflexivity|]. split.
    + apply lookup_inorder_root.
    + simpl. intros rs [= <-]. auto.
Qed.

Lemma Size_nonneg fs : 0 <= Size fs.
Proof.
  unfold Size. destruct (_ >? _); [lia|]. apply wrap64_range.
Qed.

Lemma sumSizes_nonneg l : 0 <= sumSizes l.
Proof.
  induction l as [|f l IH]; unfold sumSizes in *; simpl; [lia|].
  pose proof (Size_nonneg f). lia.
Qed.

Lemma sumSizes_cons f l : sumSizes (f :: l) = Size f + sumSizes l.
Proof. reflexivity. Qed.

Lemma sumSizes_bound : forall l lo hi,
  sep lo hi l -> -1 <= lo -> hi <= top -> sumSizes l <= hi - lo.
Proof.
  induction l as [|f l IH]; intros lo hi Hs Hlo Hhi.
  - simpl in Hs. unfold sumSizes. simpl. lia.
  - destruct Hs as (H1 & H2 & H3). pose proof (sep_le _ _ _ H3).
    rewrite sumSizes_cons, Size_interval by lia.
    specialize (IH _ _ H3). lia.
Qed.

Lemma sumSizes_lt_two64 l lo hi :
  sep lo hi l -> -1 <= lo -> hi <= top -> sumSizes l < 2 ^ 64.
Proof.
  intros Hs Hlo Hhi. destruct l as [|f l].
  - unfold sumSizes. simpl. lia.
  - destruct Hs as (H1 & H2 & H3). pose proof (sep_le _ _ _ H3).
    rewrite sumSizes_cons, Size_interval by lia.
    pose proof (sumSizes_bound _ _ _ H3). rewrite top_eq in *. rewrite two64_eq. lia.
Qed.

Lemma takePrev_spec size : forall pc ts fss,
  ts = sumSizes fss ->
  sumSizes (rev pc ++ fss) < 2 ^ 64 ->
  size <= sumSizes (rev pc ++ fss) ->
  exists pc1 pc2, pc = pc1 ++ pc2 /\
    takePrev size pc ts fss =
      Some (rev pc1 ++ fss, sumSizes (rev pc1 ++ fss)) /\
    size <= sumSizes (rev pc1 ++ fss) /\
    (size <= ts -> pc1 = []).
Proof.
  induction pc as [|p pc IH]; intros ts fss Hts Hb Hsz.
  - simpl in *. exists [], []. subst ts.
    destruct (Z.ltb_spec (sumSizes fss) size); [lia|].
    repeat split; auto.
  - cbn [takePrev]. destruct (Z.ltb_spec ts size).
    + simpl rev in Hb, Hsz. rewrite <- app_assoc in Hb, Hsz. simpl app in Hb, Hsz.
      assert (Hw : wrap64 (ts + Size p) = sumSizes (p :: fss)).
      { rewrite sumSizes_cons, Hts, (Z.add_comm (Size p)). apply wrap64_small.
        rewrite sumSizes_app, sumSizes_cons in Hb.
        pose proof (sumSizes_nonneg (rev pc)). pose proof (sumSizes_nonneg fss).
        pose proof (Size_nonneg p). lia. }
      destruct (IH _ (p :: fss) Hw Hb Hsz) as (pc1 & pc2 & E & R & S & _).
      exists (p :: pc1), pc2. subst pc. split; [reflexivity|].
      simpl rev. rewrite <- app_assoc. simpl app.
      split; [exact R|]. split; [exact S|]. lia.
    + exists [], (p :: pc). subst ts. simpl. repeat split; auto.
Qed.

Lemma takeNext_spec size : forall nc pc ts fss,
  ts = sumSizes fss ->
  sumSizes (rev pc ++ fss ++ nc) < 2 ^ 64 ->
  size <= sumSizes (rev pc ++ fss ++ nc) ->
  exists nc1 nc2 pc1 pc2, nc = nc1 ++ nc2 /\ pc = pc1 ++ pc2 /\
    takeNext size nc pc ts fss =
      Some (rev pc1 ++ fss ++ nc1, sumSizes (rev pc1 ++ fss ++ nc1)) /\
    size <= sumSizes (rev pc1 ++ fss ++ nc1) /\
    (size <= ts -> pc1 = [] /\ nc1 = []).
Proof.
  induction nc as [|n nc IH]; intros pc ts fss Hts Hb Hsz.
  - rewrite app_nil_r in Hb, Hsz.
    destruct (takePrev_spec size pc ts fss Hts Hb Hsz) as (pc1 & pc2 & E & R & S & Z0).
    exists [], [], pc1, pc2. split; [reflexivity|]. split; [exact E|].
    rewrite !app_nil_r.
    cbn [takeNext]. destruct (Z.ltb_spec ts size).
    + split; [exact R|]. split; [exact S|]. lia.
    + rewrite (Z0 H) in *. simpl. subst ts. repeat split; auto.
  - cbn [takeNext]. destruct (Z.ltb_spec ts size).
    + assert (Hw : wrap64 (ts + Size n) = sumSizes (fss ++ [n])).
      { assert (E1 : sumSizes [n] = Size n) by (unfold sumSizes; simpl; lia).
        rewrite sumSizes_app, Hts, E1. apply wrap64_small.
        rewrite !sumSizes_app, sumSizes_cons in Hb.
        pose proof (sumSizes_nonneg (rev pc)). pose proof (sumSizes_nonneg fss).
        pose proof (sumSizes_nonneg nc).
        pose proof (Size_nonneg n). lia. }
      assert (Hre : forall X Y : list FreeSpace,
                rev X ++ (fss ++ [n]) ++ Y = rev X ++ fss ++ n :: Y).
      { intros X Y. rewrite <- (app_assoc fss). reflexivity. }
      rewrite <- Hre in Hb, Hsz.
      destruct (IH pc _ (fss ++ [n]) Hw Hb Hsz)
        as (nc1 & nc2 & pc1 & pc2 & E1 & E2 & R & S & _).
      exists (n :: nc1), nc2, pc1, pc2. subst nc pc.
      split; [reflexivity|]. split; [reflexivity|].
      rewrite <- Hre. split; [exact R|]. split; [exact S|]. lia.
    + exists [], (n :: nc), [], pc. subst ts. simpl. rewrite app_nil_r.
      repeat split; auto.
Qed.

Lemma removeAll_spec lo hi : forall fss A B t,
  sep lo hi (inorder t) -> inorder t = A ++ fss ++ B ->
  exists nr, removeAll t fss = Some nr /\ inorder nr = A ++ B.
Proof.
  induction fss as [|f fss IH]; intros A B t Hs E.
  - simpl. eauto.
  - simpl app in E.
    destruct (Remove_mid t lo hi A f (fss ++ B) Hs E) as (t' & dn & R & I).
    cbn [removeAll]. rewrite R. cbn [mbind option_bind].
    apply IH; [|exact I].
    rewrite I. rewrite E in Hs. eapply sep_drop_mid; eauto.
Qed.

(** [GetFittingNeighbours] on a well-formed tree: the bundle is a run of
    consecutive intervals of the in-order sequence that contains the node,
    its total is the exact sum of its sizes, and the new tree holds exactly
    the other intervals. *)
Lemma GetFittingNeighbours_spec root lo hi i nfs size :
  sep lo hi (inorder root) -> -1 <= lo -> hi <= top ->
  inorder root !! i = Some nfs ->
  size <= sumSizes (inorder root) ->
  exists A fss B nr,
    inorder root = A ++ fss ++ B /\
    GetFittingNeighbours root i size = Some (fss, nr, sumSizes fss) /\
    inorder nr = A ++ B /\
    size <= sumSizes fss /\ nfs ∈ fss /\
    (size <= Size nfs -> fss = [nfs]).
Proof.
  intros Hs Hlo Hhi Hi Hsz. unfold GetFittingNeighbours.
  rewrite Hi. cbn [mbind option_bind].
  pose proof (take_drop_middle _ _ _ Hi) as HL.
  set (L := inorder root) in *.
  assert (Hts : Size nfs = sumSizes [nfs]).
  { unfold sumSizes. simpl. lia. }
  assert (HL' : rev (rev (take i L)) ++ [nfs] ++ drop (S i) L = L).
  { rewrite rev_involutive. exact HL. }
  pose proof (sumSizes_lt_two64 _ _ _ Hs Hlo Hhi) as Hb.
  rewrite <- HL' in Hb, Hsz.
  destruct (takeNext_spec size _ _ _ _ Hts Hb Hsz)
    as (nc1 & nc2 & pc1 & pc2 & E1 & E2 & R & S & Z0).
  rewrite R. cbn [mbind option_bind].
  assert (HLs : L = rev pc2 ++ (rev pc1 ++ [nfs] ++ nc1) ++ nc2).
  { rewrite <- HL', E1, E2, rev_app_distr. rewrite <- !app_assoc. reflexivity. }
  destruct (removeAll_spec lo hi _ _ _ root Hs HLs) as (nr & Rm & I).
  rewrite Rm. cbn [mbind option_bind].
  exists (rev pc2), (rev pc1 ++ [nfs] ++ nc1), nc2, nr.
  split; [exact HLs|]. split; [reflexivity|]. split; [exact I|].
  split; [exact S|]. split.
  - apply elem_of_app. right. left.
  - intros Hle. destruct (Z0 Hle) as [-> ->]. reflexivity.
Qed.
Import treap.
Import gravity.

(** ** Bytes, slices and the key map *)

Lemma Z_of_byte_of_Z z : Z_of_byte (byte_of_Z z) = z mod 256.
Proof.
  unfold Z_of_byte, byte_of_Z.
  assert (Hr : 0 <= z mod 256 < 256) by (apply Z.mod_pos_bound; lia).
  destruct (Byte.of_N (Z.to_N (z mod 256))) as [b|] eqn:E.
  - apply Byte.to_of_N in E. rewrite E. rewrite Z2N.id; lia.
  - apply Byte.of_N_None_iff in E. lia.
Qed.

Lemma Z_of_byte_range b : 0 <= Z_of_byte b < 256.
Proof.
  unfold Z_of_byte. pose proof (Byte.to_N_bounded b). lia.
Qed.

Lemma length_le_encode n v : length (le_encode n v) = n.
Proof. revert v. induction n; intros v; simpl; auto. Qed.

Lemma lor_shift8 a b :
  0 <= a < 256 -> Z.lor a (Z.shiftl b 8) = a + b * 256.
Proof.
  intros Ha. rewrite Z.shiftl_mul_pow2 by lia. change (2 ^ 8) with 256.
  rewrite <- Z.add_nocarry_lor; [reflexivity|].
  apply Z.bits_inj'. intros i Hi. rewrite Z.land_spec, Z.bits_0.
  destruct (Z.lt_ge_cases i 8).
  - change 256 with (2 ^ 8). rewrite Z.mul_pow2_bits_low by lia.
    apply andb_false_r.
  - replace (Z.testbit a i) with false; [reflexivity|].
    symmetry. destruct (Z.eq_dec a 0) as [->|]; [apply Z.bits_0|].
    apply Z.bits_above_log2; [lia|].
    apply Z.lt_le_trans with 8; [|lia].
    apply Z.log2_lt_pow2; [lia|]. change (2 ^ 8) with 256. lia.
Qed.

Lemma le_decode_range b : 0 <= le_decode b < 2 ^ (8 * Z.of_nat (length b)).
Proof.
  induction b as [|x b IH].
  - simpl. lia.
  - cbn [le_decode length]. pose proof (Z_of_byte_range x) as Hx.
    replace (8 * Z.of_nat (S (length b))) with (8 + 8 * Z.of_nat (length b)) by lia.
    rewrite Z.pow_add_r by lia.
    rewrite lor_shift8 by exact Hx. change (2 ^ 8) with 256. nia.
Qed.

Lemma le_decode_encode n : forall v,
  le_decode (le_encode n v) = v mod 2 ^ (8 * Z.of_nat n).
Proof.
  induction n as [|n IH]; intros v.
  - simpl. rewrite Z.mod_1_r. reflexivity.
  - cbn [le_encode le_decode]. rewrite IH, Z_of_byte_of_Z.
    rewrite lor_shift8 by (apply Z.mod_pos_bound; lia).
    rewrite Z.shiftr_div_pow2 by lia. change (2 ^ 8) with 256.
    replace (8 * Z.of_nat (S n)) with (8 + 8 * Z.of_nat n) by lia.
    rewrite Z.pow_add_r by lia. change (2 ^ 8) with 256.
    set (m := 2 ^ (8 * Z.of_nat n)).
    assert (Hm : 0 < m) by (apply Z.pow_pos_nonneg; lia).
    rewrite Z.rem_mul_r by lia.
    lia.
Qed.

Lemma length_PutUint64 v : length (PutUint64 v) = 8%nat.
Proof. apply length_le_encode. Qed.

Lemma Uint64_PutUint64 v : 0 <= v < 2 ^ 64 -> Uint64 (PutUint64 v) = v.
Proof.
  intros H. unfold Uint64, PutUint64.
  rewrite take_ge by (rewrite length_le_encode; lia).
  rewrite le_decode_encode. apply Z.mod_small. exact H.
Qed.

Lemma Uint64_range b : 0 <= Uint64 b < 2 ^ 64.
Proof.
  unfold Uint64. pose proof (le_decode_range (take 8 b)) as H.
  assert (Hl : (length (take 8 b) <= 8)%nat) by (rewrite length_take; lia).
  split; [lia|]. eapply Z.lt_le_trans; [apply H|].
  apply Z.pow_le_mono_r; lia.
Qed.

Lemma Uint64_app b rest : length b = 8%nat -> Uint64 (b ++ rest) = Uint64 b.
Proof.
  intros H. unfold Uint64. rewrite take_app_le by lia. reflexivity.
Qed.

Lemma load_loadAndDelete v k :
  load v k = fst (loadAndDelete v k).
Proof.
  unfold load, loadAndDelete.
  destruct (v !! bucketIdx k) as [silo|]; [|reflexivity].
  destruct (silo !! k); reflexivity.
Qed.

Lemma load_after_delete_same v k :
  load (snd (loadAndDelete v k)) k = (0, false).
Proof.
  unfold load, loadAndDelete.
  destruct (v !! bucketIdx k) as [silo|] eqn:E; [|simpl; rewrite E; reflexivity].
  destruct (silo !! k) eqn:E2; simpl.
  - rewrite lookup_insert_eq, lookup_delete_eq. reflexivity.
  - rewrite E, E2. reflexivity.
Qed.

Lemma load_after_delete_other v k k' :
  k' <> k -> load (snd (loadAndDelete v k)) k' = load v k'.
Proof.
  intros Hne. unfold load, loadAndDelete.
  destruct (v !! bucketIdx k) as [silo|] eqn:E; [|reflexivity].
  destruct (silo !! k) eqn:E2; [|reflexivity]. simpl.
  destruct (Z.eq_dec (bucketIdx k') (bucketIdx k)) as [Eb|Eb].
  - rewrite Eb, lookup_insert_eq, E, lookup_delete_ne by congruence. reflexivity.
  - rewrite lookup_insert_ne by congruence. reflexivity.
Qed.

Lemma load_store_same v k p :
  is_Some (v !! bucketIdx k) -> load (store v k p) k = (p, true).
Proof.
  intros [silo E]. unfold load, store. rewrite E.
  rewrite lookup_insert_eq, lookup_insert_eq. reflexivity.
Qed.

Lemma load_store_other v k p k' :
  k' <> k -> load (store v k p) k' = load v k'.
Proof.
  intros Hne. unfold load, store.
  destruct (v !! bucketIdx k) as [silo|] eqn:E; [|reflexivity].
  destruct (Z.eq_dec (bucketIdx k') (bucketIdx k)) as [Eb|Eb].
  - rewrite Eb, lookup_insert_eq, E, lookup_insert_ne by congruence. reflexivity.
  - rewrite lookup_insert_ne by congruence. reflexivity.
Qed.

Lemma store_keeps_buckets v k p i :
  is_Some (v !! i) -> is_Some (store v k p !! i).
Proof.
  intros Hi. unfold store.
  destruct (v !! bucketIdx k) as [silo|] eqn:E; [|exact Hi].
  destruct (Z.eq_dec i (bucketIdx k)) as [->|Hne].
  - rewrite lookup_insert_eq. eauto.
  - rewrite lookup_insert_ne by congruence. exact Hi.
Qed.

Lemma delete_keeps_buckets v k i :
  is_Some (v !! i) -> is_Some (snd (loadAndDelete v k) !! i).
Proof.
  intros Hi. unfold loadAndDelete.
  destruct (v !! bucketIdx k) as [silo|] eqn:E; [|exact Hi].
  destruct (silo !! k); [|exact Hi]. simpl.
  destruct (Z.eq_dec i (bucketIdx k)) as [->|Hne].
  - rewrite lookup_insert_eq. eauto.
  - rewrite lookup_insert_ne by congruence. exact Hi.
Qed.

Lemma bucketIdx_range k : 0 <= k -> 0 <= bucketIdx k < maxBucket.
Proof.
  intros Hk. unfold bucketIdx, maxBucket. change (32 - 1) with (Z.ones 5).
  rewrite Z.land_ones by lia. apply Z.mod_pos_bound. lia.
Qed.

Lemma newShardedStore_buckets i :
  0 <= i < maxBucket -> is_Some (newShardedStore !! i).
Proof.
  intros Hi. unfold maxBucket in Hi.
  assert (Hc : forall j : nat, (j < 32)%nat -> is_Some (newShardedStore !! Z.of_nat j)).
  { intros j Hj. do 32 (destruct j as [|j]; [vm_compute; eauto|]). lia. }
  specialize (Hc (Z.to_nat i) ltac:(lia)). rewrite Z2Nat.id in Hc by lia. exact Hc.
Qed.

Lemma load_newShardedStore k : load newShardedStore k = (0, false).
Proof.
  unfold load. destruct (newShardedStore !! bucketIdx k) as [silo|] eqn:E; [|reflexivity].
  assert (silo = ∅) as ->; [|reflexivity].
  revert E. unfold newShardedStore. generalize (seq 0 (Z.to_nat maxBucket)).
  induction l as [|j l IH]; simpl.
  - rewrite lookup_empty. discriminate.
  - destruct (Z.eq_dec (Z.of_nat j) (bucketIdx k)) as [->|Hne].
    + rewrite lookup_insert_eq. congruence.
    + rewrite lookup_insert_ne by congruence. exact IH.
Qed.
Import treap.
Import gravity.

(** ** Properties of the treap and of the free-space manager *)


Lemma covers_apart (l : list FreeSpace) nn f :
  (forall x, covers [f] x -> covers l x) ->
  Forall (apart nn) l -> Start f <= End f -> Start nn <= End nn ->
  apart nn f.
Proof.
  intros Hc Hap Hf Hnn. unfold apart.
  destruct (Z.lt_ge_cases (End nn) (Start f)); [left; assumption|].
  destruct (Z.lt_ge_cases (End f) (Start nn)); [right; assumption|].
  exfalso. set (x := Z.max (Start f) (Start nn)).
  destruct (Hc x) as (g & Hg & Hx).
  { exists f. split; [left|]. lia. }
  rewrite Forall_forall in Hap. apply Hap in Hg. unfold apart in Hg. lia.
Qed.



Lemma sep_middle lo hi (A fss B : list FreeSpace) :
  sep lo hi (A ++ fss ++ B) -> exists lo' hi', sep lo' hi' fss /\ lo <= lo' /\ hi' <= hi.
Proof.
  intros H. apply sep_app2 in H as (m1 & _ & H & Hm1).
  apply sep_app2 in H as (m2 & H & _ & Hm2).
  exists m1, m2. repeat split; auto; lia.
Qed.

Lemma Size_le_sumSizes f (l : list FreeSpace) : f ∈ l -> Size f <= sumSizes l.
Proof.
  induction l as [|e l IH]; intros Hin.
  - apply elem_of_nil in Hin. contradiction.
  - rewrite sumSizes_cons. pose proof (Size_nonneg e). pose proof (sumSizes_nonneg l).
    apply elem_of_cons in Hin as [->|Hin]; [lia|]. apply IH in Hin. lia.
Qed.

(** C8. For a well-formed treap and a node of it (given by its in-order
    position), if the sizes of all intervals add up to at least
    [required_size], GetFittingNeighbours returns (it does not panic): the
    intervals returned are in strictly ascending order of start address,
    their sizes add up to at least [required_size], the reported total is
    that sum, none of them is left in the returned treap, every other
    interval is, and the returned treap is well-formed. *)
Theorem fitting_neighbours_bundle root i nfs required_size :
  treap_ok root ->
  inorder root !! i = Some nfs ->
  required_size <= sumSizes (inorder root) ->
  exists fss nr ts,
    GetFittingNeighbours root i required_size = Some (fss, nr, ts) /\
    (forall j k a b, (j < k)%nat -> fss !! j = Some a -> fss !! k = Some b ->
       Start a < Start b) /\
    required_size <= sumSizes fss /\
    ts = sumSizes fss /\
    nfs ∈ fss /\
    (forall f, f ∈ fss -> f ∉ inorder nr) /\
    (forall f, f ∈ inorder root <-> f ∈ fss \/ f ∈ inorder nr) /\
    treap_ok nr.
Proof.
  intros Hok Hi Hsz.
  destruct (GetFittingNeighbours_spec root (-1) top i nfs required_size Hok)
    as (A & fss & B & nr & EL & R & I & S & Hn & _); auto; try lia.
  exists fss, nr, (sumSizes fss).
  unfold treap_ok in Hok. rewrite EL in Hok.
  split; [exact R|]. split.
  { intros j k a b Hjk Ha Hb.
    destruct (sep_middle _ _ _ _ _ Hok) as (lo' & hi' & Hm & _).
    pose proof (sep_pairwise _ _ _ _ _ _ _ Hm Ha Hb Hjk).
    apply sep_Forall in Hm. rewrite Forall_forall in Hm.
    pose proof (Hm a (list_elem_of_lookup_2 _ _ _ Ha)). lia. }
  split; [exact S|]. split; [reflexivity|]. split; [exact Hn|]. split.
  { intros f Hf. rewrite I. pose proof (sep_NoDup _ _ _ Hok) as Hnd.
    apply NoDup_app in Hnd as (_ & H1 & Hnd).
    apply NoDup_app in Hnd as (_ & H2 & _).
    intros [Hin|Hin]%elem_of_app.
    - apply (H1 f Hin). apply elem_of_app. left. exact Hf.
    - apply (H2 f Hf Hin). }
  split.
  { intros f. rewrite EL, I, !elem_of_app. tauto. }
  unfold treap_ok. rewrite I.
  rewrite app_assoc in Hok. apply sep_app2 in Hok as (m & H1 & H2 & Hm).
  apply sep_app2 in H1 as (m' & H1 & H3 & Hm').
  clear -H1 H2 H3 Hm Hm'.
  assert (H2' : sep m' top B).
  { eapply sep_weaken; eauto; lia. }
  clear H2 H3. revert H1. generalize (-1). induction A as [|a A IH]; intros lo H1.
  - simpl in *. eapply sep_weaken; eauto; lia.
  - destruct H1 as (Ha & Hb & Hc). simpl. repeat split; auto.
Qed.

(** C7. When the root of a well-formed manager satisfies the request,
    poolExtract returns a bundle of exactly one interval, of at least the
    requested size, taken out of the treap; the extracted count goes up by
    one and the tracked total down by the interval's size. *)
Theorem poolExtract_single_interval `{Runtime} t required_size rs :
  fsm_ok t ->
  sizeOf (root t) = Some rs ->
  required_size <= rs ->
  exists t' fs,
    poolExtract t required_size = Some (t', inl [fs]) /\
    required_size <= Size fs /\
    (fs ∈ inorder (root t)) /\
    (fs ∉ inorder (root t')) /\
    totalFreeSpace t' = totalFreeSpace t - Size fs /\
    extractedFreeSpaces t' = wrap_int32 (extractedFreeSpaces t + 1).
Proof.
  intros [Hok Htot] Hrs Hle.
  assert (Hne : root t <> Nil) by (intros E; rewrite E in Hrs; discriminate).
  assert (Hroot_le : rs <= sumSizes (inorder (root t))).
  { destruct (root t) as [|l rfs r]; [discriminate|]. simpl in Hrs.
    injection Hrs as <-. apply Size_le_sumSizes. simpl.
    apply elem_of_app. right. left. }
  unfold poolExtract. rewrite Hrs.
  destruct (Z.ltb_spec rs required_size); [lia|]. simpl andb. cbv iota.
  destruct (Z.ltb_spec (totalFreeSpace t) required_size); [lia|].
  destruct (GreatestGravityNode_spec (root t) required_size Hne)
    as (i & f & G & Hi & Hsz).
  rewrite G. cbn [mbind option_bind].
  specialize (Hsz rs Hrs Hle).
  destruct (GetFittingNeighbours_spec (root t) (-1) top i f required_size Hok)
    as (A & fss & B & nr & EL & R & I & S & Hn & Hone); auto; try lia.
  specialize (Hone Hsz). subst fss.
  rewrite R. cbn [mbind option_bind].
  assert (Hsum : sumSizes [f] = Size f) by (unfold sumSizes; simpl; lia).
  rewrite Hsum.
  assert (Hfin : f ∈ inorder (root t)) by (eapply list_elem_of_lookup_2; eauto).
  pose proof (Size_le_sumSizes _ _ Hfin) as Hfle.
  pose proof (Size_nonneg f) as Hf0.
  pose proof (sumSizes_lt_two64 _ _ _ Hok ltac:(lia) ltac:(lia)) as Hlt.
  exists (mkFSM nr (wrap64 (totalFreeSpace t - Size f))
                (wrap_int32 (extractedFreeSpaces t + 1))), f.
  split; [reflexivity|]. split; [exact Hsz|]. split; [exact Hfin|]. split.
  { simpl. rewrite I. unfold treap_ok in Hok. rewrite EL in Hok.
    apply sep_NoDup in Hok. apply NoDup_app in Hok as (_ & HA & Hnd).
    apply NoDup_app in Hnd as (_ & HB & _).
    intros [Hin|Hin]%elem_of_app.
    - apply (HA f Hin). apply elem_of_app. left. left.
    - apply (HB f ltac:(left) Hin). }
  split; [|reflexivity].
  simpl. apply wrap64_small. lia.
Qed.

(** C10. [Size] is a total function that never subtracts below zero: an
    interval whose start is past its end has size 0, and otherwise the
    size is End - Start + 1 in uint64 arithmetic, with End - Start
    non-negative; this is the exact number of bytes for every uint64
    interval but the full range (start 0, end 2^64 - 1), where the sum
    wraps to 0. The tail of a write that used up its bundle (start one
    past the end) therefore has size 0, and poolPut, given an empty
    interval while a bundle is checked out, only decrements the extracted
    count: treap and tracked total stay as they are. *)
Theorem Size_total_and_empty_tail `{Runtime} :
  (forall fs, Start fs > End fs -> Size fs = 0) /\
  (forall fs, Start fs <= End fs ->
     Size fs = wrap64 (End fs - Start fs + 1) /\ 0 <= End fs - Start fs) /\
  (forall fs, 0 <= Start fs -> Start fs <= End fs -> End fs < 2 ^ 64 ->
     (Start fs <> 0 \/ End fs <> 2 ^ 64 - 1) ->
     Size fs = End fs - Start fs + 1) /\
  (forall e, Size (mkFS (e + 1) e) = 0) /\
  (forall t fs s,
     Size fs = 0 -> 1 <= extractedFreeSpaces t < 2 ^ 31 ->
     poolPut t fs s =
       Some (mkFSM (root t) (totalFreeSpace t) (extractedFreeSpaces t - 1),
             None, s)).
Proof.
  split; [|split; [|split; [|split]]].
  - intros fs Hgt. unfold Size.
    destruct (Z.gtb_spec (Start fs) (End fs)); [reflexivity|lia].
  - intros fs Hle. split; [|lia]. unfold Size.
    destruct (Z.gtb_spec (Start fs) (End fs)); [lia|reflexivity].
  - intros fs Ha Hb Hc Hd. unfold Size.
    destruct (Z.gtb_spec (Start fs) (End fs)); [lia|].
    apply wrap64_small. lia.
  - intros e. unfold Size. simpl.
    destruct (Z.gtb_spec (e + 1) e); [reflexivity|lia].
  - intros t fs s Hsz Hext. unfold poolPut.
    assert (Hw : wrap_int32 (extractedFreeSpaces t - 1) = extractedFreeSpaces t - 1).
    { unfold wrap_int32. rewrite Z.mod_small; lia. }
    rewrite Hw, Hsz.
    destruct (Z.ltb_spec (extractedFreeSpaces t - 1) 0); [lia|].
    reflexivity.
Qed.
Import treap.
Import gravity.

(** ** Error paths of the arena *)

(** C3, as the code has it. When the key is present in the key map with a
    position at or beyond the buffer size, Read of gravity.go fails with its
    own out-of-bound error and returns no data; the second copy of
    gravity.go fails with WrongReadPosition on the same input. *)
Theorem Read_out_of_bounds g k pos :
  load (vmap_ g) k = (pos, true) ->
  pos >= size g ->
  Read g k = Some ([], Some errOutOfBound) /\
  gravity_v2.Read g k = Some ([], Some WrongReadPosition).
Proof.
  intros Hl Hpos. unfold Read, gravity_v2.Read, loadFromVPos. rewrite Hl.
  destruct (Z.geb_spec pos (size g)); [|lia]. split; reflexivity.
Qed.

(** C3 as stated fails on gravity.go: the error is not WrongReadPosition. *)
Lemma Read_out_of_bounds_other_error :
  load (vmap_ strayArena) 7 = (100, true) /\
  100 >= size strayArena /\
  Read strayArena 7 = Some ([], Some errOutOfBound) /\
  Read strayArena 7 <> Some ([], Some WrongReadPosition).
Proof.
  split; [vm_compute; reflexivity|]. split; [vm_compute; discriminate|].
  split; [vm_compute; reflexivity|]. vm_compute. discriminate.
Qed.

Lemma Read_out_of_bounds_witness :
  Read strayArena 7 = Some ([], Some errOutOfBound) /\
  gravity_v2.Read strayArena 7 = Some ([], Some WrongReadPosition).
Proof.
  apply (Read_out_of_bounds strayArena 7 100).
  - vm_compute. reflexivity.
  - vm_compute. discriminate.
Defined.

(** C4, as the code has it. A write that fails with NotEnoughSpace leaves
    the buffer, the key map, the free-space manager (treap, tracked total,
    extracted count) and the random source as they were; the arena differs
    from the one before the call in its key counter only, which has
    advanced by one: the key of the failed write is used up. *)
Theorem failed_write_only_advances_key `{Runtime} g data s g1 k s1 :
  Write g data s = Some (g1, k, Some NotEnoughSpace, s1) ->
  g1 = setKey g (wrap64 (key g + 1)) /\ k = wrap64 (key g + 1) /\ s1 = s /\
  mem g1 = mem g /\ vmap_ g1 = vmap_ g /\ fsm g1 = fsm g /\ size g1 = size g.
Proof.
  unfold Write, getKey, write. cbn [mbind option_bind].
  set (g0 := setKey g (wrap64 (key g + 1))).
  change (fsm g0) with (fsm g).
  destruct (poolExtract (fsm g) _) as [[t r]|] eqn:E; [|discriminate].
  cbn [mbind option_bind].
  destruct r as [fss|err].
  - destruct (merge (setFsm g0 t) fss) as [[g2 fs]|]; [|discriminate].
    cbn [mbind option_bind].
    destruct (writeAt g2 (Start fs) data (wrap64 (key g + 1))) as [[g3 e]|] eqn:W;
      [|discriminate].
    cbn [mbind option_bind].
    assert (He : e = None \/ e = Some errCopyCount).
    { revert W. unfold writeAt. intros W.
      repeat (match type of W with
              | context [slice ?a ?b ?c] => destruct (slice a b c); [|discriminate]
              end; cbn [mbind option_bind] in W).
      destruct (copy _ _ _ _) as [m3 n].
      destruct (n =? len data); injection W as <- <-; auto. }
    destruct He as [-> | ->].
    + destruct (poolPut _ _ _) as [[[t' e'] s']|]; discriminate.
    + destruct (poolPut _ _ _) as [[[t' e'] s']|]; discriminate.
  - assert (t = fsm g /\ err = NotEnoughSpace) as [-> ->].
    { revert E. unfold poolExtract.
      destruct (_ && _); [discriminate|].
      destruct (sizeOf (root (fsm g))); [|intros [= <- <-]; auto].
      destruct (_ <? _); [intros [= <- <-]; auto|].
      destruct (GreatestGravityNode _ _); [|discriminate]. cbn [mbind option_bind].
      destruct (GetFittingNeighbours _ _ _) as [[[? ?] ?]|]; discriminate. }
    intros [= <- <- <-]. destruct g; repeat split; reflexivity.
Qed.

Section Demo.
#[local] Existing Instance demoRuntime.
Let s1 : @RS demoRuntime := 1%nat.
Let s0 : @RS demoRuntime := 0%nat.

Lemma failed_write_demo :
  exists g g1,
    NewGravity (replicate 20 "000"%byte) s0 = Some (Some g, None, s0) /\
    Write g helloBytes s1 = Some (g1, 2, Some NotEnoughSpace, s1) /\
    (fun r => snd (fst (fst r))) <$> Write g1 [] s1 = Some 3 /\
    (fun r => snd (fst (fst r))) <$> Write g [] s1 = Some 2.
Proof.
  destruct (NewGravity (replicate 20 "000"%byte) s0) as [[[[g|] e] s]|] eqn:E;
    try (vm_compute in E; discriminate).
  assert (E' := E). vm_compute in E'. injection E' as Eg Ee Es.
  destruct (Write g helloBytes s1) as [[[[g1 k] e1] s']|] eqn:W.
  2:{ exfalso. rewrite <- Eg in W. vm_compute in W. discriminate. }
  exists g, g1.
  subst e s. split; [reflexivity|].
  rewrite <- Eg in W |- *. clear Eg E.
  vm_compute in W. injection W as <- <- <- <-.
  repeat split; vm_compute; reflexivity.
Qed.

(** C4 as stated fails: after a failed write the arena does not behave as
    if the call had not happened; the next write returns another key. *)
Lemma failed_write_leaves_trace : ~ failed_write_leaves_no_trace.
Proof.
  intros Hc. destruct failed_write_demo as (g & g1 & _ & W & K1 & K0).
  specialize (Hc g helloBytes s1 g1 2 s1 W []).
  rewrite K1, K0 in Hc. discriminate.
Qed.

Lemma failed_write_only_advances_key_witness :
  exists g g1,
    Write g helloBytes s1 = Some (g1, 2, Some NotEnoughSpace, s1) /\
    g1 = setKey g (wrap64 (key g + 1)).
Proof.
  destruct failed_write_demo as (g & g1 & _ & W & _).
  exists g, g1. split; [exact W|].
  exact (proj1 (failed_write_only_advances_key g helloBytes s1 g1 2 s1 W)).
Defined.

End Demo.

Import treap.
Import gravity.

(** ** Layouts *)

Lemma len_app (a b : list byte) : len (a ++ b) = len a + len b.
Proof. unfold len. rewrite length_app. lia. Qed.

Lemma len_nonneg (a : list byte) : 0 <= len a.
Proof. unfold len. lia. Qed.

Lemma take_len (a : list byte) : take (Z.to_nat (len a)) a = a.
Proof. unfold len. rewrite Nat2Z.id. apply firstn_all. Qed.

Lemma len_nil : len [] = 0.
Proof. reflexivity. Qed.

Lemma len_PutUint64 v : len (PutUint64 v) = 8.
Proof. unfold len. rewrite length_PutUint64. reflexivity. Qed.

Lemma len_enc_Rec k d : len (enc (Rec k d)) = 16 + len d.
Proof. cbn [enc]. rewrite !len_app, !len_PutUint64. lia. Qed.

Lemma flat_app a b : flat (a ++ b) = flat a ++ flat b.
Proof. apply flat_map_app. Qed.

Lemma flat_cons s a : flat (s :: a) = enc s ++ flat a.
Proof. reflexivity. Qed.

Lemma flen_app a b : flen (a ++ b) = flen a + flen b.
Proof. unfold flen. rewrite flat_app, len_app. reflexivity. Qed.

Lemma flen_cons s a : flen (s :: a) = len (enc s) + flen a.
Proof. unfold flen. rewrite flat_cons, len_app. reflexivity. Qed.

Lemma flen_nil : flen [] = 0.
Proof. reflexivity. Qed.

Lemma flen_nonneg a : 0 <= flen a.
Proof. apply len_nonneg. Qed.

Lemma frees_app a : forall off b,
  frees off (a ++ b) = frees off a ++ frees (off + flen a) b.
Proof.
  induction a as [|s a IH]; intros off b.
  - simpl. rewrite flen_nil, Z.add_0_r. reflexivity.
  - destruct s as [k d|bs]; cbn [frees app]; rewrite IH, flen_cons.
    + rewrite Z.add_assoc. reflexivity.
    + simpl enc. rewrite Z.add_assoc. reflexivity.
Qed.

Lemma recs_app a : forall off b,
  recs off (a ++ b) = recs off a ++ recs (off + flen a) b.
Proof.
  induction a as [|s a IH]; intros off b.
  - simpl. rewrite flen_nil, Z.add_0_r. reflexivity.
  - destruct s as [k d|bs]; cbn [recs app]; rewrite IH, flen_cons.
    + rewrite Z.add_assoc. reflexivity.
    + simpl enc. rewrite Z.add_assoc. reflexivity.
Qed.

Lemma payloads_app a b : payloads (a ++ b) = payloads a ++ payloads b.
Proof.
  induction a as [|s a IH]; [reflexivity|].
  destruct s; simpl; rewrite IH; reflexivity.
Qed.

Lemma keys_recs_payloads segs : forall off,
  map fst (recs off segs) = map fst (payloads segs).
Proof.
  induction segs as [|s segs IH]; intros off; [reflexivity|].
  destruct s; simpl; rewrite ?IH; reflexivity.
Qed.

Lemma endsWithGap_snoc b a s :
  endsWithGap b (a ++ [s]) = match s with Gap _ => true | Rec _ _ => false end.
Proof. unfold endsWithGap. rewrite last_snoc. reflexivity. Qed.

Lemma endsWithGap_cons b s a :
  endsWithGap b (s :: a) =
  endsWithGap (match s with Gap _ => true | Rec _ _ => false end) a.
Proof.
  unfold endsWithGap. destruct a as [|t a].
  - simpl. destruct s; reflexivity.
  - rewrite last_cons_cons. destruct (last (t :: a)) eqn:E; [reflexivity|].
    apply last_None in E. discriminate.
Qed.

Lemma gaps_ok_app a : forall b c,
  gaps_ok b (a ++ c) <-> gaps_ok b a /\ gaps_ok (endsWithGap b a) c.
Proof.
  induction a as [|s a IH]; intros b c.
  - simpl. unfold endsWithGap. simpl. tauto.
  - rewrite endsWithGap_cons. destruct s as [k d|bs]; cbn [gaps_ok app].
    + apply IH.
    + rewrite IH. tauto.
Qed.

Lemma gaps_ok_weaken segs b : gaps_ok b segs -> gaps_ok true segs -> gaps_ok b segs.
Proof. auto. Qed.

Lemma gaps_ok_false segs b : gaps_ok true segs -> gaps_ok b segs.
Proof.
  destruct segs as [|[k d|bs] segs]; simpl; auto.
  intros (H & _). discriminate.
Qed.

(** The gaps of a well-formed layout are separated intervals. *)
Lemma frees_sep segs : forall b lo off,
  gaps_ok b segs -> (if b then lo <= off else lo < off) ->
  sep lo (off + flen segs) (frees off segs).
Proof.
  induction segs as [|s segs IH]; intros b lo off Hg Hlo.
  - simpl. rewrite flen_nil. destruct b; lia.
  - destruct s as [k d|bs]; cbn [gaps_ok frees] in *.
    + rewrite flen_cons. pose proof (len_nonneg d).
      rewrite Z.add_assoc. apply (IH false); [exact Hg|].
      rewrite len_enc_Rec. destruct b; lia.
    + destruct Hg as (-> & Hne & Hg). rewrite flen_cons. simpl enc.
      assert (0 < len bs).
      { unfold len. destruct bs; [congruence|simpl; lia]. }
      simpl. split; [lia|]. split; [lia|].
      rewrite Z.add_assoc.
      replace (off + len bs - 1 + 1) with (off + len bs) by lia.
      apply (IH true); [exact Hg|lia].
Qed.

Lemma frees_bounds segs b off e :
  gaps_ok b segs -> 0 <= off -> e ∈ frees off segs ->
  off <= Start e /\ Start e <= End e /\ End e < off + flen segs.
Proof.
  intros Hg Hoff He.
  assert (Hs : sep (off - 1) (off + flen segs) (frees off segs)).
  { eapply sep_weaken; [apply (frees_sep segs b (if b then off else off - 1) off Hg)| |lia].
    - destruct b; lia.
    - destruct b; lia. }
  apply sep_Forall in Hs. rewrite Forall_forall in Hs. apply Hs in He. lia.
Qed.

Lemma recs_elem segs : forall off k p,
  (k, p) ∈ recs off segs <->
  exists pre d post, segs = pre ++ Rec k d :: post /\ p = off + flen pre.
Proof.
  induction segs as [|s segs IH]; intros off k p.
  - simpl. split.
    + intros H. apply elem_of_nil in H. contradiction.
    + intros (pre & d & post & E & _). destruct pre; discriminate.
  - destruct s as [k0 d0|bs]; cbn [recs].
    + rewrite elem_of_cons, IH. split.
      * intros [[= -> ->]|(pre & d & post & -> & ->)].
        -- exists [], d0, segs. rewrite flen_nil. split; [reflexivity|lia].
        -- exists (Rec k0 d0 :: pre), d, post. rewrite flen_cons.
           split; [reflexivity|lia].
      * intros (pre & d & post & E & ->). destruct pre as [|s pre].
        -- injection E as -> -> ->. left. rewrite flen_nil. f_equal. lia.
        -- injection E as <- ->. right. exists pre, d, post.
           rewrite flen_cons. split; [reflexivity|lia].
    + rewrite IH. split.
      * intros (pre & d & post & -> & ->).
        exists (Gap bs :: pre), d, post. rewrite flen_cons. simpl enc.
        split; [reflexivity|lia].
      * intros (pre & d & post & E & ->). destruct pre as [|s pre]; [discriminate|].
        injection E as <- ->. exists pre, d, post.
        rewrite flen_cons. simpl enc. split; [reflexivity|lia].
Qed.

Lemma payloads_elem segs k d :
  (k, d) ∈ payloads segs <-> exists pre post, segs = pre ++ Rec k d :: post.
Proof.
  induction segs as [|s segs IH].
  - simpl. split.
    + intros H. apply elem_of_nil in H. contradiction.
    + intros (pre & post & E). destruct pre; discriminate.
  - destruct s as [k0 d0|bs]; cbn [payloads].
    + rewrite elem_of_cons, IH. split.
      * intros [[= -> ->]|(pre & post & ->)].
        -- exists [], segs. reflexivity.
        -- exists (Rec k0 d0 :: pre), post. reflexivity.
      * intros (pre & post & E). destruct pre as [|s pre].
        -- injection E as -> -> ->. left. reflexivity.
        -- injection E as <- ->. right. eauto.
    + rewrite IH. split.
      * intros (pre & post & ->). exists (Gap bs :: pre), post. reflexivity.
      * intros (pre & post & E). destruct pre as [|s pre]; [discriminate|].
        injection E as <- ->. eauto.
Qed.

(** ** Slices of a buffer *)

Lemma slice_mid (a b c : list byte) :
  slice (a ++ b ++ c) (len a) (len a + len b) = Some b.
Proof.
  unfold slice. rewrite !len_app.
  pose proof (len_nonneg a). pose proof (len_nonneg b). pose proof (len_nonneg c).
  destruct (Z.leb_spec 0 (len a)); [|lia].
  destruct (Z.leb_spec (len a) (len a + len b)); [|lia].
  destruct (Z.leb_spec (len a + len b) (len a + (len b + len c))); [|lia].
  simpl. f_equal. unfold len.
  rewrite Nat2Z.id, drop_app_length.
  replace (Z.to_nat (Z.of_nat (length a) + Z.of_nat (length b) - Z.of_nat (length a)))
    with (length b) by lia.
  apply take_app_length.
Qed.

Lemma slice_Some m lo hi x :
  slice m lo hi = Some x ->
  exists a c, m = a ++ x ++ c /\ len a = lo /\ len x = hi - lo.
Proof.
  unfold slice. intros H.
  destruct (Z.leb_spec 0 lo); [|discriminate].
  destruct (Z.leb_spec lo hi); [|discriminate].
  destruct (Z.leb_spec hi (len m)); [|discriminate].
  simpl in H. injection H as <-.
  exists (take (Z.to_nat lo) m), (drop (Z.to_nat (hi - lo)) (drop (Z.to_nat lo) m)).
  unfold len in *. split.
  - rewrite take_drop, take_drop. reflexivity.
  - rewrite !length_take, length_drop. lia.
Qed.

Lemma writeBytes_mid (a b c b' : list byte) :
  length b' = length b ->
  writeBytes (a ++ b ++ c) (len a) b' = a ++ b' ++ c.
Proof.
  intros Hl. unfold writeBytes, len. rewrite Nat2Z.id.
  rewrite take_app_length. f_equal. f_equal.
  rewrite Hl, <- drop_drop, !drop_app_length. reflexivity.
Qed.

(** ** Freeing a record of a layout *)

Lemma pre_cases (pre : list seg) :
  pre = [] \/ (exists pre' k0 d0, pre = pre' ++ [Rec k0 d0]) \/
  (exists pre' G, pre = pre' ++ [Gap G]).
Proof.
  destruct (last pre) as [[k0 d0|G]|] eqn:E.
  - apply last_Some in E as [pre' ->]. right. left. eauto.
  - apply last_Some in E as [pre' ->]. right. right. eauto.
  - apply last_None in E. left. exact E.
Qed.

Lemma splitLastGap_nil : splitLastGap [] = ([], []).
Proof. reflexivity. Qed.

Lemma splitLastGap_rec pre k d :
  splitLastGap (pre ++ [Rec k d]) = (pre ++ [Rec k d], []).
Proof. unfold splitLastGap. rewrite last_snoc. reflexivity. Qed.

Lemma splitLastGap_gap pre G :
  splitLastGap (pre ++ [Gap G]) = (pre, G).
Proof. unfold splitLastGap. rewrite last_snoc, removelast_last. reflexivity. Qed.

Lemma flat_snoc pre s : flat (pre ++ [s]) = flat pre ++ enc s.
Proof. rewrite flat_app. simpl. rewrite app_nil_r. reflexivity. Qed.

Lemma flen_snoc pre s : flen (pre ++ [s]) = flen pre + len (enc s).
Proof. unfold flen. rewrite flat_snoc, len_app. reflexivity. Qed.

Lemma splitLastGap_flat pre :
  flat (fst (splitLastGap pre)) ++ snd (splitLastGap pre) = flat pre.
Proof.
  destruct (pre_cases pre) as [->|[(pre' & k0 & d0 & ->)|(pre' & G & ->)]].
  - reflexivity.
  - rewrite splitLastGap_rec. simpl. apply app_nil_r.
  - rewrite splitLastGap_gap, flat_snoc. reflexivity.
Qed.

Lemma splitLastGap_recs pre off :
  recs off (fst (splitLastGap pre)) = recs off pre.
Proof.
  destruct (pre_cases pre) as [->|[(pre' & k0 & d0 & ->)|(pre' & G & ->)]].
  - reflexivity.
  - rewrite splitLastGap_rec. reflexivity.
  - rewrite splitLastGap_gap, recs_app. simpl. rewrite app_nil_r. reflexivity.
Qed.

Lemma splitLastGap_payloads pre :
  payloads (fst (splitLastGap pre)) = payloads pre.
Proof.
  destruct (pre_cases pre) as [->|[(pre' & k0 & d0 & ->)|(pre' & G & ->)]].
  - reflexivity.
  - rewrite splitLastGap_rec. reflexivity.
  - rewrite splitLastGap_gap, payloads_app. simpl. rewrite app_nil_r. reflexivity.
Qed.

Lemma splitHeadGap_flat post :
  fst (splitHeadGap post) ++ flat (snd (splitHeadGap post)) = flat post.
Proof. destruct post as [|[k d|H] post]; reflexivity. Qed.

Lemma splitHeadGap_recs post off :
  recs (off + len (fst (splitHeadGap post))) (snd (splitHeadGap post)) = recs off post.
Proof.
  destruct post as [|[k d|H] post]; simpl; rewrite ?len_nil, ?Z.add_0_r; reflexivity.
Qed.

Lemma splitHeadGap_payloads post :
  payloads (snd (splitHeadGap post)) = payloads post.
Proof. destruct post as [|[k d|H] post]; reflexivity. Qed.

Lemma flat_freeAt pre k d post :
  flat (freeAt pre k d post) = flat (pre ++ Rec k d :: post).
Proof.
  unfold freeAt. rewrite !flat_app, !flat_cons. cbn [enc].
  rewrite <- (splitLastGap_flat pre), <- (splitHeadGap_flat post).
  rewrite <- !app_assoc. reflexivity.
Qed.

Lemma flen_split_last pre :
  flen (fst (splitLastGap pre)) + len (snd (splitLastGap pre)) = flen pre.
Proof.
  unfold flen. rewrite <- len_app, splitLastGap_flat. reflexivity.
Qed.

Lemma recs_freeAt pre k d post :
  recs 0 (freeAt pre k d post) =
  recs 0 pre ++ recs (flen pre + len (enc (Rec k d))) post.
Proof.
  unfold freeAt. rewrite recs_app, splitLastGap_recs. f_equal.
  cbn [recs]. rewrite !len_app.
  rewrite <- (splitHeadGap_recs post).
  f_equal. pose proof (flen_split_last pre). lia.
Qed.

Lemma payloads_freeAt pre k d post :
  payloads (freeAt pre k d post) = payloads pre ++ payloads post.
Proof.
  unfold freeAt. rewrite payloads_app, splitLastGap_payloads. f_equal.
  cbn [payloads]. apply splitHeadGap_payloads.
Qed.

Lemma len_pos (bs : list byte) : bs <> [] -> 0 < len bs.
Proof. unfold len. destruct bs; [congruence|simpl; lia]. Qed.

Lemma gaps_ok_freeAt pre k d post :
  gaps_ok false (pre ++ Rec k d :: post) -> gaps_ok false (freeAt pre k d post).
Proof.
  intros Hg. apply gaps_ok_app in Hg as [Hpre Hpost]. cbn [gaps_ok] in Hpost.
  unfold freeAt. apply gaps_ok_app.
  assert (Hne : snd (splitLastGap pre) ++ enc (Rec k d) ++ fst (splitHeadGap post) <> []).
  { intros E. apply (f_equal len) in E. rewrite !len_app, len_enc_Rec, len_nil in E.
    pose proof (len_nonneg (snd (splitLastGap pre))).
    pose proof (len_nonneg (fst (splitHeadGap post))).
    pose proof (len_nonneg d). lia. }
  assert (Hpost' : gaps_ok true (snd (splitHeadGap post))).
  { destruct post as [|[k0 d0|H] post]; simpl in *; tauto. }
  destruct (pre_cases pre) as [->|[(pre' & k0 & d0 & ->)|(pre' & G & ->)]].
  - simpl. auto.
  - rewrite splitLastGap_rec in *. cbn [fst snd] in *.
    split; [exact Hpre|]. rewrite endsWithGap_snoc. cbn [gaps_ok]. auto.
  - rewrite splitLastGap_gap in *. cbn [fst snd] in *.
    apply gaps_ok_app in Hpre as [Hpre' Hgap]. cbn [gaps_ok] in Hgap.
    destruct Hgap as (Hends & _ & _).
    split; [exact Hpre'|]. rewrite Hends. cbn [gaps_ok]. auto.
Qed.

Lemma frees_no_gap_end pre off e :
  gaps_ok false pre -> 0 <= off -> endsWithGap false pre = false ->
  e ∈ frees off pre -> Start e <= End e /\ End e + 1 < off + flen pre.
Proof.
  intros Hg Hoff Hends He.
  destruct (pre_cases pre) as [->|[(pre' & k0 & d0 & ->)|(pre' & G & ->)]].
  - simpl in He. apply elem_of_nil in He. contradiction.
  - rewrite frees_app in He. simpl in He. rewrite app_nil_r in He.
    apply gaps_ok_app in Hg as [Hg _].
    pose proof (frees_bounds _ _ _ _ Hg Hoff He).
    rewrite flen_snoc, len_enc_Rec. pose proof (len_nonneg d0). lia.
  - rewrite endsWithGap_snoc in Hends. discriminate.
Qed.

Lemma frees_no_gap_start post off h :
  gaps_ok true post -> 0 <= off -> h ∈ frees off post -> off + 16 <= Start h.
Proof.
  intros Hg Hoff Hh. destruct post as [|[k0 d0|H] post].
  - simpl in Hh. apply elem_of_nil in Hh. contradiction.
  - cbn [frees gaps_ok] in *. pose proof (len_nonneg d0).
    rewrite len_enc_Rec in Hh.
    assert (H0 : 0 <= off + (16 + len d0)) by lia.
    pose proof (frees_bounds post false _ h Hg H0 Hh). lia.
  - simpl in Hg. destruct Hg as [Hg _]. discriminate.
Qed.

Lemma ins_far nn (l : list FreeSpace) :
  (forall h, h ∈ l -> End nn + 1 < Start h) -> ins nn l = nn :: l.
Proof.
  intros H. destruct l as [|h l]; [reflexivity|]. simpl.
  destruct (Z.ltb_spec (End nn + 1) (Start h)); [reflexivity|].
  specialize (H h ltac:(left)). lia.
Qed.

Lemma ins_join_right nn h (l : list FreeSpace) :
  End nn + 1 = Start h -> ins nn (h :: l) = mkFS (Start nn) (End h) :: l.
Proof.
  intros E. simpl.
  destruct (Z.ltb_spec (End nn + 1) (Start h)); [lia|].
  destruct (Z.eqb_spec (End nn + 1) (Start h)); [reflexivity|lia].
Qed.

Lemma ins_join_left nn g (l : list FreeSpace) :
  Start g <= End g -> Start nn <= End nn -> End g + 1 = Start nn ->
  (forall h, h ∈ l -> End nn + 1 < Start h) ->
  ins nn (g :: l) = mkFS (Start g) (End nn) :: l.
Proof.
  intros Hg Hn E H. simpl.
  destruct (Z.ltb_spec (End nn + 1) (Start g)); [lia|].
  destruct (Z.eqb_spec (End nn + 1) (Start g)); [lia|].
  destruct (Z.eqb_spec (End g + 1) (Start nn)); [|lia].
  destruct l as [|h l]; [reflexivity|].
  specialize (H h ltac:(left)).
  destruct (Z.eqb_spec (End nn + 1) (Start h)); [lia|reflexivity].
Qed.

Lemma ins_join_both nn g h (l : list FreeSpace) :
  Start g <= End g -> Start nn <= End nn -> End g + 1 = Start nn ->
  End nn + 1 = Start h ->
  ins nn (g :: h :: l) = mkFS (Start g) (End h) :: l.
Proof.
  intros Hg Hn E1 E2. simpl.
  destruct (Z.ltb_spec (End nn + 1) (Start g)); [lia|].
  destruct (Z.eqb_spec (End nn + 1) (Start g)); [lia|].
  destruct (Z.eqb_spec (End g + 1) (Start nn)); [|lia].
  destruct (Z.eqb_spec (End nn + 1) (Start h)); [reflexivity|lia].
Qed.

(** Freeing a record is the coalescing insertion of its span into the
    gaps of the layout. *)
Lemma frees_freeAt pre k d post :
  gaps_ok false (pre ++ Rec k d :: post) ->
  ins (mkFS (flen pre) (flen pre + len (enc (Rec k d)) - 1))
      (frees 0 (pre ++ Rec k d :: post)) =
  frees 0 (freeAt pre k d post).
Proof.
  intros Hg. apply gaps_ok_app in Hg as [Hpre Hpost]. cbn [gaps_ok] in Hpost.
  set (p := flen pre). set (E := enc (Rec k d)).
  set (nn := mkFS p (p + len E - 1)).
  assert (HE : len E = 16 + len d) by apply len_enc_Rec.
  pose proof (len_nonneg d) as Hd. pose proof (flen_nonneg pre) as Hp0.
  assert (Hnn : Start nn <= End nn) by (simpl; lia).
  rewrite frees_app. cbn [frees]. rewrite Z.add_0_l. fold p. fold E.
  unfold freeAt. rewrite frees_app. cbn [frees]. rewrite Z.add_0_l.
  fold E.
  (* the part after the record *)
  assert (Hright : forall st, st <= p ->
    ins (mkFS st (p + len E - 1)) (frees (p + len E) post) =
    mkFS st (p + len (E ++ fst (splitHeadGap post)) - 1)
      :: frees (p + len (E ++ fst (splitHeadGap post))) (snd (splitHeadGap post))).
  { intros st Hst.
    destruct post as [|[k0 d0|H] post]; cbn [splitHeadGap fst snd].
    - rewrite app_nil_r. reflexivity.
    - rewrite app_nil_r. apply ins_far.
      intros h Hh. simpl.
      assert (H0 : 0 <= p + len E) by lia.
      pose proof (frees_no_gap_start (Rec k0 d0 :: post) _ h Hpost H0 Hh). lia.
    - cbn [frees]. rewrite ins_join_right by (simpl; lia). cbn [Start End].
      rewrite len_app. f_equal; [f_equal; lia|]. f_equal. lia. }
  destruct (pre_cases pre) as [Epre|[(pre' & k0 & d0 & Epre)|(pre' & G & Epre)]].
  - assert (Hp : p = 0) by (unfold p; rewrite Epre; reflexivity).
    rewrite Epre. rewrite splitLastGap_nil. cbn [fst snd frees app].
    rewrite flen_nil. unfold nn. rewrite (Hright p ltac:(lia)).
    rewrite Hp. cbn [app]. rewrite !Z.add_0_l. reflexivity.
  - rewrite ins_skip.
    2:{ exact Hnn. }
    2:{ rewrite Forall_forall. intros e He. simpl.
        apply (frees_no_gap_end pre 0 e Hpre ltac:(lia)); [|exact He].
        rewrite Epre. apply endsWithGap_snoc. }
    assert (Hsp : splitLastGap pre = (pre, [])).
    { rewrite Epre. apply splitLastGap_rec. }
    rewrite Hsp. cbn [fst snd app]. fold p.
    f_equal. unfold nn. apply (Hright p). lia.
  - assert (HG : 0 < len G).
    { rewrite Epre in Hpre. apply gaps_ok_app in Hpre as [_ Hgap].
      cbn [gaps_ok] in Hgap. apply len_pos. tauto. }
    assert (Hp' : flen pre' = p - len G).
    { unfold p. rewrite Epre, flen_snoc. simpl enc. lia. }
    assert (Hsp : splitLastGap pre = (pre', G)).
    { rewrite Epre. apply splitLastGap_gap. }
    rewrite Hsp. cbn [fst snd].
    assert (Hfr : frees 0 pre = frees 0 pre' ++ [mkFS (p - len G) (p - 1)]).
    { rewrite Epre, frees_app. cbn [frees]. rewrite Z.add_0_l, Hp'.
      f_equal. f_equal. f_equal. lia. }
    rewrite Hfr, <- app_assoc. cbn [app].
    rewrite ins_skip.
    2:{ exact Hnn. }
    2:{ rewrite Forall_forall. intros e He. simpl.
        rewrite Epre in Hpre. apply gaps_ok_app in Hpre as [Hpre' _].
        assert (H0 : 0 <= 0) by lia.
        pose proof (frees_bounds pre' false 0 e Hpre' H0 He). lia. }
    f_equal. rewrite Hp'.
    destruct post as [|[k1 d1|H] post]; cbn [splitHeadGap fst snd frees].
    + rewrite app_nil_r, !len_app. simpl. 
      destruct (Z.ltb_spec (p + len E - 1 + 1) (p - len G)); [lia|].
      destruct (Z.eqb_spec (p + len E - 1 + 1) (p - len G)); [lia|].
      destruct (Z.eqb_spec (p - 1 + 1) p); [|lia].
      f_equal. f_equal. lia.
    + rewrite app_nil_r, !len_app. rewrite ins_join_left; simpl; try lia.
      * f_equal; [f_equal; lia|]. f_equal. lia.
      * intros h Hh.
        assert (H0 : 0 <= p + len E) by lia.
        pose proof (frees_no_gap_start (Rec k1 d1 :: post) _ h Hpost H0 Hh). lia.
    + rewrite !len_app. rewrite ins_join_both; simpl; try lia.
      f_equal; [f_equal; lia|]. f_equal. lia.
Qed.
Import treap.
Import gravity.

(** ** The key map as a partial function *)

Lemma load_cases v k : (exists p, load v k = (p, true)) \/ load v k = (0, false).
Proof.
  unfold load. destruct (v !! bucketIdx k) as [silo|]; [|auto].
  destruct (silo !! k); eauto.
Qed.

Lemma vget_Some v k p : vget v k = Some p <-> load v k = (p, true).
Proof.
  unfold vget. destruct (load v k) as [q ok]. destruct ok; split; congruence.
Qed.

Lemma vget_None v k : vget v k = None <-> load v k = (0, false).
Proof.
  unfold vget. destruct (load_cases v k) as [[p E]|E]; rewrite E; split; congruence.
Qed.

Lemma vget_store v k p k' :
  is_Some (v !! bucketIdx k) ->
  vget (store v k p) k' = if decide (k' = k) then Some p else vget v k'.
Proof.
  intros Hb. unfold vget. destruct (decide (k' = k)) as [->|Hne].
  - rewrite load_store_same by exact Hb. reflexivity.
  - rewrite load_store_other by exact Hne. reflexivity.
Qed.

Lemma vget_delete v k k' :
  vget (snd (loadAndDelete v k)) k' = if decide (k' = k) then None else vget v k'.
Proof.
  unfold vget. destruct (decide (k' = k)) as [->|Hne].
  - rewrite load_after_delete_same. reflexivity.
  - rewrite load_after_delete_other by exact Hne. reflexivity.
Qed.

(** ** Read *)

Lemma maxLen_eq : maxLen = 9223372036854775808.
Proof. reflexivity. Qed.

Section RepFacts.
Variables (g : Gravity) (segs : list seg).
Hypothesis R : rep g segs.

Lemma rep_flen : flen segs = size g.
Proof. rewrite (rep_size _ _ R), (rep_mem _ _ R). reflexivity. Qed.

Lemma rep_sep : sep (-1) (size g) (frees 0 segs).
Proof.
  rewrite <- rep_flen.
  apply (frees_sep segs false (-1) 0 (rep_gaps _ _ R)). lia.
Qed.

Lemma rep_treap_ok : treap_ok (root (fsm g)).
Proof.
  unfold treap_ok. rewrite (rep_tree _ _ R).
  eapply sep_weaken; [apply rep_sep|lia|].
  pose proof (rep_max _ _ R). rewrite maxLen_eq in *. rewrite top_eq. lia.
Qed.

Lemma rep_load_live pre k d post :
  segs = pre ++ Rec k d :: post -> load (vmap_ g) k = (flen pre, true).
Proof.
  intros E. apply vget_Some, (rep_vmap _ _ R), recs_elem.
  exists pre, d, post. split; [exact E|lia].
Qed.

Lemma rep_load_dead k :
  k ∉ map fst (payloads segs) -> load (vmap_ g) k = (0, false).
Proof.
  intros Hk. apply vget_None.
  destruct (vget (vmap_ g) k) as [p|] eqn:E; [|reflexivity].
  exfalso. apply Hk. apply (rep_vmap _ _ R) in E.
  rewrite <- (keys_recs_payloads segs 0).
  apply list_elem_of_fmap. exists (k, p). split; [reflexivity|exact E].
Qed.

Lemma rep_span_bound pre k d post :
  segs = pre ++ Rec k d :: post ->
  0 <= flen pre /\ flen pre + 16 + len d + flen post = size g /\
  len d < maxLen /\ size g < maxLen.
Proof.
  intros E. pose proof rep_flen as Hf. rewrite E, flen_app, flen_cons in Hf.
  rewrite len_enc_Rec in Hf. pose proof (flen_nonneg pre).
  pose proof (flen_nonneg post). pose proof (len_nonneg d).
  pose proof (rep_max _ _ R). split; [|split; [|split]]; lia.
Qed.

Lemma rep_mem_at pre k d post :
  segs = pre ++ Rec k d :: post ->
  mem g = flat pre ++ PutUint64 (len d) ++ PutUint64 k ++ d ++ flat post.
Proof.
  intros E. rewrite (rep_mem _ _ R), E, flat_app, flat_cons. cbn [enc].
  rewrite <- !app_assoc. reflexivity.
Qed.

End RepFacts.

Lemma slice_header g segs pre k d post :
  rep g segs -> segs = pre ++ Rec k d :: post ->
  slice (mem g) (flen pre) (wrap64 (flen pre + HeaderLen)) = Some (PutUint64 (len d)).
Proof.
  intros R E. destruct (rep_span_bound g segs R _ _ _ _ E) as (H0 & H1 & H2 & H3).
  rewrite maxLen_eq in *. unfold HeaderLen.
  rewrite wrap64_small
    by (rewrite two64_eq; pose proof (flen_nonneg post); pose proof (len_nonneg d); lia).
  rewrite (rep_mem_at g segs R _ _ _ _ E).
  replace (flen pre + 8) with (len (flat pre) + len (PutUint64 (len d)))
    by (rewrite len_PutUint64; reflexivity).
  apply slice_mid.
Qed.

(** Reading a live key returns its payload; reading any other key fails with
    WrongReadPosition. *)
Lemma Read_live g segs pre k d post :
  rep g segs -> segs = pre ++ Rec k d :: post ->
  Read g k = Some (d, None).
Proof.
  intros R E. destruct (rep_span_bound g segs R _ _ _ _ E) as (H0 & H1 & H2 & H3).
  pose proof (flen_nonneg post) as Hp. pose proof (len_nonneg d) as Hd.
  rewrite maxLen_eq in *.
  unfold Read, loadFromVPos. rewrite (rep_load_live g segs R _ _ _ _ E).
  destruct (Z.geb_spec (flen pre) (size g)); [lia|].
  rewrite (slice_header g segs pre k d post R E). cbn [mbind option_bind].
  rewrite Uint64_PutUint64 by (rewrite two64_eq; lia).
  unfold HeaderLen, KeyLen.
  rewrite (wrap64_small (flen pre + (8 + 8))) by (rewrite two64_eq; lia).
  rewrite wrap64_small by (rewrite two64_eq; lia).
  assert (Hs : slice (mem g) (flen pre + (8 + 8)) (flen pre + (8 + 8) + len d) = Some d).
  { rewrite (rep_mem_at g segs R _ _ _ _ E).
    rewrite (app_assoc (PutUint64 (len d))), (app_assoc (flat pre)).
    replace (flen pre + (8 + 8))
      with (len (flat pre ++ PutUint64 (len d) ++ PutUint64 k)).
    - apply slice_mid.
    - rewrite !len_app, !len_PutUint64. unfold flen. lia. }
  rewrite Hs. cbn [mbind option_bind].
  rewrite Z.min_id, take_len, Z.eqb_refl. reflexivity.
Qed.

Lemma Read_dead g segs k :
  rep g segs -> k ∉ map fst (payloads segs) ->
  Read g k = Some ([], Some WrongReadPosition).
Proof.
  intros R Hk. unfold Read, loadFromVPos.
  rewrite (rep_load_dead g segs R k Hk). reflexivity.
Qed.

(** ** Free *)

Lemma NoDup_fst_mid {A} (l1 : list (Z * A)) x l2 :
  NoDup (map fst (l1 ++ x :: l2)) ->
  NoDup (map fst (l1 ++ l2)) /\ (fst x ∉ map fst l1) /\ (fst x ∉ map fst l2).
Proof.
  rewrite !map_app. cbn [map]. intros Hnd.
  apply NoDup_app in Hnd as (H1 & H2 & H3). apply NoDup_cons in H3 as [H3 H4].
  split; [|split].
  - apply NoDup_app. split; [exact H1|]. split; [|exact H4].
    intros y Hy Hy'. apply (H2 y Hy). right. exact Hy'.
  - intros Hin. apply (H2 _ Hin). left.
  - exact H3.
Qed.

Lemma elem_fst {A} (k : Z) (p : A) (l : list (Z * A)) : (k, p) ∈ l -> k ∈ map fst l.
Proof.
  intros H. apply list_elem_of_fmap. exists (k, p). split; [reflexivity|exact H].
Qed.

Lemma Free_live `{Runtime} g segs pre k d post s :
  rep g segs -> segs = pre ++ Rec k d :: post ->
  exists g' s',
    Free g k s = Some (g', None, s') /\
    rep g' (freeAt pre k d post) /\ key g' = key g.
Proof.
  intros R E.
  destruct (rep_span_bound g segs R _ _ _ _ E) as (H0 & H1 & H2 & H3).
  pose proof (flen_nonneg post) as Hp. pose proof (len_nonneg d) as Hd.
  pose proof maxLen_eq as HM. pose proof two64_eq as H64. pose proof top_eq as HT.
  set (p := flen pre) in *.
  set (nn := mkFS p (p + len (enc (Rec k d)) - 1)).
  assert (HE : len (enc (Rec k d)) = 16 + len d) by apply len_enc_Rec.
  assert (Hnn : interval nn) by (unfold interval, nn; cbn [Start End]; lia).
  assert (HSz : Size nn = 16 + len d).
  { rewrite Size_interval; unfold nn; cbn [Start End]; lia. }
  pose proof (rep_gaps _ _ R) as Hg. rewrite E in Hg.
  pose proof Hg as Hg'. apply gaps_ok_app in Hg' as [Hgpre Hgpost].
  cbn [gaps_ok] in Hgpost.
  assert (Hap : Forall (apart nn) (inorder (root (fsm g)))).
  { rewrite (rep_tree _ _ R), E, frees_app. cbn [frees]. rewrite Z.add_0_l.
    apply Forall_app. split; rewrite Forall_forall; intros e He.
    - assert (Hz : 0 <= 0) by lia.
      pose proof (frees_bounds pre false 0 e Hgpre Hz He). right.
      unfold nn. cbn [Start End]. fold p in H4. lia.
    - assert (Hz : 0 <= flen pre + len (enc (Rec k d))) by (fold p; lia).
      pose proof (frees_bounds post false _ e Hgpost Hz He). left.
      unfold nn. cbn [Start End]. fold p in H4. lia. }
  (* the key map *)
  unfold Free, loadAndDeleteFromVPos.
  pose proof (load_loadAndDelete (vmap_ g) k) as HL.
  rewrite (rep_load_live g segs R _ _ _ _ E) in HL. fold p in HL.
  pose proof (vget_delete (vmap_ g) k) as HV.
  pose proof (fun i => delete_keeps_buckets (vmap_ g) k i) as HB.
  destruct (loadAndDelete (vmap_ g) k) as [[pos ok] v'].
  cbn [fst snd] in HL, HV, HB. injection HL as <- <-.
  (* the header *)
  change (mem (setVmap g v')) with (mem g).
  pose proof (slice_header g segs pre k d post R E) as HS. fold p in HS.
  rewrite HS. cbn [mbind option_bind].
  rewrite Uint64_PutUint64 by lia. unfold HeaderLen, KeyLen.
  rewrite (wrap64_small (8 + 8 + len d)) by lia.
  rewrite (wrap64_small (p + (8 + 8 + len d) - 1)) by lia.
  replace (mkFS p (p + (8 + 8 + len d) - 1)) with nn
    by (unfold nn; rewrite HE; f_equal; lia).
  (* the insertion *)
  change (fsm (setVmap g v')) with (fsm g).
  unfold add. rewrite HSz. destruct (Z.leb_spec (16 + len d) 0); [lia|].
  destruct (Insert_spec (root (fsm g)) (-1) top nn s (rep_treap_ok g segs R))
    as (r & s' & EI & II); try lia; auto.
  { unfold interval in Hnn. lia. }
  { unfold interval in Hnn. lia. }
  rewrite EI. cbn [mbind option_bind].
  eexists _, s'. split; [reflexivity|]. split; [|reflexivity].
  assert (Hfr : inorder r = frees 0 (freeAt pre k d post)).
  { rewrite II, (rep_tree _ _ R), E. apply frees_freeAt. exact Hg. }
  assert (Hsum : sumSizes (frees 0 (freeAt pre k d post)) =
                 sumSizes (frees 0 segs) + Size nn).
  { rewrite <- Hfr, II, <- (rep_tree _ _ R).
    eapply ins_sumSizes; [apply (rep_treap_ok g segs R)|lia|lia|exact Hnn|exact Hap]. }
  assert (Hgaps : gaps_ok false (freeAt pre k d post)) by (apply gaps_ok_freeAt; exact Hg).
  assert (Hflat : flat (freeAt pre k d post) = flat segs).
  { rewrite E. apply flat_freeAt. }
  assert (Hsep' : sep (-1) (size g) (frees 0 (freeAt pre k d post))).
  { replace (size g) with (0 + flen (freeAt pre k d post)).
    - apply (frees_sep _ false); [exact Hgaps|lia].
    - unfold flen. rewrite Hflat. rewrite <- (rep_mem _ _ R), <- (rep_size _ _ R). lia. }
  pose proof (rep_nodup _ _ R) as Hnd.
  rewrite E, recs_app in Hnd. cbn [recs] in Hnd. rewrite Z.add_0_l in Hnd.
  apply NoDup_fst_mid in Hnd as (Hnd & Hk1 & Hk2). cbn [fst] in Hk1, Hk2.
  assert (Hrecs : forall k' p', (k', p') ∈ recs 0 (freeAt pre k d post) <->
                   (k', p') ∈ recs 0 segs /\ k' <> k).
  { intros k' p'. rewrite recs_freeAt, E, recs_app. cbn [recs].
    rewrite Z.add_0_l, !elem_of_app, elem_of_cons. split.
    - intros [Hin|Hin].
      + split; [auto|]. intros ->. apply Hk1. eapply elem_fst; eauto.
      + split; [auto|]. intros ->. apply Hk2. eapply elem_fst; eauto.
    - intros [[Hin|[Heq|Hin]] Hne]; auto. congruence. }
  constructor; cbn [mem size fsm vmap_ key setFsm setVmap root totalFreeSpace
                      extractedFreeSpaces].
  - rewrite Hflat. apply (rep_mem _ _ R).
  - apply (rep_size _ _ R).
  - apply (rep_max _ _ R).
  - exact Hgaps.
  - exact Hfr.
  - rewrite (rep_total _ _ R), Hsum, HSz. apply wrap64_small.
    rewrite <- HSz, <- Hsum. split; [apply sumSizes_nonneg|].
    eapply sumSizes_lt_two64; [exact Hsep'|lia|].
    pose proof (rep_max _ _ R). lia.
  - apply (rep_ext _ _ R).
  - intros k' p'. rewrite Hrecs, HV. destruct (decide (k' = k)) as [->|Hne].
    + split; [discriminate|tauto].
    + rewrite (rep_vmap _ _ R). tauto.
  - rewrite recs_freeAt. exact Hnd.
  - intros k' p' Hin. apply Hrecs in Hin as [Hin _]. apply (rep_keys _ _ R _ _ Hin).
  - apply (rep_key _ _ R).
  - intros i Hi. apply HB. apply (rep_buckets _ _ R). exact Hi.
Qed.

Lemma Free_dead `{Runtime} g segs k s :
  rep g segs -> k ∉ map fst (payloads segs) ->
  Free g k s = Some (g, Some WrongReadPosition, s).
Proof.
  intros R Hk. unfold Free, loadAndDeleteFromVPos.
  pose proof (load_loadAndDelete (vmap_ g) k) as HL.
  rewrite (rep_load_dead g segs R k Hk) in HL.
  assert (Hv : snd (loadAndDelete (vmap_ g) k) = vmap_ g).
  { unfold loadAndDelete in *. destruct (vmap_ g !! bucketIdx k) as [silo|]; [|reflexivity].
    destruct (silo !! k); [discriminate|reflexivity]. }
  destruct (loadAndDelete (vmap_ g) k) as [[pos ok] v']. cbn [fst snd] in HL, Hv.
  injection HL as <- <-. subst v'. destruct g. reflexivity.
Qed.

(** ** Construction *)

Lemma vget_newShardedStore k : vget newShardedStore k = None.
Proof. apply vget_None, load_newShardedStore. Qed.

Lemma NewGravity_rep `{Runtime} m s :
  16 < len m -> len m < maxLen ->
  exists g, NewGravity m s = Some (Some g, None, s) /\ rep g [Gap m] /\ key g = 1.
Proof.
  intros Hlo Hhi. pose proof maxLen_eq as HM. pose proof two64_eq as H64.
  pose proof top_eq as HT.
  unfold NewGravity, HeaderLen, KeyLen.
  destruct (Z.leb_spec (len m) (8 + 8)); [lia|].
  rewrite wrap64_small by lia.
  assert (HSz : Size (mkFS 0 (len m - 1)) = len m).
  { rewrite Size_interval; cbn [Start End]; lia. }
  unfold add. rewrite HSz. destruct (Z.leb_spec (len m) 0); [lia|].
  cbn [fsm newFSM root Insert mbind option_bind totalFreeSpace extractedFreeSpaces].
  rewrite Z.add_0_l, wrap64_small by lia.
  eexists. split; [reflexivity|]. split; [|reflexivity].
  constructor; cbn [mem size fsm vmap_ key setFsm root totalFreeSpace
                      extractedFreeSpaces inorder app frees recs gaps_ok].
  - unfold flat. simpl. rewrite app_nil_r. reflexivity.
  - reflexivity.
  - exact Hhi.
  - repeat split; auto. intros ->. rewrite len_nil in Hlo. lia.
  - rewrite Z.add_0_l. reflexivity.
  - unfold sumSizes. simpl. rewrite Z.add_0_l, Z.add_0_r.
    replace (mkFS 0 (len m - 1)) with (mkFS 0 (len m - 1)) by reflexivity.
    symmetry. exact HSz.
  - reflexivity.
  - intros k p. rewrite vget_newShardedStore. split; [discriminate|].
    intros Hin. apply elem_of_nil in Hin. contradiction.
  - constructor.
  - intros k p Hin. apply elem_of_nil in Hin. contradiction.
  - lia.
  - apply newShardedStore_buckets.
Qed.

Lemma NewGravity_too_small `{Runtime} m s :
  len m <= 16 -> NewGravity m s = Some (None, Some errInputTooSmall, s).
Proof.
  intros Hle. unfold NewGravity, HeaderLen, KeyLen.
  destruct (Z.leb_spec (len m) (8 + 8)); [reflexivity|lia].
Qed.

(** ** Extraction of a bundle *)

Lemma sumSizes_nil_root t :
  sizeOf t = None -> inorder t = [].
Proof. destruct t; [reflexivity|discriminate]. Qed.

Lemma poolExtract_fail `{Runtime} g segs total :
  rep g segs -> sumSizes (frees 0 segs) < total ->
  poolExtract (fsm g) total = Some (fsm g, inr NotEnoughSpace).
Proof.
  intros R Hlt. unfold poolExtract. rewrite (rep_ext _ _ R).
  rewrite andb_false_r.
  destruct (sizeOf (root (fsm g))) as [rs|] eqn:E; [|reflexivity].
  rewrite (rep_total _ _ R).
  destruct (Z.ltb_spec (sumSizes (frees 0 segs)) total); [reflexivity|lia].
Qed.

Lemma poolExtract_ok `{Runtime} g segs total :
  rep g segs -> 0 < total -> total <= sumSizes (frees 0 segs) ->
  exists A fss B nr,
    frees 0 segs = A ++ fss ++ B /\ fss <> [] /\
    poolExtract (fsm g) total =
      Some (mkFSM nr (sumSizes (frees 0 segs) - sumSizes fss) 1, inl fss) /\
    inorder nr = A ++ B /\ total <= sumSizes fss.
Proof.
  intros R Hpos Hle. pose proof (rep_treap_ok g segs R) as Hok.
  unfold poolExtract. rewrite (rep_ext _ _ R), andb_false_r.
  destruct (sizeOf (root (fsm g))) as [rs|] eqn:E.
  2:{ apply sumSizes_nil_root in E. rewrite (rep_tree _ _ R) in E.
      rewrite E in Hle. unfold sumSizes in Hle. simpl in Hle. lia. }
  rewrite (rep_total _ _ R).
  destruct (Z.ltb_spec (sumSizes (frees 0 segs)) total); [lia|].
  assert (Hne : root (fsm g) <> Nil) by (intros En; rewrite En in E; discriminate).
  destruct (GreatestGravityNode_spec (root (fsm g))
              (if rs <? total then 0 else total) Hne) as (i & f & G & Hi & _).
  rewrite G. cbn [mbind option_bind].
  destruct (GetFittingNeighbours_spec (root (fsm g)) (-1) top i f total Hok)
    as (A & fss & B & nr & EL & Rn & I & S & Hn & _); auto; try lia.
  { rewrite (rep_tree _ _ R). exact Hle. }
  rewrite Rn. cbn [mbind option_bind].
  rewrite (rep_tree _ _ R) in EL.
  exists A, fss, B, nr. split; [exact EL|]. split.
  { intros ->. apply elem_of_nil in Hn. exact Hn. }
  split; [|split; [exact I|exact S]].
  f_equal. f_equal. f_equal.
  apply wrap64_small. rewrite EL, !sumSizes_app.
  pose proof (sumSizes_nonneg A). pose proof (sumSizes_nonneg B).
  pose proof (sumSizes_nonneg fss).
  pose proof (sumSizes_lt_two64 _ _ _ Hok ltac:(lia) ltac:(lia)) as Hlt.
  rewrite (rep_tree _ _ R), EL, !sumSizes_app in Hlt. lia.
Qed.
Import treap gravity.

(** ** Moving records: [readAndShift] and [merge] *)

Lemma slice_at (a b c : list byte) lo hi :
  lo = len a -> hi = len a + len b -> slice (a ++ b ++ c) lo hi = Some b.
Proof. intros -> ->. apply slice_mid. Qed.

Lemma writeBytes_at (a r src : list byte) pos :
  pos = len a ->
  writeBytes (a ++ r) pos src = a ++ src ++ drop (length src) r.
Proof.
  intros ->. unfold writeBytes, len. rewrite Nat2Z.id.
  rewrite take_app_length. f_equal. f_equal.
  rewrite drop_app_ge by lia. f_equal. lia.
Qed.

Lemma recRun_app a b : recRun (a ++ b) = recRun a ++ recRun b.
Proof. apply map_app. Qed.

Lemma payloads_recRun kds : payloads (recRun kds) = kds.
Proof.
  induction kds as [|[k d] r IH]; [reflexivity|]. simpl. rewrite IH. reflexivity.
Qed.

Lemma frees_recRun kds : forall off, frees off (recRun kds) = [].
Proof. induction kds as [|[k d] r IH]; intros off; [reflexivity|]. simpl. apply IH. Qed.

Lemma gaps_ok_recRun kds b : gaps_ok b (recRun kds).
Proof.
  revert b. induction kds as [|[k d] r IH]; intros b; [exact I|]. simpl. apply IH.
Qed.

Lemma length_le_flen_run kds : Z.of_nat (length kds) <= flen (recRun kds).
Proof.
  induction kds as [|[k d] r IH]; [cbn [recRun map length]; rewrite flen_nil; lia|].
  change (recRun ((k, d) :: r)) with (Rec k d :: recRun r).
  rewrite flen_cons, len_enc_Rec. pose proof (len_nonneg d).
  cbn [length]. lia.
Qed.

(** A layout whose first gap is known: it starts with a run of records. *)
Lemma split_first_gap segs : forall off f R,
  frees off segs = f :: R ->
  exists kds bs post,
    segs = recRun kds ++ Gap bs :: post /\
    f = mkFS (off + flen (recRun kds)) (off + flen (recRun kds) + len bs - 1) /\
    R = frees (off + flen (recRun kds) + len bs) post.
Proof.
  induction segs as [|[k d|bs] r IH]; intros off f R E.
  - discriminate.
  - cbn [frees] in E. destruct (IH _ _ _ E) as (kds & bs & post & -> & -> & ->).
    exists ((k, d) :: kds), bs, post.
    change (recRun ((k, d) :: kds)) with (Rec k d :: recRun kds).
    rewrite flen_cons. split; [reflexivity|].
    split; f_equal; lia.
  - cbn [frees] in E. injection E as <- <-.
    exists [], bs, r. cbn [recRun map app]. rewrite flen_nil.
    split; [reflexivity|]. split; f_equal; lia.
Qed.

(** A layout split at one of its gaps. *)
Lemma split_gap_at segs : forall off A f R,
  frees off segs = A ++ f :: R ->
  exists pre bs post,
    segs = pre ++ Gap bs :: post /\ frees off pre = A /\
    f = mkFS (off + flen pre) (off + flen pre + len bs - 1) /\
    frees (off + flen pre + len bs) post = R.
Proof.
  induction segs as [|[k d|bs] r IH]; intros off A f R E.
  - destruct A; discriminate.
  - cbn [frees] in E. destruct (IH _ _ _ _ E) as (pre & bs & post & -> & HA & -> & HR).
    exists (Rec k d :: pre), bs, post. rewrite flen_cons.
    split; [reflexivity|]. split; [exact HA|].
    split; [f_equal; lia|]. rewrite <- HR. f_equal. lia.
  - cbn [frees] in E. destruct A as [|a A].
    + injection E as <- <-. exists [], bs, r. rewrite flen_nil.
      split; [reflexivity|]. split; [reflexivity|].
      split; f_equal; lia.
    + injection E as <- E.
      destruct (IH _ _ _ _ E) as (pre & bs' & post & -> & HA & -> & HR).
      exists (Gap bs :: pre), bs', post. rewrite flen_cons. cbn [enc].
      split; [reflexivity|]. split; [cbn [frees]; rewrite HA; reflexivity|].
      split; [f_equal; lia|]. rewrite <- HR. f_equal. lia.
Qed.

Lemma setVmap_id g : setVmap g (vmap_ g) = g.
Proof. destruct g; reflexivity. Qed.

Lemma Uint64_PutUint64_app v (r : list byte) :
  0 <= v < 2 ^ 64 -> Uint64 (PutUint64 v) = v.
Proof. intros. apply Uint64_PutUint64. assumption. Qed.

(** The loop of [readAndShift] over a run of records registers each of
    them at its new offset. *)
Lemma shiftKeys_run kds : forall fuel g X Y dst running,
  mem g = X ++ flat (recRun kds) ++ Y ->
  size g = len (mem g) -> size g < maxLen ->
  (length kds <= fuel)%nat ->
  Forall (fun e => 0 <= fst e < 2 ^ 64) kds ->
  0 <= dst -> 0 <= running -> dst + running + flen (recRun kds) <= size g ->
  shiftKeys fuel g (len X) (len X + flen (recRun kds)) dst running =
  Some (setVmap g (shiftStore (vmap_ g) (dst + running) kds)).
Proof.
  pose proof maxLen_eq as HM. pose proof two64_eq as H64.
  induction kds as [|[k d] r IH]; intros fuel g X Y dst running Hm Hs Hmax Hf Hk Hd Hr Hb.
  - cbn [recRun map]. rewrite flen_nil, Z.add_0_r. destruct fuel; cbn [shiftKeys];
      rewrite Z.ltb_irrefl; cbn [shiftStore]; rewrite setVmap_id; reflexivity.
  - change (recRun ((k, d) :: r)) with (Rec k d :: recRun r) in *.
    rewrite flen_cons, len_enc_Rec in *. rewrite flat_cons in Hm.
    pose proof (len_nonneg d) as Hd0. pose proof (len_nonneg X) as HX0.
    pose proof (flen_nonneg (recRun r)) as Hr0.
    apply Forall_cons in Hk as [Hk0 Hk]. cbn [fst] in Hk0.
    assert (Hlen : len (mem g) = len X + (16 + len d) + flen (recRun r) + len Y).
    { rewrite Hm, !len_app, len_enc_Rec. unfold flen. lia. }
    pose proof (len_nonneg Y) as HY0.
    destruct fuel as [|fuel]; [cbn [length] in Hf; lia|].
    cbn [shiftKeys].
    destruct (Z.ltb_spec (len X) (len X + (16 + len d + flen (recRun r)))); [|lia].
    unfold HeaderLen, KeyLen.
    rewrite !wrap64_small by lia.
    destruct (Z.gtb_spec (len X + 8 + 8) (size g)); [lia|].
    cbn [enc] in Hm.
    assert (E1 : slice (mem g) (len X) (len X + 8) = Some (PutUint64 (len d))).
    { rewrite Hm, <- !app_assoc. apply slice_at; [reflexivity|].
      rewrite len_PutUint64. reflexivity. }
    rewrite E1. cbn [mbind option_bind].
    assert (E2 : slice (mem g) (len X + 8) (len X + 8 + 8) = Some (PutUint64 k)).
    { rewrite Hm, <- !app_assoc.
      rewrite (app_assoc X (PutUint64 (len d))).
      apply slice_at; rewrite ?len_app, !len_PutUint64; reflexivity. }
    rewrite E2. cbn [mbind option_bind].
    rewrite !Uint64_PutUint64 by lia.
    rewrite !wrap64_small by lia.
    replace (len X + (len d + 8 + 8)) with (len (X ++ enc (Rec k d)))
      by (rewrite len_app, len_enc_Rec; lia).
    replace (len X + (16 + len d + flen (recRun r)))
      with (len (X ++ enc (Rec k d)) + flen (recRun r))
      by (rewrite len_app, len_enc_Rec; lia).
    rewrite (IH fuel _ (X ++ enc (Rec k d)) Y dst (running + (len d + 8 + 8))).
    + cbn [shiftStore fst snd vmap_ setVmap mem fsm size key]. f_equal.
      unfold setVmap. cbn [mem fsm size key]. f_equal. f_equal. lia.
    + cbn [mem setVmap]. rewrite Hm. cbn [enc]. rewrite <- !app_assoc. reflexivity.
    + exact Hs.
    + exact Hmax.
    + cbn [length] in Hf. lia.
    + exact Hk.
    + exact Hd.
    + lia.
    + cbn [size setVmap]. lia.
Qed.
Import treap gravity.

Lemma elem_of_map_fst {A} (k : Z) (l : list (Z * A)) :
  k ∈ map fst l <-> exists p, (k, p) ∈ l.
Proof.
  split.
  - intros Hin. apply list_elem_of_fmap in Hin as ([k' p] & -> & Hin).
    exists p. exact Hin.
  - intros (p & Hin). eapply elem_fst, Hin.
Qed.

Lemma keys_recs_recRun kds off : map fst (recs off (recRun kds)) = map fst kds.
Proof. rewrite keys_recs_payloads, payloads_recRun. reflexivity. Qed.

Lemma shiftStore_buckets kds : forall v dst,
  (forall i, 0 <= i < maxBucket -> is_Some (v !! i)) ->
  forall i, 0 <= i < maxBucket -> is_Some (shiftStore v dst kds !! i).
Proof.
  induction kds as [|e r IH]; intros v dst Hb i Hi; [apply Hb, Hi|].
  cbn [shiftStore]. apply IH; [|exact Hi].
  intros j Hj. apply store_keeps_buckets, Hb, Hj.
Qed.

(** The key map after a run has been registered again: the keys of the run
    point into the moved run, the others are untouched. *)
Lemma vget_shiftStore kds : forall v dst k p,
  (forall i, 0 <= i < maxBucket -> is_Some (v !! i)) ->
  Forall (fun e => 0 <= fst e < 2 ^ 64) kds ->
  NoDup (map fst kds) ->
  vget (shiftStore v dst kds) k = Some p <->
  (k, p) ∈ recs dst (recRun kds) \/ ((k ∉ map fst kds) /\ vget v k = Some p).
Proof.
  induction kds as [|[k0 d0] r IH]; intros v dst k p Hb Hk Hnd.
  - cbn [shiftStore recRun map recs]. split.
    + intros Hv. right. split; [apply not_elem_of_nil|exact Hv].
    + intros [Hin|[_ Hv]]; [apply elem_of_nil in Hin; contradiction|exact Hv].
  - apply Forall_cons in Hk as [Hk0 Hk]. cbn [fst] in Hk0.
    cbn [map fst] in Hnd. apply NoDup_cons in Hnd as [Hnot Hnd].
    cbn [shiftStore fst snd].
    change (recRun ((k0, d0) :: r)) with (Rec k0 d0 :: recRun r).
    cbn [recs]. rewrite len_enc_Rec.
    rewrite IH; [|intros j Hj; apply store_keeps_buckets, Hb, Hj|exact Hk|exact Hnd].
    rewrite vget_store by (apply Hb, bucketIdx_range; lia).
    cbn [map fst]. rewrite elem_of_cons, not_elem_of_cons.
    destruct (decide (k = k0)) as [->|Hne].
    + split.
      * intros [Hin|[_ E]].
        -- exfalso. apply Hnot. rewrite <- (keys_recs_recRun r (dst + (16 + len d0))).
           apply elem_of_map_fst. eauto.
        -- injection E as <-. left. left. reflexivity.
      * intros [[E|Hin]|[[Hc _] _]].
        -- injection E as ->. right. split; [exact Hnot|reflexivity].
        -- left. exact Hin.
        -- contradiction.
    + split.
      * intros [Hin|[Hn E]]; [left; right; exact Hin|].
        right. split; [split; assumption|exact E].
      * intros [[E|Hin]|[[_ Hn] E]].
        -- injection E as -> _. contradiction.
        -- left. exact Hin.
        -- right. split; assumption.
Qed.

Lemma slice_ok (m : list byte) lo hi :
  0 <= lo -> lo <= hi -> hi <= len m ->
  exists x, slice m lo hi = Some x /\ len x = hi - lo.
Proof.
  intros H0 H1 H2. unfold slice.
  destruct (Z.leb_spec 0 lo); [|lia].
  destruct (Z.leb_spec lo hi); [|lia].
  destruct (Z.leb_spec hi (len m)); [|lia].
  cbn [andb]. eexists. split; [reflexivity|].
  unfold len in *. rewrite length_take, length_drop. lia.
Qed.

(** [readAndShift] on a gap followed by a run of records: the run moves to
    the start of the gap, the gap follows it, and the run's keys follow
    the run. *)
Lemma readAndShift_run g P bs kds Y :
  mem g = P ++ bs ++ flat (recRun kds) ++ Y ->
  size g = len (mem g) -> size g < maxLen ->
  Forall (fun e => 0 <= fst e < 2 ^ 64) kds ->
  readAndShift g (len P + len bs) (len P + len bs + flen (recRun kds))
               (len P) (len P + flen (recRun kds)) =
  Some (mkGravity
          (P ++ flat (recRun kds) ++
             drop (length (flat (recRun kds))) (bs ++ flat (recRun kds)) ++ Y)
          (fsm g) (size g) (key g) (shiftStore (vmap_ g) (len P) kds)).
Proof.
  intros Hm Hs Hmax Hk. pose proof maxLen_eq as HM.
  pose proof (len_nonneg P) as HP0. pose proof (len_nonneg bs) as Hb0.
  pose proof (len_nonneg Y) as HY0.
  pose proof (flen_nonneg (recRun kds)) as Hr0.
  assert (Hlen : len (mem g) = len P + len bs + flen (recRun kds) + len Y).
  { rewrite Hm, !len_app. unfold flen. lia. }
  unfold readAndShift.
  replace (len P + len bs) with (len (P ++ bs)) by apply len_app.
  rewrite (shiftKeys_run kds _ g (P ++ bs) Y (len P) 0).
  2:{ rewrite Hm, <- app_assoc. reflexivity. }
  2:{ exact Hs. }
  2:{ exact Hmax. }
  2:{ pose proof (length_le_flen_run kds). unfold len in Hlen.
      unfold len in *. lia. }
  2:{ exact Hk. }
  2:{ lia. }
  2:{ lia. }
  2:{ lia. }
  cbn [mbind option_bind mem setVmap]. rewrite Z.add_0_r.
  destruct (slice_ok (mem g) (len P) (len P + flen (recRun kds)))
    as (dstS & Ed & Ld); try lia.
  rewrite Ed. cbn [mbind option_bind].
  assert (Es : slice (mem g) (len (P ++ bs)) (len (P ++ bs) + flen (recRun kds))
               = Some (flat (recRun kds))).
  { rewrite Hm, (app_assoc P bs). apply slice_at; reflexivity. }
  rewrite Es. cbn [mbind option_bind]. f_equal.
  unfold copy. cbn [fst]. unfold setMem. cbn [mem fsm size key vmap_].
  f_equal.
  replace (Z.min (len dstS) (len (flat (recRun kds)))) with (len (flat (recRun kds)))
    by (unfold flen in Ld; lia).
  rewrite take_len, Hm.
  rewrite (writeBytes_at P _ (flat (recRun kds)) (len P) eq_refl).
  f_equal. f_equal.
  rewrite (app_assoc bs). rewrite drop_app_le; [reflexivity|].
  rewrite length_app. lia.
Qed.

Lemma len_drop_run (bs r : list byte) :
  len (drop (length r) (bs ++ r)) = len bs.
Proof. unfold len. rewrite length_drop, length_app. lia. Qed.

Lemma recs_shift_off segs : forall off off',
  off = off' -> recs off segs = recs off' segs.
Proof. intros off off' ->. reflexivity. Qed.

(** The layout after a run has moved in front of the gap before it. *)
Lemma lay_shift g pre bs kds Hb post2 G2 :
  lay g (pre ++ Gap bs :: recRun kds ++ Gap Hb :: post2) ->
  len G2 = len bs + len Hb ->
  lay (mkGravity (flat (pre ++ recRun kds ++ Gap G2 :: post2))
                 (fsm g) (size g) (key g)
                 (shiftStore (vmap_ g) (flen pre) kds))
      (pre ++ recRun kds ++ Gap G2 :: post2).
Proof.
  intros L HG.
  assert (HP : payloads (pre ++ Gap bs :: recRun kds ++ Gap Hb :: post2)
               = payloads pre ++ kds ++ payloads post2).
  { rewrite payloads_app. cbn [payloads]. rewrite payloads_app, payloads_recRun.
    reflexivity. }
  assert (HP' : payloads (pre ++ recRun kds ++ Gap G2 :: post2)
               = payloads pre ++ kds ++ payloads post2).
  { rewrite !payloads_app, payloads_recRun. reflexivity. }
  pose proof (lay_nodup _ _ L) as Hnd. rewrite HP in Hnd.
  rewrite !map_app in Hnd.
  apply NoDup_app in Hnd as (Hnd1 & Hd1 & Hnd2).
  apply NoDup_app in Hnd2 as (HndK & Hd2 & Hnd3).
  assert (Hkeys : Forall (fun e => 0 <= fst e < 2 ^ 64) kds).
  { apply Forall_forall. intros [k d] Hin. cbn [fst].
    pose proof (lay_keys _ _ L k d) as Hk. rewrite HP in Hk.
    pose proof (lay_key _ _ L).
    assert (2 <= k < key g); [|lia].
    apply Hk. rewrite !elem_of_app. right. left. exact Hin. }
  constructor; cbn [mem size key vmap_ fsm].
  - reflexivity.
  - rewrite (lay_size _ _ L), (lay_mem _ _ L).
    change (len (flat ?x)) with (flen x).
    rewrite !flen_app, !flen_cons, !flen_app, !flen_cons. cbn [enc]. lia.
  - apply (lay_max _ _ L).
  - intros k p.
    rewrite vget_shiftStore; [|apply (lay_buckets _ _ L)|exact Hkeys|exact HndK].
    rewrite (lay_vmap _ _ L).
    rewrite !recs_app. cbn [recs]. rewrite !recs_app. cbn [recs].
    rewrite !elem_of_app, !Z.add_0_l.
    rewrite (recs_shift_off post2 (flen pre + len bs + flen (recRun kds) + len Hb)
                            (flen pre + flen (recRun kds) + len G2)) by lia.
    split.
    + intros [Hin|[Hn [Hin|[Hin|Hin]]]].
      * right. left. exact Hin.
      * left. exact Hin.
      * exfalso. apply Hn. rewrite <- (keys_recs_recRun kds (flen pre + len bs)).
        apply elem_of_map_fst. eauto.
      * right. right. exact Hin.
    + intros [Hin|[Hin|Hin]].
      * right. split; [|left; exact Hin].
        intros Hk. apply (Hd1 k).
        -- rewrite <- (keys_recs_payloads pre 0). apply elem_of_map_fst. eauto.
        -- apply elem_of_app. left. exact Hk.
      * left. exact Hin.
      * right. split; [|right; right; exact Hin].
        intros Hk. apply (Hd2 k Hk).
        rewrite <- (keys_recs_payloads post2 (flen pre + flen (recRun kds) + len G2)).
        apply elem_of_map_fst. eauto.
  - rewrite HP'. rewrite <- HP. apply (lay_nodup _ _ L).
  - intros k d. rewrite HP', <- HP. apply (lay_keys _ _ L).
  - apply (lay_key _ _ L).
  - apply shiftStore_buckets, (lay_buckets _ _ L).
Qed.
Import treap gravity.

Lemma lay_flen g segs : lay g segs -> flen segs = size g /\ size g < maxLen.
Proof.
  intros L. split; [|apply (lay_max _ _ L)].
  rewrite (lay_size _ _ L), (lay_mem _ _ L). reflexivity.
Qed.

(** [merge] on a bundle of consecutive gaps: the records between them move
    to the front, in order, and the gaps become one gap behind them. *)
Lemma mergeLoop_spec rest : forall g pre bs post B,
  lay g (pre ++ Gap bs :: post) ->
  gaps_ok false pre -> bs <> [] -> gaps_ok true post ->
  frees (flen pre + len bs) post = rest ++ B ->
  exists g' pre' bs' post',
    mergeLoop g (mkFS (flen pre) (flen pre + len bs - 1)) rest =
      Some (g', mkFS (flen pre') (flen pre' + len bs' - 1)) /\
    lay g' (pre' ++ Gap bs' :: post') /\
    gaps_ok false pre' /\ gaps_ok true post' /\
    frees (flen pre' + len bs') post' = B /\
    frees 0 pre' = frees 0 pre /\ flen pre <= flen pre' /\
    len bs' = len bs + sumSizes rest /\
    payloads (pre' ++ post') = payloads (pre ++ post) /\
    fsm g' = fsm g /\ key g' = key g /\ size g' = size g.
Proof.
  pose proof maxLen_eq as HM. pose proof two64_eq as H64. pose proof top_eq as HT.
  induction rest as [|nfs rest' IH]; intros g pre bs post B L Gpre Hbs Gpost HF.
  - exists g, pre, bs, post. cbn [mergeLoop]. unfold sumSizes. cbn [foldr].
    repeat (split; [first [reflexivity|assumption|lia]|]).
    reflexivity.
  - cbn [app] in HF.
    destruct (split_first_gap _ _ _ _ HF) as (kds & Hb & post2 & -> & -> & HR).
    apply gaps_ok_app in Gpost as [_ Gp2]. cbn [gaps_ok] in Gp2.
    destruct Gp2 as (_ & HHb & Gp2).
    destruct (lay_flen _ _ L) as [Hfl Hmax].
    rewrite flen_app, flen_cons, flen_app, flen_cons in Hfl. cbn [enc] in Hfl.
    pose proof (flen_nonneg pre) as Hp0. pose proof (flen_nonneg post2) as Hp20.
    pose proof (flen_nonneg (recRun kds)) as Hr0.
    pose proof (len_pos _ Hbs) as Hb0. pose proof (len_pos _ HHb) as HH0.
    set (G' := drop (length (flat (recRun kds))) (bs ++ flat (recRun kds))).
    assert (HG' : len G' = len bs) by apply len_drop_run.
    assert (Hkeys : Forall (fun e => 0 <= fst e < 2 ^ 64) kds).
    { apply Forall_forall. intros [k d] Hin. cbn [fst].
      pose proof (lay_keys _ _ L k d) as Hk. pose proof (lay_key _ _ L).
      assert (2 <= k < key g); [|lia]. apply Hk.
      rewrite payloads_app. cbn [payloads]. rewrite payloads_app, payloads_recRun.
      rewrite !elem_of_app. right. left. exact Hin. }
    cbn [mergeLoop Start End].
    replace (flen pre + len bs + flen (recRun kds) - (flen pre + len bs - 1) - 1)
      with (flen (recRun kds)) by lia.
    replace (flen pre + len bs - 1 + 1) with (flen pre + len bs) by lia.
    rewrite (wrap64_small (flen (recRun kds))) by lia.
    rewrite !wrap64_small by lia.
    assert (Hm : mem g = flat pre ++ bs ++ flat (recRun kds) ++ (Hb ++ flat post2)).
    { rewrite (lay_mem _ _ L), flat_app, flat_cons, flat_app, flat_cons.
      reflexivity. }
    pose proof (readAndShift_run g (flat pre) bs kds (Hb ++ flat post2) Hm
                  (lay_size _ _ L) Hmax Hkeys) as HRS.
    fold (flen pre) in HRS. fold G' in HRS. rewrite HRS. cbn [mbind option_bind].
    assert (Hmem' : flat pre ++ flat (recRun kds) ++ G' ++ Hb ++ flat post2
                    = flat (pre ++ recRun kds ++ Gap (G' ++ Hb) :: post2)).
    { rewrite flat_app, flat_app, flat_cons. cbn [enc]. rewrite <- !app_assoc.
      reflexivity. }
    rewrite Hmem'.
    assert (HlG : len (G' ++ Hb) = len bs + len Hb) by (rewrite len_app; lia).
    pose proof (lay_shift g pre bs kds Hb post2 (G' ++ Hb) L HlG) as L1.
    rewrite (app_assoc pre) in L1. rewrite (app_assoc pre). clear HRS.
    set (g1 := mkGravity _ _ _ _ _) in *.
    assert (Gpre1 : gaps_ok false (pre ++ recRun kds)).
    { apply gaps_ok_app. split; [exact Gpre|apply gaps_ok_recRun]. }
    assert (Hbs1 : G' ++ Hb <> []).
    { intros E. rewrite E, len_nil in HlG. lia. }
    assert (HF1 : frees (flen (pre ++ recRun kds) + len (G' ++ Hb)) post2 = rest' ++ B).
    { rewrite HR. f_equal. rewrite flen_app. lia. }
    destruct (IH g1 (pre ++ recRun kds) (G' ++ Hb) post2 B L1 Gpre1 Hbs1 Gp2 HF1)
      as (g' & pre' & bs' & post' & EM & L' & G1 & G2 & F1 & F2 & F3 & F4 & F5 & F6 & F7 & F8).
    exists g', pre', bs', post'.
    split.
    { rewrite <- EM. f_equal. f_equal; rewrite flen_app; lia. }
    split; [exact L'|]. split; [exact G1|]. split; [exact G2|].
    split; [exact F1|].
    split.
    { rewrite F2, frees_app, frees_recRun, app_nil_r. reflexivity. }
    split; [rewrite flen_app in F3; lia|].
    split.
    { rewrite F4, HlG, sumSizes_cons, Size_mk; lia. }
    split.
    { rewrite F5, !payloads_app. cbn [payloads]. rewrite <- ?app_assoc.
      reflexivity. }
    split; [rewrite F6; reflexivity|].
    split; [rewrite F7; reflexivity|rewrite F8; reflexivity].
Qed.

Lemma split_four (bs : list byte) n :
  0 <= n -> 16 + n <= len bs ->
  exists b1 b2 b3,
    bs = b1 ++ b2 ++ b3 ++ drop (Z.to_nat (16 + n)) bs /\
    len b1 = 8 /\ len b2 = 8 /\ len b3 = n.
Proof.
  intros Hn Hle. unfold len in *.
  exists (take 8 bs), (take 8 (drop 8 bs)), (take (Z.to_nat n) (drop 16 (drop 0 bs))).
  split.
  - rewrite drop_0.
    replace (Z.to_nat (16 + n)) with (16 + Z.to_nat n)%nat by lia.
    rewrite <- (drop_drop bs (Z.to_nat n) 16), take_drop.
    replace 16%nat with (8 + 8)%nat by reflexivity.
    rewrite <- (drop_drop bs 8 8), take_drop, take_drop. reflexivity.
  - rewrite !length_take, !length_drop. lia.
Qed.

(** [writeAt] into a gap that is large enough lays the record out at the
    start of the gap. *)
Lemma writeAt_gap g P bs Y data k :
  mem g = P ++ bs ++ Y -> size g = len (mem g) -> size g < maxLen ->
  16 + len data <= len bs ->
  writeAt g (len P) data k =
  Some (setMem g (P ++ enc (Rec k data) ++
                    drop (Z.to_nat (16 + len data)) bs ++ Y), None).
Proof.
  intros Hm Hs Hmax Hfit. pose proof maxLen_eq as HM. pose proof two64_eq as H64.
  pose proof (len_nonneg data) as Hd0. pose proof (len_nonneg P) as HP0.
  pose proof (len_nonneg Y) as HY0.
  destruct (split_four bs (len data) Hd0 Hfit) as (b1 & b2 & b3 & Eb & L1 & L2 & L3).
  set (b4 := drop (Z.to_nat (16 + len data)) bs) in *.
  assert (Hlen : len (mem g) = len P + len bs + len Y) by (rewrite Hm, !len_app; lia).
  rewrite Eb in Hm. rewrite <- !app_assoc in Hm.
  unfold writeAt, HeaderLen, KeyLen.
  rewrite !wrap64_small by lia.
  destruct (slice_ok (mem g) (len P) (len P + 8)) as (x1 & E1 & _); try lia.
  rewrite E1. cbn [mbind option_bind].
  assert (M1 : writeBytes (mem g) (len P) (PutUint64 (len data))
               = P ++ PutUint64 (len data) ++ b2 ++ b3 ++ b4 ++ Y).
  { rewrite Hm. apply writeBytes_mid. rewrite length_PutUint64.
    unfold len in L1. lia. }
  rewrite M1.
  assert (E2 : slice (P ++ PutUint64 (len data) ++ b2 ++ b3 ++ b4 ++ Y)
                     (len P + 8) (len P + 8 + 8) = Some b2).
  { rewrite (app_assoc P). apply slice_at; rewrite len_app, len_PutUint64; lia. }
  rewrite E2. cbn [mbind option_bind].
  assert (M2 : writeBytes (P ++ PutUint64 (len data) ++ b2 ++ b3 ++ b4 ++ Y)
                          (len P + 8) (PutUint64 k)
               = P ++ PutUint64 (len data) ++ PutUint64 k ++ b3 ++ b4 ++ Y).
  { rewrite (app_assoc P).
    replace (len P + 8) with (len (P ++ PutUint64 (len data)))
      by (rewrite len_app, len_PutUint64; lia).
    rewrite writeBytes_mid; [rewrite <- app_assoc; reflexivity|].
    rewrite length_PutUint64. unfold len in L2. lia. }
  rewrite M2.
  assert (E3 : slice (P ++ PutUint64 (len data) ++ PutUint64 k ++ b3 ++ b4 ++ Y)
                     (len P + 8 + 8) (len P + 8 + 8 + len data) = Some b3).
  { rewrite (app_assoc (PutUint64 (len data))), (app_assoc P).
    apply slice_at; rewrite !len_app, !len_PutUint64; lia. }
  rewrite E3. cbn [mbind option_bind]. unfold copy.
  rewrite L3, Z.min_id, take_len, Z.eqb_refl.
  f_equal. f_equal. f_equal.
  rewrite (app_assoc (PutUint64 (len data))), (app_assoc P).
  replace (len P + 8 + 8) with (len (P ++ PutUint64 (len data) ++ PutUint64 k))
    by (rewrite !len_app, !len_PutUint64; lia).
  rewrite writeBytes_mid by (unfold len in L3; lia).
  cbn [enc]. rewrite <- !app_assoc. reflexivity.
Qed.
Import treap gravity.

(** ** Write against the layout *)

Lemma payloads_recs_elem segs k d :
  (k, d) ∈ payloads segs -> exists p, (k, p) ∈ recs 0 segs.
Proof.
  intros Hin. apply payloads_elem in Hin as (pre & post & ->).
  exists (0 + flen pre). apply recs_elem. exists pre, d, post. split; reflexivity.
Qed.

Lemma recs_payloads_elem segs off k p :
  (k, p) ∈ recs off segs -> exists d, (k, d) ∈ payloads segs.
Proof.
  intros Hin. apply recs_elem in Hin as (pre & d & post & -> & _).
  exists d. apply payloads_elem. exists pre, post. reflexivity.
Qed.

Lemma rep_lay g segs t :
  rep g segs -> key g + 1 < 2 ^ 64 ->
  lay (setFsm (setKey g (key g + 1)) t) segs.
Proof.
  intros R Hk. constructor; cbn [mem size key vmap_ fsm setFsm setKey].
  - apply (rep_mem _ _ R).
  - apply (rep_size _ _ R).
  - apply (rep_max _ _ R).
  - apply (rep_vmap _ _ R).
  - rewrite <- (keys_recs_payloads segs 0). apply (rep_nodup _ _ R).
  - intros k d Hin. apply payloads_recs_elem in Hin as (p & Hin).
    pose proof (rep_keys _ _ R k p Hin). lia.
  - exact Hk.
  - apply (rep_buckets _ _ R).
Qed.

Lemma setFsm_id g : setFsm g (fsm g) = g.
Proof. destruct g; reflexivity. Qed.

(** A write that finds too little free space draws a key and changes
    nothing else. *)
Lemma Write_fail `{Runtime} g segs data s :
  rep g segs -> len data < maxLen ->
  sumSizes (frees 0 segs) < 16 + len data ->
  Write g data s =
  Some (setKey g (wrap64 (key g + 1)), wrap64 (key g + 1), Some NotEnoughSpace, s).
Proof.
  intros R Hd Hlt. pose proof maxLen_eq. pose proof two64_eq.
  pose proof (len_nonneg data).
  unfold Write, getKey, write, HeaderLen, KeyLen.
  rewrite (wrap64_small (8 + 8 + len data)) by lia.
  assert (R' : rep (setKey g (key g)) segs) by (destruct g; exact R).
  change (fsm (setKey g (wrap64 (key g + 1)))) with (fsm g).
  rewrite (poolExtract_fail g segs (8 + 8 + len data) R) by lia.
  cbn [mbind option_bind].
  rewrite <- (setFsm_id (setKey g (wrap64 (key g + 1)))) at 2. reflexivity.
Qed.

Lemma rep_setKey g segs k :
  rep g segs -> key g <= k < 2 ^ 64 -> rep (setKey g k) segs.
Proof.
  intros R Hk. pose proof (rep_key _ _ R).
  constructor; cbn [mem size key vmap_ fsm setKey];
    try (apply R).
  - intros k' p Hin. pose proof (rep_keys _ _ R k' p Hin). lia.
  - lia.
Qed.

Lemma sep_drop_mids m : forall lo hi l1 l2,
  sep lo hi (l1 ++ m ++ l2) -> sep lo hi (l1 ++ l2).
Proof.
  induction m as [|f m IH]; intros lo hi l1 l2 Hs; [exact Hs|].
  apply IH. eapply sep_drop_mid. exact Hs.
Qed.

Lemma flat_tailGap x post : flat (tailGap x ++ post) = x ++ flat post.
Proof. destruct x; [reflexivity|]. cbn [tailGap app]. apply flat_cons. Qed.

Lemma flen_tailGap x post : flen (tailGap x ++ post) = len x + flen post.
Proof. unfold flen. rewrite flat_tailGap. apply len_app. Qed.

Lemma gaps_ok_tailGap x post : gaps_ok true post -> gaps_ok false (tailGap x ++ post).
Proof.
  intros Hp. destruct x as [|b x].
  - cbn [tailGap app]. apply gaps_ok_false, Hp.
  - cbn [tailGap app gaps_ok]. repeat split; [discriminate|exact Hp].
Qed.

Lemma recs_tailGap x post off :
  recs off (tailGap x ++ post) = recs (off + len x) post.
Proof.
  destruct x as [|b x].
  - cbn [tailGap app]. rewrite len_nil, Z.add_0_r. reflexivity.
  - reflexivity.
Qed.

Lemma payloads_tailGap x post : payloads (tailGap x ++ post) = payloads post.
Proof. destruct x; reflexivity. Qed.

Lemma frees_tailGap x post off :
  frees off (tailGap x ++ post) =
  match x with
  | [] => frees off post
  | _ => mkFS off (off + len x - 1) :: frees (off + len x) post
  end.
Proof. destruct x; reflexivity. Qed.

Lemma Size_empty a b : b < a -> Size (mkFS a b) = 0.
Proof. intros. unfold Size. cbn [Start End]. destruct (Z.gtb_spec a b); [reflexivity|lia]. Qed.

Lemma len_drop (bs : list byte) n :
  0 <= n <= len bs -> len (drop (Z.to_nat n) bs) = len bs - n.
Proof. intros. unfold len in *. rewrite length_drop. lia. Qed.

(** The arena once the record is written, the key registered and the
    rest of the gap handed back. *)
Lemma write_rep g2 pre' bs' post' data k t' :
  lay g2 (pre' ++ Gap bs' :: post') -> key g2 = k -> 2 <= k ->
  gaps_ok false pre' -> gaps_ok true post' ->
  16 + len data <= len bs' ->
  let x := drop (Z.to_nat (16 + len data)) bs' in
  let segs' := pre' ++ Rec k data :: tailGap x ++ post' in
  inorder (root t') = frees 0 segs' ->
  totalFreeSpace t' = sumSizes (frees 0 segs') ->
  extractedFreeSpaces t' = 0 ->
  rep (setFsm (setVmap (setMem g2 (flat segs')) (store (vmap_ g2) k (flen pre'))) t')
      segs'.
Proof.
  intros L Hk Hk2 Gpre Gpost Hfit x segs' Htree Htot Hext.
  pose proof (len_nonneg data) as Hd0.
  assert (Hx : len x = len bs' - (16 + len data)) by (apply len_drop; lia).
  assert (HP : payloads (pre' ++ Gap bs' :: post') = payloads pre' ++ payloads post').
  { rewrite payloads_app. reflexivity. }
  assert (HP' : payloads segs' = payloads pre' ++ (k, data) :: payloads post').
  { unfold segs'. rewrite payloads_app. cbn [payloads]. rewrite payloads_tailGap.
    reflexivity. }
  assert (Hold : forall k' p, (k', p) ∈ recs 0 (pre' ++ Gap bs' :: post') ->
                              2 <= k' < k).
  { intros k' p Hin. apply recs_payloads_elem in Hin as (d & Hin).
    rewrite <- Hk. apply (lay_keys _ _ L k' d Hin). }
  assert (HR' : recs 0 segs' =
                recs 0 pre' ++ (k, flen pre') :: recs (flen pre' + len bs') post').
  { unfold segs'. rewrite recs_app. cbn [recs]. rewrite recs_tailGap, len_enc_Rec.
    rewrite Z.add_0_l. f_equal. f_equal. f_equal. lia. }
  assert (HR : recs 0 (pre' ++ Gap bs' :: post') =
               recs 0 pre' ++ recs (flen pre' + len bs') post').
  { rewrite recs_app. cbn [recs]. rewrite Z.add_0_l. reflexivity. }
  constructor; cbn [mem size key vmap_ fsm setFsm setVmap setMem].
  - reflexivity.
  - rewrite (lay_size _ _ L), (lay_mem _ _ L).
    change (len (flat ?a)) with (flen a). unfold segs'.
    rewrite !flen_app, !flen_cons, flen_tailGap, len_enc_Rec. cbn [enc]. lia.
  - apply (lay_max _ _ L).
  - unfold segs'. apply gaps_ok_app. split; [exact Gpre|].
    cbn [gaps_ok]. apply gaps_ok_tailGap, Gpost.
  - exact Htree.
  - exact Htot.
  - exact Hext.
  - intros k' p. rewrite vget_store by (apply (lay_buckets _ _ L), bucketIdx_range; lia).
    rewrite HR'. rewrite elem_of_app, elem_of_cons.
    destruct (decide (k' = k)) as [->|Hne].
    + split.
      * intros E. injection E as <-. right. left. reflexivity.
      * intros [Hin|[E|Hin]].
        -- exfalso. assert (2 <= k < k); [|lia]. apply (Hold k p).
           rewrite HR. apply elem_of_app. left. exact Hin.
        -- injection E as ->. reflexivity.
        -- exfalso. assert (2 <= k < k); [|lia]. apply (Hold k p).
           rewrite HR. apply elem_of_app. right. exact Hin.
    + rewrite (lay_vmap _ _ L), HR, elem_of_app. split.
      * intros [Hin|Hin]; [left|right; right]; exact Hin.
      * intros [Hin|[E|Hin]]; [left; exact Hin| |right; exact Hin].
        injection E as -> _. contradiction.
  - rewrite (keys_recs_payloads segs' 0), HP', map_app. cbn [map fst].
    rewrite <- Permutation_middle. apply NoDup_cons. split.
    + rewrite <- map_app, <- HP. intros Hin.
      apply elem_of_map_fst in Hin as (d & Hin).
      pose proof (lay_keys _ _ L k d Hin). lia.
    + rewrite <- map_app, <- HP. apply (lay_nodup _ _ L).
  - intros k' p. rewrite HR', elem_of_app, elem_of_cons. rewrite Hk.
    intros [Hin|[E|Hin]].
    + assert (2 <= k' < k); [|lia]. apply (Hold k' p). rewrite HR.
      apply elem_of_app. left. exact Hin.
    + injection E as -> _. lia.
    + assert (2 <= k' < k); [|lia]. apply (Hold k' p). rewrite HR.
      apply elem_of_app. right. exact Hin.
  - pose proof (lay_key _ _ L). lia.
  - intros i Hi. apply store_keeps_buckets, (lay_buckets _ _ L), Hi.
Qed.

(** A write that finds the space stores the record: the new layout holds
    the records of the old one, in their order, and the new record. *)
Lemma Write_ok `{Runtime} g segs data s :
  rep g segs -> len data < maxLen -> key g + 1 < 2 ^ 64 ->
  16 + len data <= sumSizes (frees 0 segs) ->
  exists g' s' segs',
    Write g data s = Some (g', key g + 1, None, s') /\
    rep g' segs' /\ key g' = key g + 1 /\ size g' = size g /\
    payloads segs' ≡ₚ (key g + 1, data) :: payloads segs.
Proof.
  intros R Hd Hkey Hfit.
  pose proof maxLen_eq as HM. pose proof two64_eq as H64. pose proof top_eq as HT.
  pose proof (len_nonneg data) as Hd0. pose proof (rep_key _ _ R) as Hk1.
  set (total := 8 + 8 + len data).
  destruct (poolExtract_ok g segs total R ltac:(unfold total; lia)
              ltac:(unfold total; lia))
    as (A & fss & B & nr & EL & Hne & PE & I & S).
  destruct fss as [|f0 rest]; [contradiction|]. clear Hne.
  cbn [app] in EL.
  destruct (split_gap_at segs 0 A f0 (rest ++ B) EL)
    as (pre & bs & post & Esegs & HA & Ef0 & HB).
  rewrite !Z.add_0_l in *.
  pose proof (rep_gaps _ _ R) as Hg. rewrite Esegs in Hg.
  apply gaps_ok_app in Hg as [Gpre Hg]. cbn [gaps_ok] in Hg.
  destruct Hg as (_ & Hbs & Gpost).
  set (t := mkFSM nr (sumSizes (frees 0 segs) - sumSizes (f0 :: rest)) 1) in *.
  pose proof (rep_lay g segs t R Hkey) as L. rewrite Esegs in L.
  destruct (mergeLoop_spec rest _ pre bs post B L Gpre Hbs Gpost HB)
    as (g2 & pre' & bs' & post' & EM & L2 & Gpre' & Gpost' & HB' & HA' & Hfl
        & Hlen & Hpay & Hfsm & Hkey2 & Hsz2).
  cbn [fsm key size setFsm setKey] in Hfsm, Hkey2, Hsz2.
  destruct (lay_flen _ _ L2) as [Hfl2 Hmax2].
  rewrite flen_app, flen_cons in Hfl2. cbn [enc] in Hfl2.
  pose proof (flen_nonneg pre) as Hp0. pose proof (flen_nonneg pre') as Hp0'.
  pose proof (flen_nonneg post') as Hq0'. pose proof (len_pos _ Hbs) as Hbs0.
  assert (HSz0 : Size f0 = len bs).
  { rewrite Ef0. rewrite Size_mk; try lia.
    destruct (lay_flen _ _ L) as [Hf _].
    rewrite flen_app, flen_cons in Hf. cbn [enc] in Hf.
    pose proof (flen_nonneg post). cbn [size setFsm setKey] in Hf.
    pose proof (rep_max _ _ R). lia. }
  assert (Hsum : sumSizes (f0 :: rest) = len bs').
  { rewrite sumSizes_cons, HSz0, Hlen. reflexivity. }
  assert (Hfit' : 16 + len data <= len bs') by (rewrite <- Hsum; unfold total in S; lia).
  (* the call *)
  unfold Write, getKey, write, HeaderLen, KeyLen.
  rewrite (wrap64_small (key g + 1)) by lia.
  rewrite (wrap64_small (8 + 8 + len data)) by lia.
  change (fsm (setKey g (key g + 1))) with (fsm g).
  fold total. rewrite PE. cbn [mbind option_bind merge].
  fold t. rewrite Ef0, EM. cbn [mbind option_bind Start End].
  assert (Hm2 : mem g2 = flat pre' ++ bs' ++ flat post').
  { rewrite (lay_mem _ _ L2), flat_app, flat_cons. reflexivity. }
  pose proof (writeAt_gap g2 (flat pre') bs' (flat post') data (key g + 1) Hm2
                (lay_size _ _ L2) Hmax2 Hfit') as HW.
  fold (flen pre') in HW. rewrite HW. clear HW. cbn [mbind option_bind].
  set (x := drop (Z.to_nat (16 + len data)) bs').
  assert (Hx : len x = len bs' - (16 + len data)) by (apply len_drop; lia).
  set (segs' := pre' ++ Rec (key g + 1) data :: tailGap x ++ post').
  set (m3 := flat pre' ++ enc (Rec (key g + 1) data) ++ x ++ flat post').
  assert (Hm3 : m3 = flat segs').
  { unfold m3, segs'. rewrite flat_app, flat_cons, flat_tailGap. reflexivity. }
  cbn [fsm setVmap setMem vmap_ mem size key]. rewrite Hfsm.
  rewrite (wrap64_small (flen pre' + total)) by (unfold total; lia).
  set (fs' := mkFS (flen pre' + total) (flen pre' + len bs' - 1)).
  set (v3 := store (vmap_ g2) (key g + 1) (flen pre')).
  (* facts about the final layout shared by both cases *)
  assert (HsumL : sumSizes (frees 0 segs) = sumSizes A + len bs' + sumSizes B).
  { rewrite EL, sumSizes_app, sumSizes_cons, sumSizes_app, HSz0, Hlen. lia. }
  pose proof (sumSizes_nonneg A) as HA0. pose proof (sumSizes_nonneg B) as HB0.
  pose proof (rep_sep g segs R) as Hsep. rewrite EL in Hsep.
  assert (HsepAB : sep (-1) (size g) (A ++ B)).
  { apply (sep_drop_mids (f0 :: rest)). exact Hsep. }
  pose proof (rep_max _ _ R) as Hmax.
  rewrite Hm3.
  assert (HPerm : payloads segs' ≡ₚ (key g + 1, data) :: payloads segs).
  { unfold segs'. rewrite payloads_app. cbn [payloads]. rewrite payloads_tailGap.
    rewrite <- Permutation_middle. apply Permutation_skip.
    rewrite Esegs, <- payloads_app, Hpay, !payloads_app. reflexivity. }
  assert (HAb : forall e, e ∈ A -> Start e <= End e /\ End e < flen pre').
  { intros e He. rewrite <- HA, <- HA' in He.
    pose proof (frees_bounds pre' false 0 e Gpre' ltac:(lia) He). lia. }
  assert (HBb : forall h, h ∈ B -> flen pre' + len bs' + 16 <= Start h).
  { intros h Hh. rewrite <- HB' in Hh.
    apply (frees_no_gap_start post' _ h Gpost'); [lia|exact Hh]. }
  assert (HFA : frees 0 pre' = A) by (rewrite HA'; exact HA).
  assert (HF' : frees 0 segs' =
                A ++ match x with
                     | [] => B
                     | _ => fs' :: B
                     end).
  { unfold segs'. rewrite frees_app, HFA. f_equal. cbn [frees].
    rewrite frees_tailGap, len_enc_Rec, Z.add_0_l.
    destruct x as [|b x'] eqn:Ex.
    - rewrite len_nil in Hx. rewrite <- HB'. f_equal. lia.
    - unfold fs', total. rewrite <- HB'. f_equal; [f_equal; lia|f_equal; lia]. }
  assert (Htot0 : totalFreeSpace t = sumSizes A + sumSizes B).
  { unfold t. cbn [totalFreeSpace]. rewrite HsumL, Hsum. lia. }
  pose proof (sumSizes_bound _ _ _ Hsep ltac:(lia) ltac:(lia)) as Hbound.
  rewrite <- EL, HsumL in Hbound.
  unfold poolPut. change (extractedFreeSpaces t) with 1.
  change (wrap_int32 (1 - 1)) with 0. cbn [Z.ltb Z.compare].
  change (root t) with nr. cbn [root totalFreeSpace].
  destruct (Z.leb_spec (Size fs') 0) as [Hz|Hnz].
  - (* the record fills the gap *)
    assert (Hx0 : x = []).
    { destruct (Z.lt_ge_cases (flen pre' + len bs' - 1) (flen pre' + total)) as [Hlt|Hge].
      - assert (len x = 0) by (unfold total in Hlt; lia).
        destruct x; [reflexivity|]. unfold len in *. cbn [length] in *. lia.
      - unfold fs' in Hz. rewrite Size_mk in Hz; unfold total in *; lia. }
    cbn [mbind option_bind].
    eexists _, s, segs'. split; [reflexivity|].
    split; [|split; [cbn [key setFsm setVmap setMem]; exact Hkey2|
      split; [cbn [size setFsm setVmap setMem]; exact Hsz2|exact HPerm]]].
    apply (write_rep g2 pre' bs' post' data (key g + 1)); try assumption; try lia.
    + cbn [root]. fold x. fold segs'. rewrite HF', Hx0. exact I.
    + cbn [totalFreeSpace]. fold x. fold segs'. rewrite HF', Hx0, sumSizes_app.
      exact Htot0.
    + reflexivity.
  - (* the rest of the gap goes back to the tree *)
    assert (Hxpos : 0 < len x).
    { destruct (Z.lt_ge_cases 0 (len x)) as [Hlt|Hge]; [exact Hlt|].
      unfold fs' in Hnz. rewrite Size_empty in Hnz; unfold total; lia. }
    assert (HSz' : Size fs' = len x).
    { unfold fs'. rewrite Size_mk; unfold total; lia. }
    assert (Hxne : match x with [] => B | _ => fs' :: B end = fs' :: B).
    { destruct x; [rewrite len_nil in Hxpos; lia|reflexivity]. }
    rewrite Hxne in HF'.
    destruct (Insert_spec nr (-1) (size g) fs' s) as (t'' & s' & EI & HI).
    { rewrite I. exact HsepAB. }
    { lia. }
    { lia. }
    { unfold interval, fs'. cbn [Start End]. unfold total. lia. }
    { unfold fs'. cbn [Start]. unfold total. lia. }
    { unfold fs'. cbn [End]. lia. }
    { rewrite I. apply Forall_app. split; apply Forall_forall.
      - intros e He. right. destruct (HAb e He). unfold fs'. cbn [Start].
        unfold total. lia.
      - intros h Hh. left. pose proof (HBb h Hh). unfold fs'. cbn [End]. lia. }
    rewrite EI. cbn [mbind option_bind].
    assert (HI' : inorder t'' = A ++ fs' :: B).
    { rewrite HI, I. rewrite ins_skip.
      - f_equal. apply ins_far. intros h Hh. pose proof (HBb h Hh).
        unfold fs'. cbn [End]. lia.
      - unfold fs'. cbn [Start End]. unfold total. lia.
      - apply Forall_forall. intros e He. destruct (HAb e He). unfold fs'.
        cbn [Start]. unfold total. lia. }
    eexists _, s', segs'. split; [reflexivity|].
    split; [|split; [cbn [key setFsm setVmap setMem]; exact Hkey2|
      split; [cbn [size setFsm setVmap setMem]; exact Hsz2|exact HPerm]]].
    apply (write_rep g2 pre' bs' post' data (key g + 1)); try assumption; try lia.
    + cbn [root]. fold x. fold segs'. rewrite HF'. exact HI'.
    + cbn [totalFreeSpace]. fold x. fold segs'.
      rewrite HF', sumSizes_app, sumSizes_cons, Htot0, HSz'.
      rewrite wrap64_small by lia. lia.
    + reflexivity.
Qed.
Import treap gravity.

(** ** Sequences of operations *)

Lemma filter_all {A} (P : A -> Prop) `{forall x, Decision (P x)} (l : list A) :
  Forall P l -> filter P l = l.
Proof.
  induction 1 as [|x l Hx _ IH]; [reflexivity|].
  rewrite filter_cons. destruct (decide (P x)); [|contradiction].
  rewrite IH. reflexivity.
Qed.

Lemma dropKey_mid (l1 : list (Z * list byte)) k d l2 :
  NoDup (map fst (l1 ++ (k, d) :: l2)) ->
  dropKey k (l1 ++ (k, d) :: l2) = l1 ++ l2.
Proof.
  intros Hnd. apply NoDup_fst_mid in Hnd as (_ & H1 & H2). cbn [fst] in H1, H2.
  unfold dropKey. rewrite filter_app, filter_cons. cbn [fst].
  destruct (decide (k <> k)) as [Hc|_]; [contradiction|].
  rewrite !filter_all; [reflexivity| |].
  - apply Forall_forall. intros [k' d'] Hin. cbn [fst]. intros ->.
    apply H2. eapply elem_fst, Hin.
  - apply Forall_forall. intros [k' d'] Hin. cbn [fst]. intros ->.
    apply H1. eapply elem_fst, Hin.
Qed.

Lemma dropKey_perm k (l l' : list (Z * list byte)) :
  l ≡ₚ l' -> dropKey k l ≡ₚ dropKey k l'.
Proof. intros Hp. unfold dropKey. rewrite Hp. reflexivity. Qed.

Lemma sumSpans_perm (l l' : list (Z * list byte)) :
  l ≡ₚ l' -> sumSpans l = sumSpans l'.
Proof.
  induction 1 as [|x l l' _ IH|x y l|l l' l'' _ IH1 _ IH2]; unfold sumSpans in *;
    cbn [foldr]; try lia; congruence.
Qed.

Lemma keys_perm (l l' : list (Z * list byte)) :
  l ≡ₚ l' -> forall k, k ∈ map fst l <-> k ∈ map fst l'.
Proof.
  intros Hp k. rewrite !elem_of_map_fst. split; intros (d & Hin); exists d.
  - rewrite <- Hp. exact Hin.
  - rewrite Hp. exact Hin.
Qed.

(** The gaps and the records of a layout make up its length. *)
Lemma cover_layout segs : forall b off,
  gaps_ok b segs -> 0 <= off -> off + flen segs < top ->
  sumSizes (frees off segs) + sumSpans (payloads segs) = flen segs.
Proof.
  induction segs as [|[k d|bs] r IH]; intros b off Hg Hoff Hhi.
  - rewrite flen_nil. reflexivity.
  - rewrite flen_cons, len_enc_Rec in *. cbn [frees payloads gaps_ok] in *.
    pose proof (len_nonneg d). pose proof (flen_nonneg r).
    unfold sumSpans in *. cbn [foldr]. unfold spanOf at 1. cbn [snd].
    rewrite len_enc_Rec.
    specialize (IH false (off + (16 + len d)) Hg ltac:(lia) ltac:(lia)). lia.
  - rewrite flen_cons in *. cbn [enc frees payloads gaps_ok] in *.
    destruct Hg as (_ & Hne & Hg). pose proof (len_pos _ Hne).
    pose proof (flen_nonneg r).
    rewrite sumSizes_cons, Size_mk by lia.
    specialize (IH true (off + len bs) Hg ltac:(lia) ltac:(lia)). lia.
Qed.

Lemma rep_cover g segs :
  rep g segs ->
  TotalFreeSpace g = Some (totalFreeSpace (fsm g)) /\
  totalFreeSpace (fsm g) + sumSpans (payloads segs) = len (mem g).
Proof.
  intros R. split.
  - unfold TotalFreeSpace, totalFreeSpaceSize. rewrite (rep_ext _ _ R). reflexivity.
  - rewrite (rep_total _ _ R). pose proof (rep_flen g segs R) as Hf.
    pose proof (rep_max _ _ R). pose proof maxLen_eq. pose proof top_eq.
    rewrite <- (rep_size _ _ R), <- Hf.
    apply (cover_layout segs false 0 (rep_gaps _ _ R)); lia.
Qed.

(** One operation on an arena at rest leaves an arena at rest. *)
Lemma step_rep `{Runtime} g segs s live o :
  rep g segs -> payloads segs ≡ₚ live -> op_ok o -> key g + 1 < 2 ^ 64 ->
  exists g' s' live' segs',
    step (g, s, live) o = Some (g', s', live') /\
    rep g' segs' /\ payloads segs' ≡ₚ live' /\
    key g' <= key g + 1 /\ size g' = size g.
Proof.
  intros R HP Hok Hkey. pose proof (rep_key _ _ R) as Hk1.
  pose proof two64_eq as H64.
  destruct o as [data|k|k]; cbn [step op_ok] in *.
  - destruct (Z.lt_ge_cases (sumSizes (frees 0 segs)) (16 + len data)) as [Hlt|Hge].
    + rewrite (Write_fail g segs data s R Hok Hlt). cbn [mbind option_bind].
      rewrite wrap64_small by lia.
      exists (setKey g (key g + 1)), s, live, segs.
      split; [reflexivity|]. split; [apply rep_setKey; [exact R|lia]|].
      split; [exact HP|]. cbn [key size setKey]. lia.
    + destruct (Write_ok g segs data s R Hok Hkey Hge)
        as (g' & s' & segs' & EW & R' & Hk' & Hs' & HP').
      rewrite EW. cbn [mbind option_bind].
      exists g', s', ((key g + 1, data) :: live), segs'.
      split; [reflexivity|]. split; [exact R'|].
      split; [rewrite HP', HP; reflexivity|]. split; [lia|exact Hs'].
  - exists g, s, live, segs.
    destruct (decide (k ∈ map fst (payloads segs))) as [Hin|Hnin].
    + apply elem_of_map_fst in Hin as (d & Hin).
      apply payloads_elem in Hin as (pre & post & E).
      rewrite (Read_live g segs pre k d post R E). cbn [mbind option_bind].
      split; [reflexivity|]. split; [exact R|]. split; [exact HP|].
      split; [lia|reflexivity].
    + rewrite (Read_dead g segs k R Hnin). cbn [mbind option_bind].
      split; [reflexivity|]. split; [exact R|]. split; [exact HP|].
      split; [lia|reflexivity].
  - destruct (decide (k ∈ map fst (payloads segs))) as [Hin|Hnin].
    + apply elem_of_map_fst in Hin as (d & Hin).
      apply payloads_elem in Hin as (pre & post & E).
      destruct (Free_live g segs pre k d post s R E) as (g' & s' & EF & R' & Hk').
      rewrite EF. cbn [mbind option_bind].
      exists g', s', (dropKey k live), (freeAt pre k d post).
      split; [reflexivity|]. split; [exact R'|]. split.
      * rewrite payloads_freeAt, <- (dropKey_perm k _ _ HP), E, payloads_app.
        cbn [payloads]. rewrite dropKey_mid; [reflexivity|].
        change (payloads pre ++ (k, d) :: payloads post)
          with (payloads pre ++ payloads (Rec k d :: post)).
        rewrite <- (payloads_app pre (Rec k d :: post)), <- E.
        rewrite <- (keys_recs_payloads segs 0). apply (rep_nodup _ _ R).
      * split; [lia|].
        rewrite (rep_size _ _ R'), (rep_mem _ _ R'), flat_freeAt, <- E.
        rewrite <- (rep_mem _ _ R), <- (rep_size _ _ R). reflexivity.
    + rewrite (Free_dead g segs k s R Hnin). cbn [mbind option_bind].
      exists g, s, live, segs. split; [reflexivity|]. split; [exact R|]. split; [exact HP|].
      split; [lia|reflexivity].
Qed.

Lemma run_rep `{Runtime} ops : forall g segs s live,
  rep g segs -> payloads segs ≡ₚ live -> Forall op_ok ops ->
  key g + Z.of_nat (length ops) < 2 ^ 64 ->
  exists g' s' live' segs',
    run (g, s, live) ops = Some (g', s', live') /\
    rep g' segs' /\ payloads segs' ≡ₚ live' /\ size g' = size g /\
    key g' <= key g + Z.of_nat (length ops).
Proof.
  induction ops as [|o ops IH]; intros g segs s live R HP Hok Hkey.
  - exists g, s, live, segs. cbn [run length].
    split; [reflexivity|]. split; [exact R|]. split; [exact HP|].
    split; [reflexivity|lia].
  - apply Forall_cons in Hok as [Ho Hok]. cbn [length] in Hkey.
    destruct (step_rep g segs s live o R HP Ho ltac:(lia))
      as (g1 & s1 & live1 & segs1 & ES & R1 & HP1 & Hk1 & Hs1).
    destruct (IH g1 segs1 s1 live1 R1 HP1 Hok ltac:(lia))
      as (g' & s' & live' & segs' & ER & R' & HP' & Hs' & Hk').
    exists g', s', live', segs'. cbn [run]. rewrite ES. cbn [mbind option_bind].
    split; [exact ER|]. split; [exact R'|]. split; [exact HP'|].
    split; [rewrite Hs', Hs1; reflexivity|cbn [length]; lia].
Qed.

(** Every session over a buffer of more than sixteen bytes runs to its
    end, and ends in an arena at rest whose layout holds the live
    records. *)
Lemma session_rep `{Runtime} m ops s :
  16 < len m -> len m < maxLen -> Forall op_ok ops ->
  Z.of_nat (length ops) + 1 < 2 ^ 64 ->
  exists g s' live segs,
    session m ops s = Some (g, s', live) /\
    rep g segs /\ payloads segs ≡ₚ live /\ len (mem g) = len m /\
    key g <= 1 + Z.of_nat (length ops).
Proof.
  intros Hlo Hhi Hok Hn.
  destruct (NewGravity_rep m s Hlo Hhi) as (g0 & EN & R0 & Hk0).
  destruct (run_rep ops g0 [Gap m] s [] R0 ltac:(reflexivity) Hok ltac:(lia))
    as (g & s' & live & segs & ER & R & HP & Hs & Hk).
  exists g, s', live, segs. unfold session. rewrite EN.
  split; [exact ER|]. split; [exact R|]. split; [exact HP|].
  split; [|lia].
  rewrite <- (rep_size _ _ R), Hs, (rep_size _ _ R0), (rep_mem _ _ R0).
  unfold flat. cbn [flat_map enc]. rewrite app_nil_r. reflexivity.
Qed.
Import treap gravity.

(** ** Properties of whole sessions *)

(** X1. A session over a buffer of more than sixteen bytes runs to its
    end whatever the operations are: no slice goes out of range, neither
    panic of the source (moving beyond the size in readAndShift, size not
    satisfied in GetFittingNeighbours) is reached, and no call waits for a
    bundle to come back. At the end the buffer has the length it had, the
    size field still is that length, and no bundle is checked out. *)
Theorem session_runs_to_end `{Runtime} m ops s :
  16 < len m -> len m < maxLen -> Forall op_ok ops ->
  Z.of_nat (length ops) + 1 < 2 ^ 64 ->
  exists g s' live,
    session m ops s = Some (g, s', live) /\
    len (mem g) = len m /\ size g = len m /\
    extractedFreeSpaces (fsm g) = 0.
Proof.
  intros Hlo Hhi Hok Hn.
  destruct (session_rep m ops s Hlo Hhi Hok Hn)
    as (g & s' & live & segs & E & R & _ & Hm & _).
  exists g, s', live. split; [exact E|]. split; [exact Hm|].
  split; [rewrite (rep_size _ _ R); exact Hm|apply (rep_ext _ _ R)].
Qed.

(** X2. Round trip over a session: every record written successfully and
    not freed since is read back with exactly its payload, whatever
    writes, frees and relocations by merge came in between. *)
Theorem session_round_trip `{Runtime} m ops s :
  16 < len m -> len m < maxLen -> Forall op_ok ops ->
  Z.of_nat (length ops) + 1 < 2 ^ 64 ->
  exists g s' live,
    session m ops s = Some (g, s', live) /\
    forall k d, (k, d) ∈ live -> Read g k = Some (d, None).
Proof.
  intros Hlo Hhi Hok Hn.
  destruct (session_rep m ops s Hlo Hhi Hok Hn)
    as (g & s' & live & segs & E & R & HP & _).
  exists g, s', live. split; [exact E|].
  intros k d Hin. rewrite <- HP in Hin.
  apply payloads_elem in Hin as (pre & post & Es).
  exact (Read_live g segs pre k d post R Es).
Qed.

(** X3. After a session a key that is not live (never returned by a
    successful write, or freed since) is unknown to the arena: Read and
    Free both fail with WrongReadPosition, and the failed Free leaves the
    arena as it was. *)
Theorem session_absent_key_rejected `{Runtime} m ops s :
  16 < len m -> len m < maxLen -> Forall op_ok ops ->
  Z.of_nat (length ops) + 1 < 2 ^ 64 ->
  exists g s' live,
    session m ops s = Some (g, s', live) /\
    forall k, k ∉ map fst live ->
      Read g k = Some ([], Some WrongReadPosition) /\
      forall s1, Free g k s1 = Some (g, Some WrongReadPosition, s1).
Proof.
  intros Hlo Hhi Hok Hn.
  destruct (session_rep m ops s Hlo Hhi Hok Hn)
    as (g & s' & live & segs & E & R & HP & _).
  exists g, s', live. split; [exact E|].
  intros k Hk.
  assert (Hk' : k ∉ map fst (payloads segs)).
  { intros Hin. apply Hk. apply (keys_perm _ _ HP). exact Hin. }
  split; [exact (Read_dead g segs k R Hk')|].
  intros s1. exact (Free_dead g segs k s1 R Hk').
Qed.

(** X4. Cover over a session: at the end the spans (sixteen bytes of
    header and key plus the payload) of the live records and the total
    free space add up to the length of the buffer, and TotalFreeSpace
    returns without waiting. *)
Theorem session_cover `{Runtime} m ops s :
  16 < len m -> len m < maxLen -> Forall op_ok ops ->
  Z.of_nat (length ops) + 1 < 2 ^ 64 ->
  exists g s' live t,
    session m ops s = Some (g, s', live) /\
    TotalFreeSpace g = Some t /\ t + sumSpans live = len m.
Proof.
  intros Hlo Hhi Hok Hn.
  destruct (session_rep m ops s Hlo Hhi Hok Hn)
    as (g & s' & live & segs & E & R & HP & Hm & _).
  destruct (rep_cover g segs R) as [HT HC].
  exists g, s', live, (totalFreeSpace (fsm g)).
  split; [exact E|]. split; [exact HT|].
  rewrite <- (sumSpans_perm _ _ HP), HC. exact Hm.
Qed.

(** X5. Key and header agree after a session: wherever the key map sends
    a key, the buffer holds a record of a live payload with that key:
    eight bytes of the payload's length, then the key in little-endian,
    then the payload. *)
Theorem session_key_header_agree `{Runtime} m ops s :
  16 < len m -> len m < maxLen -> Forall op_ok ops ->
  Z.of_nat (length ops) + 1 < 2 ^ 64 ->
  exists g s' live,
    session m ops s = Some (g, s', live) /\
    forall k p, load (vmap_ g) k = (p, true) ->
      slice (mem g) (p + 8) (p + 16) = Some (PutUint64 k) /\
      exists d, (k, d) ∈ live /\
        slice (mem g) p (p + 8) = Some (PutUint64 (len d)) /\
        slice (mem g) (p + 16) (p + 16 + len d) = Some d.
Proof.
  intros Hlo Hhi Hok Hn.
  destruct (session_rep m ops s Hlo Hhi Hok Hn)
    as (g & s' & live & segs & E & R & HP & _).
  exists g, s', live. split; [exact E|].
  intros k p Hl. apply vget_Some in Hl. apply (rep_vmap _ _ R) in Hl.
  apply recs_elem in Hl as (pre & d & post & Es & ->).
  rewrite Z.add_0_l. pose proof (rep_mem_at g segs R pre k d post Es) as Hm.
  split.
  - rewrite Hm, (app_assoc (flat pre)).
    apply slice_at; rewrite len_app, !len_PutUint64; unfold flen; lia.
  - exists d. split.
    + rewrite <- HP. apply payloads_elem. exists pre, post. exact Es.
    + split.
      * rewrite Hm. apply slice_at; [reflexivity|].
        rewrite len_PutUint64. reflexivity.
      * rewrite Hm, (app_assoc (PutUint64 (len d))), (app_assoc (flat pre)).
        apply slice_at; rewrite !len_app, !len_PutUint64; unfold flen; lia.
Qed.

(** X6. After a session a write succeeds exactly when the total free
    space is at least the span of the record: however the free space is
    scattered, merge makes the room; with less free space the write fails
    with NotEnoughSpace and hands back the arena with only the key counter
    advanced. *)
Theorem session_write_succeeds_iff_room `{Runtime} m ops s :
  16 < len m -> len m < maxLen -> Forall op_ok ops ->
  Z.of_nat (length ops) + 2 < 2 ^ 64 ->
  exists g s' live t,
    session m ops s = Some (g, s', live) /\
    TotalFreeSpace g = Some t /\
    forall data, len data < maxLen ->
      (16 + len data <= t ->
       exists g' s'', Write g data s' = Some (g', key g + 1, None, s'') /\
                      Read g' (key g + 1) = Some (data, None)) /\
      (t < 16 + len data ->
       Write g data s' =
         Some (setKey g (key g + 1), key g + 1, Some NotEnoughSpace, s')).
Proof.
  intros Hlo Hhi Hok Hn.
  destruct (session_rep m ops s Hlo Hhi Hok ltac:(lia))
    as (g & s' & live & segs & E & R & HP & Hm & Hk).
  destruct (rep_cover g segs R) as [HT _].
  pose proof (rep_key _ _ R) as Hk1. pose proof two64_eq as H64.
  exists g, s', live, (totalFreeSpace (fsm g)).
  split; [exact E|]. split; [exact HT|].
  intros data Hd. rewrite (rep_total _ _ R). split.
  - intros Hfit.
    destruct (Write_ok g segs data s' R Hd ltac:(lia) Hfit)
      as (g' & s'' & segs' & EW & R' & _ & _ & HP').
    exists g', s''. split; [exact EW|].
    assert (Hin : (key g + 1, data) ∈ payloads segs').
    { rewrite HP'. left. }
    apply payloads_elem in Hin as (pre & post & Es).
    exact (Read_live g' segs' pre _ data post R' Es).
  - intros Hlt. rewrite (Write_fail g segs data s' R Hd Hlt).
    rewrite wrap64_small by lia. reflexivity.
Qed.

(** X7. After a session the live keys are pairwise distinct, none is
    below 2, and none is above the key counter, which has advanced by at
    most one per operation from its initial value 1. *)
Theorem session_live_keys_distinct `{Runtime} m ops s :
  16 < len m -> len m < maxLen -> Forall op_ok ops ->
  Z.of_nat (length ops) + 1 < 2 ^ 64 ->
  exists g s' live,
    session m ops s = Some (g, s', live) /\
    NoDup (map fst live) /\
    (forall k, k ∈ map fst live -> 2 <= k <= key g) /\
    key g <= 1 + Z.of_nat (length ops).
Proof.
  intros Hlo Hhi Hok Hn.
  destruct (session_rep m ops s Hlo Hhi Hok Hn)
    as (g & s' & live & segs & E & R & HP & _ & Hk).
  exists g, s', live. split; [exact E|]. split.
  - assert (Hp : map fst (payloads segs) ≡ₚ map fst live).
    { apply Permutation_map. exact HP. }
    rewrite <- Hp, <- (keys_recs_payloads segs 0). apply (rep_nodup _ _ R).
  - split; [|exact Hk].
    intros k Hin. apply (keys_perm _ _ HP) in Hin.
    apply elem_of_map_fst in Hin as (d & Hin).
    apply payloads_recs_elem in Hin as (p & Hin).
    exact (rep_keys _ _ R k p Hin).
Qed.

(** X8. After a session the free-space treap holds maximal free runs: its
    intervals are non-empty, lie inside the buffer, come in ascending
    order with at least one byte between any two of them (freed
    neighbours have been joined), and their sizes add up to the tracked
    total. *)
Theorem session_free_intervals_maximal `{Runtime} m ops s :
  16 < len m -> len m < maxLen -> Forall op_ok ops ->
  Z.of_nat (length ops) + 1 < 2 ^ 64 ->
  exists g s' live,
    session m ops s = Some (g, s', live) /\
    sep (-1) (len m) (inorder (root (fsm g))) /\
    (forall f, f ∈ inorder (root (fsm g)) ->
               0 <= Start f /\ Start f <= End f /\ End f < len m) /\
    totalFreeSpace (fsm g) = sumSizes (inorder (root (fsm g))).
Proof.
  intros Hlo Hhi Hok Hn.
  destruct (session_rep m ops s Hlo Hhi Hok Hn)
    as (g & s' & live & segs & E & R & HP & Hm & _).
  exists g, s', live. split; [exact E|].
  pose proof (rep_sep g segs R) as Hs.
  rewrite (rep_size _ _ R), Hm, <- (rep_tree _ _ R) in Hs.
  split; [exact Hs|]. split.
  - intros f Hf. apply sep_Forall in Hs. rewrite Forall_forall in Hs.
    specialize (Hs f Hf). lia.
  - rewrite (rep_total _ _ R), (rep_tree _ _ R). reflexivity.
Qed.

(** X9. After a session, freeing a live key succeeds, gives back exactly
    the span of its record to the total free space, makes the key unknown
    and leaves every other live record readable. *)
Theorem session_free_returns_span `{Runtime} m ops s :
  16 < len m -> len m < maxLen -> Forall op_ok ops ->
  Z.of_nat (length ops) + 1 < 2 ^ 64 ->
  exists g s' live t,
    session m ops s = Some (g, s', live) /\
    TotalFreeSpace g = Some t /\
    forall k d, (k, d) ∈ live ->
      exists g' s'',
        Free g k s' = Some (g', None, s'') /\
        TotalFreeSpace g' = Some (t + 16 + len d) /\
        Read g' k = Some ([], Some WrongReadPosition) /\
        forall k' d', (k', d') ∈ live -> k' <> k ->
                      Read g' k' = Some (d', None).
Proof.
  intros Hlo Hhi Hok Hn.
  destruct (session_rep m ops s Hlo Hhi Hok Hn)
    as (g & s' & live & segs & E & R & HP & Hm & _).
  destruct (rep_cover g segs R) as [HT HC].
  exists g, s', live, (totalFreeSpace (fsm g)).
  split; [exact E|]. split; [exact HT|].
  intros k d Hin. rewrite <- HP in Hin.
  apply payloads_elem in Hin as (pre & post & Es).
  destruct (Free_live g segs pre k d post s' R Es) as (g' & s'' & EF & R' & _).
  destruct (rep_cover g' _ R') as [HT' HC'].
  assert (Hnd : NoDup (map fst (payloads pre ++ (k, d) :: payloads post))).
  { change (payloads pre ++ (k, d) :: payloads post)
      with (payloads pre ++ payloads (Rec k d :: post)).
    rewrite <- payloads_app, <- Es, <- (keys_recs_payloads segs 0).
    apply (rep_nodup _ _ R). }
  apply NoDup_fst_mid in Hnd as (_ & Hk1 & Hk2). cbn [fst] in Hk1, Hk2.
  exists g', s''. split; [exact EF|]. split.
  - rewrite HT'. f_equal.
    assert (Hlen : len (mem g') = len (mem g)).
    { rewrite (rep_mem _ _ R'), flat_freeAt, <- Es, (rep_mem _ _ R). reflexivity. }
    rewrite payloads_freeAt in HC'. rewrite Es, payloads_app in HC.
    cbn [payloads] in HC.
    assert (HS : sumSpans (payloads pre ++ (k, d) :: payloads post)
                 = 16 + len d + sumSpans (payloads pre ++ payloads post)).
    { rewrite <- (sumSpans_perm _ _ (Permutation_middle _ _ _)).
      reflexivity. }
    lia.
  - split.
    + apply (Read_dead g' _ k R'). rewrite payloads_freeAt, map_app.
      intros Hc. apply elem_of_app in Hc as [Hc|Hc]; contradiction.
    + intros k' d' Hin' Hne. rewrite <- HP, Es, payloads_app in Hin'.
      cbn [payloads] in Hin'.
      assert (Hin2 : (k', d') ∈ payloads (freeAt pre k d post)).
      { rewrite payloads_freeAt. apply elem_of_app in Hin' as [Hi|Hi].
        - apply elem_of_app. left. exact Hi.
        - apply elem_of_cons in Hi as [Hi|Hi]; [congruence|].
          apply elem_of_app. right. exact Hi. }
      apply payloads_elem in Hin2 as (pre2 & post2 & Es2).
      exact (Read_live g' _ pre2 k' d' post2 R' Es2).
Qed.
Import treap gravity.

(** ** Properties of single functions *)

(** X10. NewGravity on a buffer of more than sixteen bytes returns an
    arena and no error: the arena holds the buffer as it is, its key
    counter is 1, its treap holds the whole buffer as one free interval,
    the total free space is the length of the buffer and no key is known.
    On a buffer of sixteen bytes or fewer it returns no arena and the
    error of a too small input. *)
Theorem NewGravity_fresh_arena `{Runtime} m s :
  len m < maxLen ->
  (16 < len m ->
   exists g, NewGravity m s = Some (Some g, None, s) /\
     mem g = m /\ size g = len m /\ key g = 1 /\
     inorder (root (fsm g)) = [mkFS 0 (len m - 1)] /\
     TotalFreeSpace g = Some (len m) /\
     forall k, Read g k = Some ([], Some WrongReadPosition)) /\
  (len m <= 16 -> NewGravity m s = Some (None, Some errInputTooSmall, s)).
Proof.
  intros Hhi. split.
  - intros Hlo.
    destruct (NewGravity_rep m s Hlo Hhi) as (g & E & R & Hk).
    destruct (rep_cover g _ R) as [HT HC].
    assert (Hm : mem g = m).
    { rewrite (rep_mem _ _ R). unfold flat. cbn [flat_map enc].
      apply app_nil_r. }
    exists g. split; [exact E|]. split; [exact Hm|].
    split; [rewrite (rep_size _ _ R), Hm; reflexivity|]. split; [exact Hk|].
    split.
    + rewrite (rep_tree _ _ R). cbn [frees]. rewrite Z.add_0_l. reflexivity.
    + split.
      * rewrite HT. f_equal. cbn [payloads] in HC. unfold sumSpans in HC.
        cbn [foldr] in HC. rewrite Hm in HC. lia.
      * intros k. apply (Read_dead g _ k R). cbn [payloads map].
        apply not_elem_of_nil.
  - apply NewGravity_too_small.
Qed.

(** X11. add on a well-formed manager, given a non-empty interval that
    shares no byte with the free intervals held, returns no error: the
    intervals held afterwards are those held before with the new one
    inserted in order and joined with the neighbours it abuts, the manager
    is well-formed again, the tracked total has grown by the size of the
    interval and the extracted count is as before. *)
Theorem add_keeps_manager_ok `{Runtime} t fs s :
  fsm_ok t -> interval fs -> Forall (apart fs) (inorder (root t)) ->
  exists t' s',
    add t fs s = Some (t', None, s') /\
    inorder (root t') = ins fs (inorder (root t)) /\
    fsm_ok t' /\
    totalFreeSpace t' = totalFreeSpace t + Size fs /\
    extractedFreeSpaces t' = extractedFreeSpaces t.
Proof.
  intros [Hok Htot] Hint Hap. pose proof Hint as (Hi0 & Hi1 & Hi2).
  pose proof top_eq as HT. pose proof two64_eq as H64.
  assert (HSz : Size fs = End fs - Start fs + 1) by (apply Size_interval; lia).
  destruct (Insert_spec (root t) (-1) top fs s Hok ltac:(lia) ltac:(lia) Hint
              ltac:(lia) Hi2 Hap) as (r' & s' & EI & HI).
  assert (Hsep' : sep (-1) top (ins fs (inorder (root t)))).
  { apply ins_sep; try assumption; lia. }
  pose proof (ins_sumSizes fs _ _ _ Hok ltac:(lia) ltac:(lia) Hint Hap) as Hsum.
  pose proof (sumSizes_lt_two64 _ _ _ Hsep' ltac:(lia) ltac:(lia)) as Hlt.
  pose proof (sumSizes_nonneg (inorder (root t))) as H0.
  unfold add. destruct (Z.leb_spec (Size fs) 0); [lia|].
  rewrite EI. cbn [mbind option_bind].
  assert (Hw : wrap64 (totalFreeSpace t + Size fs) = totalFreeSpace t + Size fs).
  { apply wrap64_small. rewrite Htot. lia. }
  eexists _, s'. split; [reflexivity|]. cbn [root totalFreeSpace extractedFreeSpaces].
  split; [exact HI|]. split.
  - split; cbn [root totalFreeSpace].
    + unfold treap_ok. rewrite HI. exact Hsep'.
    + rewrite Hw, HI, Hsum, Htot. reflexivity.
  - split; [exact Hw|reflexivity].
Qed.

(** X12. poolPut with no bundle checked out is refused with
    illegalPoolPut; treap and tracked total stay as they are, but the
    extracted count has gone below zero, so that TotalFreeSpace does not
    wait and the next poolPut is refused as well. *)
Theorem poolPut_without_extract `{Runtime} t fs s :
  - 2 ^ 31 < extractedFreeSpaces t <= 0 ->
  poolPut t fs s =
    Some (mkFSM (root t) (totalFreeSpace t) (extractedFreeSpaces t - 1),
          Some illegalPoolPut, s) /\
  totalFreeSpaceSize (mkFSM (root t) (totalFreeSpace t)
                            (extractedFreeSpaces t - 1))
    = Some (totalFreeSpace t).
Proof.
  intros He.
  assert (Hw : wrap_int32 (extractedFreeSpaces t - 1) = extractedFreeSpaces t - 1).
  { unfold wrap_int32.
    rewrite Z.mod_small; [lia|].
    change (2 ^ 31) with 2147483648 in *. change (2 ^ 32) with 4294967296. lia. }
  split.
  - unfold poolPut. rewrite Hw.
    destruct (Z.ltb_spec (extractedFreeSpaces t - 1) 0); [reflexivity|lia].
  - unfold totalFreeSpaceSize. cbn [extractedFreeSpaces totalFreeSpace].
    destruct (Z.gtb_spec (extractedFreeSpaces t - 1) 0); [lia|reflexivity].
Qed.

Lemma ins_back (A B : list FreeSpace) f lo hi :
  sep lo hi (A ++ f :: B) -> ins f (A ++ B) = A ++ f :: B.
Proof.
  intros Hs. apply sep_app in Hs as (HA & Hf & HB).
  rewrite ins_skip.
  - f_equal. apply ins_far. intros h Hh. apply sep_Forall in HB.
    rewrite Forall_forall in HB. specialize (HB h Hh). lia.
  - exact Hf.
  - apply sep_Forall in HA. eapply Forall_impl; [exact HA|].
    intros e He. cbn beta in He. lia.
Qed.

(** X13. Extract, then put back: on a well-formed manager with no bundle
    checked out whose root satisfies the request, poolExtract hands out one
    interval, and poolPut of that interval succeeds and restores the
    intervals held, the tracked total and the extracted count. *)
Theorem extract_then_put_restores `{Runtime} t required_size rs s :
  fsm_ok t -> extractedFreeSpaces t = 0 ->
  sizeOf (root t) = Some rs -> required_size <= rs ->
  exists t1 fs t2 s',
    poolExtract t required_size = Some (t1, inl [fs]) /\
    poolPut t1 fs s = Some (t2, None, s') /\
    inorder (root t2) = inorder (root t) /\
    totalFreeSpace t2 = totalFreeSpace t /\
    extractedFreeSpaces t2 = 0.
Proof.
  intros [Hok Htot] Hext Hrs Hle.
  pose proof top_eq as HT. pose proof two64_eq as H64.
  assert (Hne : root t <> Nil) by (intros E; rewrite E in Hrs; discriminate).
  assert (Hroot_le : rs <= sumSizes (inorder (root t))).
  { destruct (root t) as [|l rfs r]; [discriminate|]. cbn [sizeOf] in Hrs.
    injection Hrs as <-. apply Size_le_sumSizes. cbn [inorder].
    apply elem_of_app. right. left. }
  unfold poolExtract. rewrite Hrs, Hext.
  destruct (Z.ltb_spec rs required_size); [lia|]. cbn [andb orb].
  destruct (Z.ltb_spec (totalFreeSpace t) required_size); [lia|].
  destruct (GreatestGravityNode_spec (root t) required_size Hne)
    as (i & f & G & Hi & Hsz).
  rewrite G. cbn [mbind option_bind].
  specialize (Hsz rs Hrs Hle).
  destruct (GetFittingNeighbours_spec (root t) (-1) top i f required_size Hok)
    as (A & fss & B & nr & EL & R & I & S & Hn & Hone); auto; try lia.
  specialize (Hone Hsz). subst fss. cbn [app] in EL.
  rewrite R. cbn [mbind option_bind].
  assert (Hsum : sumSizes [f] = Size f) by (unfold sumSizes; cbn [foldr]; lia).
  rewrite Hsum.
  assert (Hfin : f ∈ inorder (root t)) by (eapply list_elem_of_lookup_2; eauto).
  pose proof (sep_interval _ _ _ f Hok ltac:(lia) ltac:(lia) Hfin) as Hint.
  pose proof Hint as (Hi0 & Hi1 & Hi2).
  assert (HSz : Size f = End f - Start f + 1) by (apply Size_interval; lia).
  pose proof (Size_le_sumSizes _ _ Hfin) as Hfle.
  pose proof (sumSizes_lt_two64 _ _ _ Hok ltac:(lia) ltac:(lia)) as Hlt.
  unfold treap_ok in Hok. rewrite EL in Hok.
  assert (HsepAB : sep (-1) top (A ++ B)) by (eapply sep_drop_mid; exact Hok).
  assert (Hap : Forall (apart f) (A ++ B)).
  { pose proof Hok as Hs. apply sep_app in Hs as (HA & _ & HB).
    apply Forall_app. split.
    - apply sep_Forall in HA. eapply Forall_impl; [exact HA|].
      intros e He. cbn beta in He. right. lia.
    - apply sep_Forall in HB. eapply Forall_impl; [exact HB|].
      intros e He. cbn beta in He. left. lia. }
  destruct (Insert_spec nr (-1) top f s) as (r2 & s' & EI & HI);
    try (rewrite I); try assumption; try lia.
  eexists _, f, _, s'. split; [reflexivity|].
  unfold poolPut. cbn [extractedFreeSpaces root totalFreeSpace].
  change (wrap_int32 (wrap_int32 (0 + 1) - 1)) with 0. cbn [Z.ltb Z.compare].
  destruct (Z.leb_spec (Size f) 0); [lia|].
  rewrite EI. cbn [mbind option_bind].
  split; [reflexivity|]. cbn [root totalFreeSpace extractedFreeSpaces].
  split.
  - rewrite HI, I, EL. eapply ins_back. exact Hok.
  - split; [|reflexivity].
    rewrite (wrap64_small (totalFreeSpace t - Size f)) by lia.
    rewrite wrap64_small by lia. lia.
Qed.

(** X14. A rotation keeps the in-order sequence of the intervals and the
    number of nodes, and the two rotations undo each other. *)
Theorem rotations_keep_order yl yfs xl xfs xr :
  let y := mkNode yl yfs (mkNode xl xfs xr) in
  let x := mkNode (mkNode yl yfs xl) xfs xr in
  rotateLeft y = x /\ rotateRight x = y /\
  inorder (rotateLeft y) = inorder y /\
  inorder (rotateRight x) = inorder x /\
  CountNodes (rotateLeft y) = CountNodes y /\
  CountNodes (rotateRight x) = CountNodes x.
Proof.
  intros y x. split; [reflexivity|]. split; [reflexivity|].
  split; [apply inorder_rotateLeft|]. split; [apply inorder_rotateRight|].
  split; [apply CountNodes_rotateLeft|apply CountNodes_rotateRight].
Qed.

Lemma sep_filter (P : FreeSpace -> Prop) `{forall f, Decision (P f)} l :
  forall lo hi, sep lo hi l -> sep lo hi (filter P l).
Proof.
  induction l as [|f l IH]; intros lo hi Hs; [exact Hs|].
  destruct Hs as (H1 & H2 & H3). rewrite filter_cons.
  destruct (decide (P f)).
  - cbn [sep]. split; [exact H1|]. split; [exact H2|]. apply IH, H3.
  - eapply sep_weaken; [apply IH, H3|lia|lia].
Qed.

(** X15. Remove on a well-formed treap returns (the fuel of the model is
    enough): the intervals held afterwards are those held before without
    the one asked for, in the same order, the treap is well-formed again,
    and a treap that does not hold the interval keeps its intervals. *)
Theorem Remove_deletes_exactly t x :
  treap_ok t ->
  exists t' dn,
    Remove t x = Some (t', dn) /\
    inorder t' = filter (fun y => y <> x) (inorder t) /\
    treap_ok t' /\ (x ∉ inorder t') /\
    (x ∉ inorder t -> inorder t' = inorder t).
Proof.
  intros Hok. destruct (Remove_spec t (-1) top x Hok) as (t' & dn & ER & HI).
  exists t', dn. split; [exact ER|]. split; [exact HI|]. split.
  - unfold treap_ok. rewrite HI. apply sep_filter. exact Hok.
  - split.
    + rewrite HI. intros Hin. apply list_elem_of_filter in Hin as [Hne _].
      apply Hne. reflexivity.
    + intros Hnot. rewrite HI. apply filter_all. apply Forall_forall.
      intros y Hy ->. contradiction.
Qed.

(** X16. Insert into a well-formed treap, of an interval that shares no
    byte with the intervals held, returns: the intervals held afterwards
    are those held before with the new one inserted in order and joined
    with the neighbours it abuts; the treap is well-formed again and the
    sizes held have grown by the size of the interval. *)
Theorem Insert_is_coalescing_insertion `{Runtime} t nn s :
  treap_ok t -> interval nn -> Forall (apart nn) (inorder t) ->
  exists t' s',
    Insert t nn s = Some (t', s') /\
    inorder t' = ins nn (inorder t) /\
    treap_ok t' /\
    sumSizes (inorder t') = sumSizes (inorder t) + Size nn /\
    (CountNodes t' <= CountNodes t + 1)%nat.
Proof.
  intros Hok Hint Hap. pose proof Hint as (Hi0 & Hi1 & Hi2).
  destruct (Insert_spec t (-1) top nn s Hok ltac:(lia) ltac:(lia) Hint
              ltac:(lia) Hi2 Hap) as (t' & s' & EI & HI).
  exists t', s'. split; [exact EI|]. split; [exact HI|]. split.
  - unfold treap_ok. rewrite HI. apply ins_sep; try assumption; lia.
  - split.
    + rewrite HI. eapply ins_sumSizes; eauto; lia.
    + rewrite <- !length_inorder, HI. clear.
      induction (inorder t) as [|f l IH]; cbn [ins length]; [lia|].
      destruct (End nn + 1 <? Start f); [cbn [length]; lia|].
      destruct (End nn + 1 =? Start f); [cbn [length]; lia|].
      destruct (End f + 1 =? Start nn).
      * destruct l as [|g l']; [cbn [length]; lia|].
        destruct (End nn + 1 =? Start g); cbn [length]; lia.
      * cbn [length]. lia.
Qed.

(** X17. GreatestGravityNode on a non-empty treap returns a node of the
    treap, and when the root is at least as large as the size asked for,
    so is the node returned. *)
Theorem GreatestGravityNode_picks_node `{Runtime} root size :
  root <> Nil ->
  exists i f,
    GreatestGravityNode root size = Some i /\
    (i < CountNodes root)%nat /\
    inorder root !! i = Some f /\
    (forall rs, sizeOf root = Some rs -> size <= rs -> size <= Size f).
Proof.
  intros Hne.
  destruct (GreatestGravityNode_spec root size Hne) as (i & f & G & Hi & Hsz).
  exists i, f. split; [exact G|]. split.
  - rewrite <- length_inorder. eapply lookup_lt_Some. exact Hi.
  - split; [exact Hi|exact Hsz].
Qed.

(** X18. minValueNode returns the first interval in order, and returns
    one for every non-empty treap. *)
Theorem minValueNode_is_first t :
  minValueNode t = head (inorder t) /\
  (t <> Nil -> is_Some (minValueNode t)).
Proof.
  split; [apply minValueNode_head|].
  intros Hne. rewrite minValueNode_head.
  destruct t as [|l fs r]; [contradiction|]. cbn [inorder].
  destruct (inorder l); cbn; eauto.
Qed.

(** X19. isOverlapping, despite its name, tests that two intervals abut:
    it holds exactly when one starts right after the other ends, and it
    does not hold for an interval that starts inside the other. *)
Theorem isOverlapping_is_adjacency a b :
  interval a -> interval b ->
  (isOverlapping a b = true <-> adjacent a b) /\
  (Start a <= Start b <= End a -> isOverlapping a b = false).
Proof.
  intros Ha Hb. split.
  - rewrite (isOverlapping_true a b Ha Hb). unfold adjacent. split; intros [E|E];
      [right|left|right|left]; lia.
  - intros Hin. apply (isOverlapping_false a b Ha Hb).
    destruct Ha as (? & ? & ?), Hb as (? & ? & ?). lia.
Qed.

(** X20. merge of two abutting intervals is their union, whichever of
    them is the receiver, and its size is the sum of their sizes. *)
Theorem merge_of_adjacent a b :
  interval a -> interval b -> End a + 1 = Start b ->
  treap.merge a b = mkFS (Start a) (End b) /\
  treap.merge b a = mkFS (Start a) (End b) /\
  Size (treap.merge a b) = Size a + Size b.
Proof.
  intros (Ha0 & Ha1 & Ha2) (Hb0 & Hb1 & Hb2) Hadj.
  assert (E1 : treap.merge a b = mkFS (Start a) (End b))
    by (apply merge_after; lia).
  split; [exact E1|]. split; [apply merge_before; lia|].
  rewrite E1, !Size_interval; cbn [Start End]; lia.
Qed.

(** X21. store, then load: in a key map that has its buckets, a stored
    key is found with the stored position, every other key is found as
    before, and the buckets are still there. *)
Theorem store_then_load v k p :
  (forall i, 0 <= i < maxBucket -> is_Some (v !! i)) -> 0 <= k ->
  load (store v k p) k = (p, true) /\
  (forall k', k' <> k -> load (store v k p) k' = load v k') /\
  (forall i, 0 <= i < maxBucket -> is_Some (store v k p !! i)).
Proof.
  intros Hb Hk. split.
  - apply load_store_same, Hb, bucketIdx_range, Hk.
  - split.
    + intros k' Hne. apply load_store_other, Hne.
    + intros i Hi. apply store_keeps_buckets, Hb, Hi.
Qed.

(** X22. loadAndDelete returns what load returns and forgets the key:
    afterwards the key is not found, and every other key is found as
    before. *)
Theorem loadAndDelete_forgets v k :
  fst (loadAndDelete v k) = load v k /\
  load (snd (loadAndDelete v k)) k = (0, false) /\
  (forall k', k' <> k -> load (snd (loadAndDelete v k)) k' = load v k').
Proof.
  split; [symmetry; apply load_loadAndDelete|].
  split; [apply load_after_delete_same|].
  intros k' Hne. apply load_after_delete_other, Hne.
Qed.

Lemma lookup_buckets (l : list nat) (j : Z) :
  foldr (fun i (ss : vmap) => <[Z.of_nat i := (∅ : gmap Z Z)]> ss) ∅ l !! j =
  if decide (j ∈ map Z.of_nat l) then Some ∅ else None.
Proof.
  induction l as [|n l IH]; cbn [foldr map].
  - rewrite lookup_empty. destruct (decide (j ∈ [])) as [Hn|]; [|reflexivity].
    apply elem_of_nil in Hn. contradiction.
  - destruct (decide (Z.of_nat n = j)) as [E|Hne].
    + rewrite E, lookup_insert_eq.
      destruct (decide (j ∈ j :: map Z.of_nat l)) as [|Hc]; [reflexivity|].
      exfalso. apply Hc. left.
    + rewrite lookup_insert_ne by exact Hne. rewrite IH.
      destruct (decide (j ∈ map Z.of_nat l)) as [Hin|Hc];
        destruct (decide (j ∈ Z.of_nat n :: map Z.of_nat l)) as [Hin'|Hc'];
        try reflexivity.
      * exfalso. apply Hc'. right. exact Hin.
      * exfalso. apply elem_of_cons in Hin' as [E|Hin']; [congruence|].
        contradiction.
Qed.

(** X23. newShardedStore makes an empty key map of thirty-two buckets,
    numbered from 0: no key is found in it, and bucketIdx sends every key
    to one of its buckets, the key modulo thirty-two. *)
Theorem newShardedStore_is_empty :
  (forall k, load newShardedStore k = (0, false)) /\
  (forall i, newShardedStore !! i =
             if decide (0 <= i < maxBucket) then Some ∅ else None) /\
  (forall k, 0 <= k -> bucketIdx k = k mod maxBucket /\
                       is_Some (newShardedStore !! bucketIdx k)).
Proof.
  split; [apply load_newShardedStore|]. split.
  - intros i. unfold newShardedStore. rewrite lookup_buckets.
    change (Z.to_nat maxBucket) with 32%nat. unfold maxBucket.
    destruct (decide (i ∈ map Z.of_nat (seq 0 32))) as [Hn|Hc];
      destruct (decide (0 <= i < 32)) as [Hi|Hi]; try reflexivity.
    + apply list_elem_of_fmap in Hn as (n & -> & Hn).
      apply elem_of_seq in Hn. lia.
    + exfalso. apply Hc. apply list_elem_of_fmap. exists (Z.to_nat i).
      split; [lia|]. apply elem_of_seq. lia.
  - intros k Hk. split.
    + unfold bucketIdx, maxBucket. change (32 - 1) with (Z.ones 5).
      rewrite Z.land_ones by lia. reflexivity.
    + apply newShardedStore_buckets, bucketIdx_range, Hk.
Qed.
Import treap.
Import gravity.

(** ** Worked instances *)

Section Instances.
#[local] Existing Instance demoRuntime.
Let s0 : @RS demoRuntime := 0%nat.

Lemma demoTree_ok : treap_ok demoTree.
Proof. unfold treap_ok, top. simpl. lia. Qed.


Lemma fitting_neighbours_bundle_witness :
  exists fss nr ts,
    GetFittingNeighbours demoTree 4 60 = Some (fss, nr, ts) /\
    60 <= sumSizes fss /\ ts = sumSizes fss.
Proof.
  destruct (fitting_neighbours_bundle demoTree 4 (mkFS 40 60) 60)
    as (fss & nr & ts & R & _ & S & T & _).
  - exact demoTree_ok.
  - reflexivity.
  - vm_compute. discriminate.
  - exists fss, nr, ts. auto.
Defined.

Lemma poolExtract_single_interval_witness :
  exists t' fs,
    poolExtract demoFsm 10 = Some (t', inl [fs]) /\ 10 <= Size fs.
Proof.
  destruct (poolExtract_single_interval demoFsm 10 21)
    as (t' & fs & R & S & _).
  - split; [exact demoTree_ok|reflexivity].
  - reflexivity.
  - lia.
  - exists t', fs. auto.
Defined.

Lemma Size_total_and_empty_tail_witness :
  Size (mkFS 3 7) = 7 - 3 + 1 /\
  poolPut (mkFSM demoTree 61 1) (mkFS 100 99) s0 =
    Some (mkFSM demoTree 61 0, None, s0).
Proof.
  destruct Size_total_and_empty_tail as (_ & _ & S & E & P).
  split.
  - apply (S (mkFS 3 7)); simpl; lia.
  - apply (P (mkFSM demoTree 61 1) (mkFS 100 99) s0).
    + apply (E 99).
    + simpl. lia.
Defined.


End Instances.
